(** * TUI-Mail: a shallow embedding of [tui_mail.py]

    The development follows the layout of the program:

    - [Py]: the Python built-ins the program relies on (text as sequences
      of code points, slicing, indexing, [str.strip], [str.lower], ...);
    - the data classes [EnvelopeRow] and [FolderRow];
    - the configuration lookup ([list_accounts_from_config],
      [resolve_default_sender_from_config]);
    - [HimalayaClient]: the subprocess adapter ([_run], [_run_with_stdin],
      the output classifiers, the command builders, the parsers and
      [_normalize_folders]), with [list_folders] and its two parsers;
    - [TuiMailApp]: the UI state machine: the key handlers of the list,
      folders and compose pages, switching accounts, opening and sending
      a draft, editing its fields, the recipients of a reply, the dialog
      for the account number, and the helpers that scroll, slice and fit
      text.

    Modelling conventions.

    - A Python [str] is a [list N] of Unicode code points.  White space
      ([str.isspace], which is also the regular expression class [\s]) and
      the line boundaries of [str.splitlines] are CPython's.  Case mapping
      ([str.lower], [str.upper]) and decimal digits ([\d], [int]) are
      CPython's on the ASCII range; code points from 128 on are left alone
      by the model's case mapping and are not digits.
    - A Python [int] is a [Z].
    - [subprocess.run] is the only effect of the adapter.  The backend is
      a function from the calls made so far and the present call to a
      completed process, so that any sequence of answers can be scripted.
      The world threaded through the adapter records the calls made and
      the entries handed to the debug logger.
    - An exception [HimalayaError] is the [Raise] result of a computation.
      A missing binary ([OSError] out of [subprocess.run]) is outside the
      model.
    - An [IndexError], which the program never catches, is the [None]
      result of the functions that index a list.
    - [json.loads] and [str] of a JSON list or dict are parameters of the
      model; so are [_address_key], which rests on two regular
      expressions, and the answers that the user gives in the blocking
      dialogs.  The keys of the terminal are integers, as [getch] returns
      them.
    - Rendering ([_draw] and what it calls) is not modelled: it writes to
      the terminal.  The scroll adjustments that it calls are. *)

From Stdlib Require Import ZArith NArith String Ascii List Sorted Lia DecimalString.
From stdpp Require Import base option list gmap sets.
From Equations Require Import Equations.

Local Open Scope Z_scope.

(** ** Python built-ins *)

Module Py.

Definition str : Type := list N.

(** A string literal of the source, as code points. *)
Definition lit (s : string) : str :=
  (fun a => N_of_ascii a) <$> list_ascii_of_string s.

Definition len {A} (l : list A) : Z := Z.of_nat (length l).

(** [str.isspace] on one code point; the class [\s] of [re] as well. *)
Definition isspace (c : N) : bool :=
  ((9 <=? c) && (c <=? 13) || (28 <=? c) && (c <=? 32) || (c =? 133)
   || (c =? 160) || (c =? 5760) || (8192 <=? c) && (c <=? 8202)
   || (c =? 8232) || (c =? 8233) || (c =? 8239) || (c =? 8287)
   || (c =? 12288))%N.

(** The class [\d] of [re], on the ASCII range. *)
Definition isdigit (c : N) : bool := ((48 <=? c) && (c <=? 57))%N.

Definition lower_char (c : N) : N :=
  if ((65 <=? c) && (c <=? 90))%N then (c + 32)%N else c.

Definition upper_char (c : N) : N :=
  if ((97 <=? c) && (c <=? 122))%N then (c - 32)%N else c.

Definition lower (s : str) : str := lower_char <$> s.
Definition upper (s : str) : str := upper_char <$> s.

Fixpoint take_while {A} (p : A -> bool) (l : list A) : list A :=
  match l with
  | [] => []
  | x :: t => if p x then x :: take_while p t else []
  end.

Fixpoint drop_while {A} (p : A -> bool) (l : list A) : list A :=
  match l with
  | [] => []
  | x :: t => if p x then drop_while p t else l
  end.

Definition lstrip (s : str) : str := drop_while isspace s.
Definition rstrip (s : str) : str := rev (drop_while isspace (rev s)).
Definition strip (s : str) : str := rstrip (lstrip s).

(** [s.startswith(p)]. *)
Fixpoint startswith (s p : str) {struct p} : bool :=
  match p, s with
  | [], _ => true
  | a :: p', b :: s' => (a =? b)%N && startswith s' p'
  | _ :: _, [] => false
  end.

(** [needle in hay]. *)
Fixpoint contains (needle hay : str) : bool :=
  startswith hay needle
  || match hay with
     | [] => false
     | _ :: t => contains needle t
     end.

(** [sep.join(parts)]. *)
Fixpoint join (sep : str) (parts : list str) : str :=
  match parts with
  | [] => []
  | [p] => p
  | p :: rest => p ++ sep ++ join sep rest
  end.

(** The line boundaries of [str.splitlines]. *)
Definition islinebreak (c : N) : bool :=
  ((10 <=? c) && (c <=? 13) || (28 <=? c) && (c <=? 30) || (c =? 133)
   || (c =? 8232) || (c =? 8233))%N.

(** [s.splitlines()]: [cur] is the line being read; a carriage return
    followed by a line feed is one boundary; no empty last line. *)
Fixpoint splitlines_from (cur : str) (s : str) : list str :=
  match s with
  | [] => match cur with [] => [] | _ => [cur] end
  | c :: t =>
      if islinebreak c then
        cur :: match t with
               | c' :: t' =>
                   if ((c =? 13) && (c' =? 10))%N then splitlines_from [] t'
                   else splitlines_from [] t
               | [] => splitlines_from [] t
               end
      else splitlines_from (cur ++ [c]) t
  end.

Definition splitlines (s : str) : list str := splitlines_from [] s.

(** [s.replace(old, new)] for a non-empty [old]: [skip] counts the code
    points of a match that remain to be passed over. *)
Fixpoint replace_from (old new : str) (skip : nat) (s : str) : str :=
  match s with
  | [] => []
  | c :: t =>
      match skip with
      | S k => replace_from old new k t
      | O =>
          if startswith s old
          then new ++ replace_from old new (length old - 1) t
          else c :: replace_from old new 0 t
      end
  end.

Definition replace (old new s : str) : str := replace_from old new 0 s.

(** [s.split(sep, 1)] on a one-character separator that occurs in [s]:
    the text before and after its first occurrence. *)
Fixpoint partition_at (sep : N) (s : str) : option (str * str) :=
  match s with
  | [] => None
  | c :: t =>
      if (c =? sep)%N then Some ([], t)
      else match partition_at sep t with
           | Some (a, b) => Some (c :: a, b)
           | None => None
           end
  end.

(** [str(n)] for an [int]. *)
Definition str_of_int (n : Z) : str := lit (NilZero.string_of_int (Z.to_int n)).

(** [int(ds)] for a run of [\d] characters. *)
Definition int_of_digits (ds : str) : Z :=
  fold_left (fun acc d => acc * 10 + (Z.of_N d - 48)) ds 0.

(** [str(b)] for a [bool]. *)
Definition str_of_bool (b : bool) : str :=
  if b then lit "True" else lit "False".

(** Slice bounds as Python normalises them: a negative bound counts from
    the end, and bounds are clipped to the sequence. *)
Definition slice_bound (n k : Z) : nat :=
  Z.to_nat (if k <? 0 then Z.max 0 (n + k) else Z.min k n).

(** [l[:k]] and [l[k:]]. *)
Definition slice_to {A} (k : Z) (l : list A) : list A :=
  take (slice_bound (len l) k) l.
Definition slice_from {A} (k : Z) (l : list A) : list A :=
  drop (slice_bound (len l) k) l.

(** [l[i]]: [None] stands for [IndexError]. *)
Definition index {A} (l : list A) (i : Z) : option A :=
  if (i <? - len l) || (len l <=? i) then None
  else l !! Z.to_nat (if i <? 0 then i + len l else i).

(** [l[i] = v]. *)
Definition setitem {A} (l : list A) (i : Z) (v : A) : option (list A) :=
  if (i <? - len l) || (len l <=? i) then None
  else Some (<[Z.to_nat (if i <? 0 then i + len l else i) := v]> l).

(** [del l[i]]. *)
Definition delitem {A} (l : list A) (i : Z) : option (list A) :=
  if (i <? - len l) || (len l <=? i) then None
  else Some (delete (Z.to_nat (if i <? 0 then i + len l else i)) l).

(** [l.insert(i, v)]: the position is clipped like a slice bound. *)
Definition insert_at {A} (l : list A) (i : Z) (v : A) : list A :=
  let k := slice_bound (len l) i in take k l ++ v :: drop k l.

End Py.

Import Py.
Arguments lit _%_string.

(** ** Data classes *)

Module EnvelopeRow.
Record t := mk { id : Z; line : str }.
End EnvelopeRow.

Module FolderRow.
Record t := mk { name : str; desc : str }.
End FolderRow.

(** [class HimalayaError(RuntimeError)]: [str(err)] is [message]. *)
Record HimalayaError := { message : str }.

(** ** The world of the adapter *)

(** One [subprocess.run]: the argument vector and what is written to the
    standard input of the process. *)
Record Call := { argv : list str; input : option str }.

Record CompletedProcess := { returncode : Z; stdout : str; stderr : str }.

(** What the external binary answers, given the calls made before. *)
Definition Backend : Type := list Call -> Call -> CompletedProcess.

(** [calls]: the processes spawned so far; [logged]: the (category,
    message) pairs handed to [DebugLogger.log] so far. *)
Record World := { calls : list Call; logged : list (str * str) }.

Inductive result (A : Type) : Type :=
| Return (a : A)
| Raise (e : HimalayaError).
Arguments Return {A} a.
Arguments Raise {A} e.

(** Computations that read and extend the world and may raise. *)
Definition M (A : Type) : Type := World -> result A * World.

#[global] Instance M_ret : MRet M := fun A a w => (Return a, w).

#[global] Instance M_bind : MBind M := fun A B k m w =>
  match m w with
  | (Return a, w') => k a w'
  | (Raise e, w') => (Raise e, w')
  end.

Definition raise {A} (e : HimalayaError) : M A := fun w => (Raise e, w).

(** [try: body / except HimalayaError as err: handler]. *)
Definition try_except {A} (body : M A) (handler : HimalayaError -> M A) : M A :=
  fun w =>
    match body w with
    | (Return a, w') => (Return a, w')
    | (Raise e, w') => handler e w'
    end.

Definition _log (category message : str) : M unit := fun w =>
  (Return tt, {| calls := calls w; logged := logged w ++ [(category, message)] |}).

(** ** Configuration lookup *)

(** What the program reads of one account table of the configuration:
    [email] is [str(account_cfg["email"])] when the key is there, and
    [default_is_true] is [account_cfg.get("default") is True]. *)
Record AccountTable := { email : option str; default_is_true : bool }.

(** A value of the [accounts] mapping: a table ([dict]) or anything else. *)
Inductive AccountCfg :=
| IsTable (t : AccountTable)
| NotTable.

(** A candidate path as the lookup sees it: not a file, a file that
    [tomllib.load] rejects, or a document whose [accounts] entry is a
    mapping (in the order of the file) or is not one. *)
Inductive ConfigFile :=
| Missing
| Unparsable (err : str)
| Parsed (accounts : option (list (str * AccountCfg))).

(** [_candidate_himalaya_config_paths()] with the state of each path. *)
Definition Candidates : Type := list (str * ConfigFile).

(** [d.get(key)] on a mapping kept in insertion order. *)
Fixpoint dict_get {V} (key : str) (d : list (str * V)) : option V :=
  match d with
  | [] => None
  | (k, v) :: rest => if decide (k = key) then Some v else dict_get key rest
  end.

Definition table_email (cfg : option AccountCfg) : str :=
  match cfg with
  | Some (IsTable t) => strip (default [] (email t))
  | _ => []
  end.

Definition is_default_entry (entry : str * AccountCfg) : bool :=
  match entry.2 with
  | IsTable t => default_is_true t
  | NotTable => false
  end.

(** The first account flagged [default = true], else the only account. *)
Definition pick_default_account (accounts : list (str * AccountCfg)) : str :=
  let flagged :=
    match List.find is_default_entry accounts with
    | Some (account_name, _) => strip account_name
    | None => []
    end in
  match flagged, accounts with
  | [], [(account_name, _)] => strip account_name
  | _, _ => flagged
  end.

Fixpoint resolve_default_sender_loop (paths : Candidates) (requested_account : str)
  : M (str * str * str) :=
  match paths with
  | [] => mret ([], [], [])
  | (path, file) :: rest =>
      match file with
      | Missing => resolve_default_sender_loop rest requested_account
      | Unparsable err =>
          _log (lit "WARN") (lit "cannot parse config path=" ++ path ++ lit " err=" ++ err) ;;
          resolve_default_sender_loop rest requested_account
      | Parsed None => resolve_default_sender_loop rest requested_account
      | Parsed (Some accounts) =>
          match requested_account with
          | _ :: _ =>
              match table_email (dict_get requested_account accounts) with
              | (_ :: _) as email => mret (email, requested_account, path)
              | [] =>
                  if contains (lit "@") requested_account
                  then mret (requested_account, requested_account, path)
                  else resolve_default_sender_loop rest requested_account
              end
          | [] =>
              match pick_default_account accounts with
              | [] => resolve_default_sender_loop rest requested_account
              | (_ :: _) as default_account =>
                  match table_email (dict_get default_account accounts) with
                  | (_ :: _) as email => mret (email, default_account, path)
                  | [] =>
                      if contains (lit "@") default_account
                      then mret (default_account, default_account, path)
                      else resolve_default_sender_loop rest requested_account
                  end
              end
          end
      end
  end.

Definition resolve_default_sender_from_config (paths : Candidates) (requested_account : str)
  : M (str * str * str) :=
  resolve_default_sender_loop paths (strip requested_account).

(** The local variables of [list_accounts_from_config]. *)
Record AccountScan := {
  scan_accounts : list str;
  scan_seen : gset str;
  scan_default_account : str;
  scan_source_path : str
}.

(** The body of the inner loop, for one item of [raw_accounts]. *)
Definition scan_entry (st : AccountScan) (entry : str * AccountCfg) : AccountScan :=
  let name := strip entry.1 in
  match name with
  | [] => st
  | _ :: _ =>
      let key := lower name in
      if decide (key ∈ scan_seen st) then st
      else
        {| scan_accounts := scan_accounts st ++ [name];
           scan_seen := {[ key ]} ∪ scan_seen st;
           scan_default_account :=
             match scan_default_account st with
             | [] => if is_default_entry entry then name else []
             | _ :: _ => scan_default_account st
             end;
           scan_source_path := scan_source_path st |}
  end.

Fixpoint list_accounts_loop (paths : Candidates) (st : AccountScan) : M AccountScan :=
  match paths with
  | [] => mret st
  | (path, file) :: rest =>
      match file with
      | Missing => list_accounts_loop rest st
      | Unparsable err =>
          _log (lit "WARN") (lit "cannot parse config path=" ++ path ++ lit " err=" ++ err) ;;
          list_accounts_loop rest st
      | Parsed None => list_accounts_loop rest st
      | Parsed (Some raw_accounts) =>
          let st1 :=
            {| scan_accounts := scan_accounts st;
               scan_seen := scan_seen st;
               scan_default_account := scan_default_account st;
               scan_source_path :=
                 match scan_source_path st with
                 | [] => path
                 | _ :: _ => scan_source_path st
                 end |} in
          list_accounts_loop rest (fold_left scan_entry raw_accounts st1)
      end
  end.

Definition list_accounts_from_config (paths : Candidates) : M (list str * str * str) :=
  st ← list_accounts_loop paths
         {| scan_accounts := []; scan_seen := ∅;
            scan_default_account := []; scan_source_path := [] |} ;
  mret (scan_accounts st, scan_default_account st, scan_source_path st).

(** ** HimalayaClient: static helpers *)

(** The fields of a [HimalayaClient] (the logger is the world's). *)
Record HimalayaClient := {
  binary : str;
  account : str;
  folder : str;
  page_size : Z;
  preview_read : bool
}.

(** The length of a match of [\x1B\[[0-?]*[ -/]*[@-~]] at the head of [s].
    The three classes are disjoint, so the greedy runs are the only way
    to match. *)
Definition ansi_escape_match (s : str) : option nat :=
  match s with
  | 27%N :: 91%N :: t =>
      let params := take_while (fun c => (48 <=? c) && (c <=? 63))%N t in
      let t1 := drop (length params) t in
      let inter := take_while (fun c => (32 <=? c) && (c <=? 47))%N t1 in
      match drop (length inter) t1 with
      | final :: _ =>
          if ((64 <=? final) && (final <=? 126))%N
          then Some (2 + length params + length inter + 1)%nat
          else None
      | [] => None
      end
  | _ => None
  end.

(** [ansi_escape.sub] with the empty replacement: [skip] counts the code points of a match
    that remain to be dropped. *)
Fixpoint ansi_escape_sub (skip : nat) (s : str) : str :=
  match s with
  | [] => []
  | c :: t =>
      match skip with
      | S k => ansi_escape_sub k t
      | O =>
          match ansi_escape_match s with
          | Some n => ansi_escape_sub (n - 1) t
          | None => c :: ansi_escape_sub 0 t
          end
      end
  end.

Definition _sanitize_output (text : str) : str :=
  match text with
  | [] => []
  | _ :: _ => strip (ansi_escape_sub 0 text)
  end.

(** [f"{stdout}\n{stderr}".lower()]. *)
Definition combined_lower (stdout stderr : str) : str :=
  lower (stdout ++ [10%N] ++ stderr).

Definition _is_soft_success (stdout stderr : str) : bool :=
  contains (lit "successfully") (combined_lower stdout stderr).

Definition _is_quiet_unsupported (stdout stderr : str) : bool :=
  contains (lit "unexpected argument '--quiet'") (combined_lower stdout stderr).

(** [l.remove(x)] when [x] is in [l]: the first occurrence goes. *)
Fixpoint list_remove (x : str) (l : list str) : list str :=
  match l with
  | [] => []
  | y :: t => if decide (y = x) then t else y :: list_remove x t
  end.

Definition _strip_quiet_arg (cmd : list str) : list str :=
  if decide (lit "--quiet" ∈ cmd) then list_remove (lit "--quiet") cmd else cmd.

Definition _is_send_copy_failure (cmd : list str) (stdout stderr : str) : bool :=
  let joined_cmd := lower (join (lit " ") cmd) in
  if negb (contains (lit "message send") joined_cmd) then false
  else
    let combined := combined_lower stdout stderr in
    let missing_folder_case :=
      contains (lit "cannot add imap message") combined
      && contains (lit "cannot resolve imap task") combined
      && (contains (lit "folder doesn't exist") combined
          || contains (lit "folder does not exist") combined) in
    let legacy_stream_case :=
      contains (lit "cannot add imap message") combined
      && (contains (lit "stream error") combined
          || contains (lit "unexpected tag in command completion result") combined) in
    missing_folder_case || legacy_stream_case.

Definition _is_missing_trash_error (text : str) : bool :=
  let lowered := lower text in
  contains (lit "no folder trash") lowered
  || (contains (lit "trash") lowered
      && contains (lit "cannot move imap message") lowered).

(** [HimalayaClient._truncate]; [limit] defaults to 400. *)
Definition _truncate (text : str) (limit : Z) : str :=
  if len text <=? limit then text
  else slice_to (limit - 3) text ++ lit "...".

(** [^\s*(\d+)\s+] at the head of [s]: the digits captured.  White space
    and digits are disjoint, so the greedy runs are the only way to match. *)
Definition match_leading_int (s : str) : option str :=
  let s1 := drop_while isspace s in
  let digits := take_while isdigit s1 in
  match digits, drop_while isdigit s1 with
  | _ :: _, c :: _ => if isspace c then Some digits else None
  | _, _ => None
  end.

(** The class [[|│]]. *)
Definition isbar (c : N) : bool := ((c =? 124) || (c =? 9474))%N.

(** [^\s*[|│]\s*(\d+)\s*[|│]] at the head of [s]. *)
Definition match_bar_int (s : str) : option str :=
  match drop_while isspace s with
  | b :: s2 =>
      if isbar b then
        let s3 := drop_while isspace s2 in
        let digits := take_while isdigit s3 in
        match digits, drop_while isspace (drop_while isdigit s3) with
        | _ :: _, b' :: _ => if isbar b' then Some digits else None
        | _, _ => None
        end
      else None
  | [] => None
  end.

(** The inner loop of [_parse_envelope_rows]: the first pattern that
    matches gives the id. *)
Definition find_envelope_id (clean : str) : option Z :=
  match match_leading_int clean with
  | Some digits => Some (int_of_digits digits)
  | None =>
      match match_bar_int clean with
      | Some digits => Some (int_of_digits digits)
      | None => None
      end
  end.

(** The body of the outer loop, for one line. *)
Definition parse_envelope_line (line : str) : list EnvelopeRow.t :=
  let clean := rstrip line in
  match clean with
  | [] => []
  | _ :: _ =>
      match find_envelope_id clean with
      | None => []
      | Some found => [EnvelopeRow.mk found clean]
      end
  end.

Definition _parse_envelope_rows (raw : str) : list EnvelopeRow.t :=
  flat_map parse_envelope_line (splitlines raw).

(** The local variables [unique] and [seen] of [_normalize_folders]. *)
Definition normalize_step (st : list FolderRow.t * gset str) (row : FolderRow.t)
  : list FolderRow.t * gset str :=
  let key := lower (strip (FolderRow.name row)) in
  match key with
  | [] => st
  | _ :: _ =>
      if decide (key ∈ st.2) then st
      else (st.1 ++ [FolderRow.mk (strip (FolderRow.name row)) (strip (FolderRow.desc row))],
            {[ key ]} ∪ st.2)
  end.

(** [unique] when the first loop of [_normalize_folders] is over. *)
Definition normalize_unique (rows : list FolderRow.t) : list FolderRow.t :=
  (fold_left normalize_step rows ([], ∅)).1.

Definition is_inbox (row : FolderRow.t) : bool :=
  bool_decide (upper (FolderRow.name row) = lit "INBOX").

(** The sort key [(0 if row.name.upper() == "INBOX" else 1, row.name.lower())]. *)
Definition folder_sort_key (row : FolderRow.t) : Z * str :=
  (if is_inbox row then 0 else 1, lower (FolderRow.name row)).

(** [a < b] on strings: by code point, a proper prefix first. *)
Fixpoint str_lt (a b : str) : bool :=
  match a, b with
  | _, [] => false
  | [], _ :: _ => true
  | x :: a', y :: b' => (x <? y)%N || ((x =? y)%N && str_lt a' b')
  end.

(** [a < b] on the tuples used as sort keys. *)
Definition key_lt (a b : Z * str) : bool :=
  (a.1 <? b.1) || ((a.1 =? b.1) && str_lt a.2 b.2).

(** [list.sort(key=...)] is stable; it is modelled by the insertion sort
    that puts an element before the first later element of a strictly
    greater or equal key, which yields the same list as any stable sort. *)
Fixpoint insert_sorted {A} (key : A -> Z * str) (x : A) (l : list A) : list A :=
  match l with
  | [] => [x]
  | y :: t =>
      if key_lt (key y) (key x) then y :: insert_sorted key x t
      else x :: y :: t
  end.

Fixpoint sort_by {A} (key : A -> Z * str) (l : list A) : list A :=
  match l with
  | [] => []
  | x :: t => insert_sorted key x (sort_by key t)
  end.

Definition _normalize_folders (rows : list FolderRow.t) : list FolderRow.t :=
  let unique := normalize_unique rows in
  let has_inbox := existsb is_inbox unique in
  if negb has_inbox
  then FolderRow.mk (lit "INBOX") (lit "Inbox") :: unique
  else sort_by folder_sort_key unique.

(** ** HimalayaClient: running the backend *)

(** [a or b] on strings. *)
Definition str_or (a b : str) : str :=
  match a with
  | [] => b
  | _ :: _ => a
  end.

(** How many entries of [cmd] are ["--quiet"]: what a re-run consumes. *)
Definition count_quiet (cmd : list str) : nat :=
  length (List.filter (fun a => bool_decide (a = lit "--quiet")) cmd).

Lemma count_quiet_strip (cmd : list str) :
  lit "--quiet" ∈ cmd -> (count_quiet (_strip_quiet_arg cmd) < count_quiet cmd)%nat.
Proof.
  intros Hin. unfold _strip_quiet_arg. rewrite decide_True by done.
  induction cmd as [|y t IH]; [by apply elem_of_nil in Hin|].
  unfold count_quiet in *. simpl. destruct (decide (y = lit "--quiet")) as [->|Hne].
  - rewrite bool_decide_eq_true_2 by done. simpl. lia.
  - rewrite bool_decide_eq_false_2 by done. simpl.
    rewrite bool_decide_eq_false_2 by done. apply IH.
    apply elem_of_cons in Hin as [Heq|Hin]; [congruence|done].
Qed.

Section Adapter.

Variable backend : Backend.

(** [subprocess.run(cmd, input=stdin, capture_output=True, text=True,
    check=False, env=self._env())]. *)
Definition subprocess_run (cmd : list str) (stdin : option str) : M CompletedProcess :=
  fun w =>
    let call := {| argv := cmd; input := stdin |} in
    (Return (backend (calls w) call),
     {| calls := calls w ++ [call]; logged := logged w |}).

(** The message of the [HimalayaError] that [_run] and [_run_with_stdin]
    raise. *)
Definition failure_text (cmd : list str) (clean_stdout clean_stderr : str) : str :=
  match strip (str_or clean_stderr clean_stdout) with
  | [] => lit "Command failed: " ++ join (lit " ") cmd
  | (_ :: _) as err => err
  end.

Definition log_returncode (proc : CompletedProcess) (clean_stdout clean_stderr : str) : M unit :=
  _log (lit "CMD")
       (lit "rc=" ++ str_of_int (returncode proc)
        ++ lit " stdout_len=" ++ str_of_int (len clean_stdout)
        ++ lit " stderr_len=" ++ str_of_int (len clean_stderr)).

Equations _run (cmd : list str) : M str by wf (count_quiet cmd) lt :=
  _run cmd :=
    _log (lit "CMD") (lit "run " ++ join (lit " ") cmd) ;;
    proc ← subprocess_run cmd None ;
    let clean_stdout := _sanitize_output (stdout proc) in
    let clean_stderr := _sanitize_output (stderr proc) in
    log_returncode proc clean_stdout clean_stderr ;;
    match decide (returncode proc ≠ 0 ∧ lit "--quiet" ∈ cmd
                  ∧ _is_quiet_unsupported clean_stdout clean_stderr = true) with
    | left Hquiet => _run (_strip_quiet_arg cmd)
    | right _ =>
        if negb (returncode proc =? 0) && _is_soft_success clean_stdout clean_stderr
        then mret clean_stdout
        else if negb (returncode proc =? 0) then
          let err := failure_text cmd clean_stdout clean_stderr in
          _log (lit "ERR") (lit "run failed err=" ++ _truncate err 400) ;;
          raise {| message := err |}
        else mret clean_stdout
    end.
Next Obligation. apply count_quiet_strip. tauto. Qed.

Definition send_copy_warning : str :=
  lit "Email sent, but saving a copy via IMAP failed. "
  ++ lit "Your server may be legacy/incompatible with this append flow. "
  ++ lit "Try disabling message.send.save-copy in config.".

Equations _run_with_stdin (cmd : list str) (raw_input : str) : M str
  by wf (count_quiet cmd) lt :=
  _run_with_stdin cmd raw_input :=
    _log (lit "CMD") (lit "run_with_stdin " ++ join (lit " ") cmd
                      ++ lit " stdin_len=" ++ str_of_int (len raw_input)) ;;
    proc ← subprocess_run cmd (Some raw_input) ;
    let clean_stdout := _sanitize_output (stdout proc) in
    let clean_stderr := _sanitize_output (stderr proc) in
    log_returncode proc clean_stdout clean_stderr ;;
    match decide (returncode proc ≠ 0 ∧ lit "--quiet" ∈ cmd
                  ∧ _is_quiet_unsupported clean_stdout clean_stderr = true) with
    | left Hquiet => _run_with_stdin (_strip_quiet_arg cmd) raw_input
    | right _ =>
        if negb (returncode proc =? 0) && _is_soft_success clean_stdout clean_stderr
        then mret clean_stdout
        else if negb (returncode proc =? 0)
                && _is_send_copy_failure cmd clean_stdout clean_stderr then
          _log (lit "WARN")
               (lit "send succeeded but save-copy failed; " ++ lit "details="
                ++ _truncate (str_or clean_stderr clean_stdout) 400) ;;
          mret send_copy_warning
        else if negb (returncode proc =? 0) then
          let err := failure_text cmd clean_stdout clean_stderr in
          _log (lit "ERR") (lit "run_with_stdin failed err=" ++ _truncate err 400) ;;
          raise {| message := err |}
        else mret clean_stdout
    end.
Next Obligation. apply count_quiet_strip. tauto. Qed.

End Adapter.

(** ** HimalayaClient: the operations *)

(** The outcome of a computation, exception included, as a value: what a
    [try] statement inspects. *)
Definition attempt {A} (body : M A) : M (result A) :=
  fun w => let r := body w in (Return r.1, r.2).

Section Operations.

Variable backend : Backend.

(** [if self.account: cmd.extend(["--account", self.account])]. *)
Definition account_args (self : HimalayaClient) : list str :=
  match account self with
  | [] => []
  | _ :: _ => [lit "--account"; account self]
  end.

Definition list_envelopes (self : HimalayaClient) (page : Z)
  : M (list EnvelopeRow.t * str) :=
  let cmd :=
    [binary self; lit "--quiet"; lit "envelope"; lit "list"; lit "--folder";
     folder self; lit "--page"; str_of_int page]
    ++ (if 0 <? page_size self
        then [lit "--page-size"; str_of_int (page_size self)] else [])
    ++ account_args self in
  _log (lit "ACTION")
       (lit "list_envelopes page=" ++ str_of_int page
        ++ lit " page_size=" ++ str_of_int (page_size self)) ;;
  out ← _run backend cmd ;
  let rows := _parse_envelope_rows out in
  _log (lit "ACTION") (lit "list_envelopes result count=" ++ str_of_int (len rows)) ;;
  mret (rows, out).

Definition read_message_cmd (self : HimalayaClient) (envelope_id : Z) : list str :=
  [binary self; lit "--quiet"; lit "message"; lit "read"; lit "--folder";
   folder self; str_of_int envelope_id]
  ++ account_args self
  ++ (if preview_read self then [lit "--preview"] else []).


(** The first command of [delete_message]. *)
Definition delete_cmd (self : HimalayaClient) (envelope_id : Z) : list str :=
  [binary self; lit "--quiet"; lit "message"; lit "delete"; lit "--folder";
   folder self; str_of_int envelope_id]
  ++ account_args self.

(** [fallback_cmd] of [delete_message]. *)
Definition delete_fallback_cmd (self : HimalayaClient) (envelope_id : Z) : list str :=
  [binary self; lit "--quiet"; lit "flag"; lit "add"; lit "--folder";
   folder self; str_of_int envelope_id; lit "deleted"]
  ++ account_args self.

Definition delete_fallback_failed : str :=
  lit "Failed to delete email: Trash folder is missing and deleted-flag "
  ++ lit "fallback also failed. Error: ".

Definition delete_message (self : HimalayaClient) (envelope_id : Z) : M str :=
  _log (lit "ACTION") (lit "delete_message id=" ++ str_of_int envelope_id) ;;
  try_except (_run backend (delete_cmd self envelope_id)) (fun err =>
    let raw_err := message err in
    if negb (_is_missing_trash_error raw_err) then raise err
    else
      _log (lit "WARN")
           (lit "delete_message missing trash folder, trying fallback with deleted flag id="
            ++ str_of_int envelope_id) ;;
      try_except (_run backend (delete_fallback_cmd self envelope_id)) (fun fallback_err =>
        raise {| message := delete_fallback_failed ++ message fallback_err |})).


(** The text that [compose_message] writes to the standard input. *)
Definition compose_raw_message (to subject body sender : str) : str :=
  let headers :=
    (match strip sender with [] => [] | _ :: _ => [lit "From: " ++ strip sender] end)
    ++ [lit "To: " ++ strip to]
    ++ (match strip subject with [] => [] | _ :: _ => [lit "Subject: " ++ strip subject] end) in
  let normalized_body :=
    replace [10%N] [13%N; 10%N]
      (replace [13%N] [10%N] (replace [13%N; 10%N] [10%N] body)) in
  join [13%N; 10%N] headers ++ [13%N; 10%N; 13%N; 10%N] ++ normalized_body.

Definition compose_message (self : HimalayaClient) (to subject body sender : str) : M str :=
  let cmd := [binary self; lit "--quiet"; lit "message"; lit "send"] ++ account_args self in
  _log (lit "ACTION")
       (lit "compose_message " ++ lit "from=" ++ str_or (strip sender) (lit "(none)")
        ++ lit " to=" ++ strip to ++ lit " "
        ++ lit "subject_len=" ++ str_of_int (len (strip subject))
        ++ lit " body_len=" ++ str_of_int (len body)) ;;
  _run_with_stdin backend cmd (compose_raw_message to subject body sender).

End Operations.

(** ** TuiMailApp: the state *)

(** The key codes of [curses] that the program names (ncurses values). *)
Module curses.
Definition KEY_DOWN : Z := 258.
Definition KEY_UP : Z := 259.
Definition KEY_LEFT : Z := 260.
Definition KEY_RIGHT : Z := 261.
Definition KEY_HOME : Z := 262.
Definition KEY_BACKSPACE : Z := 263.
Definition KEY_DC : Z := 330.
Definition KEY_NPAGE : Z := 338.
Definition KEY_PPAGE : Z := 339.
Definition KEY_ENTER : Z := 343.
Definition KEY_END : Z := 360.
End curses.

(** [self.mode]: ["list"], ["message"], ["folders"] or ["compose"]. *)
Inductive Mode := mode_list | mode_message | mode_folders | mode_compose.

(** [self.compose_kind]: ["new"] or ["reply"]. *)
Inductive ComposeKind := kind_new | kind_reply.

(** The attributes of a [TuiMailApp], grouped by the view they belong to;
    the terminal and the logger are not part of the record. *)
Record ListView := {
  rows : list EnvelopeRow.t;
  cursor : Z;
  list_scroll : Z;
  raw_page_text : str
}.

Record MessageView := {
  message_lines : list str;
  message_scroll : Z;
  message_title : str;
  current_message_id : option Z
}.

Record FoldersView := {
  folders : list FolderRow.t;
  folder_cursor : Z;
  folder_scroll : Z
}.

Record Compose := {
  compose_focus : Z;
  compose_kind : ComposeKind;
  compose_reply_all : bool;
  compose_reply_source_id : option Z;
  compose_to : str;
  compose_subject : str;
  compose_body_lines : list str;
  compose_to_cursor : Z;
  compose_subject_cursor : Z;
  compose_body_row : Z;
  compose_body_col : Z;
  compose_body_scroll : Z
}.

Record TuiMailApp := {
  client : HimalayaClient;
  default_sender : str;
  page : Z;
  mode : Mode;
  status : str;
  help_visible : bool;
  prev_mode_before_folders : Mode;
  prev_mode_before_compose : Mode;
  list_view : ListView;
  message_view : MessageView;
  folders_view : FoldersView;
  compose : Compose
}.

(** Assignments to one attribute. *)
Definition set_client (v : HimalayaClient) (app : TuiMailApp) : TuiMailApp :=
  {| client := v; default_sender := default_sender app; page := page app;
     mode := mode app; status := status app; help_visible := help_visible app;
     prev_mode_before_folders := prev_mode_before_folders app;
     prev_mode_before_compose := prev_mode_before_compose app;
     list_view := list_view app; message_view := message_view app;
     folders_view := folders_view app; compose := compose app |}.

Definition set_default_sender (v : str) (app : TuiMailApp) : TuiMailApp :=
  {| client := client app; default_sender := v; page := page app;
     mode := mode app; status := status app; help_visible := help_visible app;
     prev_mode_before_folders := prev_mode_before_folders app;
     prev_mode_before_compose := prev_mode_before_compose app;
     list_view := list_view app; message_view := message_view app;
     folders_view := folders_view app; compose := compose app |}.

Definition set_page (v : Z) (app : TuiMailApp) : TuiMailApp :=
  {| client := client app; default_sender := default_sender app; page := v;
     mode := mode app; status := status app; help_visible := help_visible app;
     prev_mode_before_folders := prev_mode_before_folders app;
     prev_mode_before_compose := prev_mode_before_compose app;
     list_view := list_view app; message_view := message_view app;
     folders_view := folders_view app; compose := compose app |}.

Definition set_mode (v : Mode) (app : TuiMailApp) : TuiMailApp :=
  {| client := client app; default_sender := default_sender app; page := page app;
     mode := v; status := status app; help_visible := help_visible app;
     prev_mode_before_folders := prev_mode_before_folders app;
     prev_mode_before_compose := prev_mode_before_compose app;
     list_view := list_view app; message_view := message_view app;
     folders_view := folders_view app; compose := compose app |}.

Definition set_status (v : str) (app : TuiMailApp) : TuiMailApp :=
  {| client := client app; default_sender := default_sender app; page := page app;
     mode := mode app; status := v; help_visible := help_visible app;
     prev_mode_before_folders := prev_mode_before_folders app;
     prev_mode_before_compose := prev_mode_before_compose app;
     list_view := list_view app; message_view := message_view app;
     folders_view := folders_view app; compose := compose app |}.

Definition set_prev_mode_before_compose (v : Mode) (app : TuiMailApp) : TuiMailApp :=
  {| client := client app; default_sender := default_sender app; page := page app;
     mode := mode app; status := status app; help_visible := help_visible app;
     prev_mode_before_folders := prev_mode_before_folders app;
     prev_mode_before_compose := v;
     list_view := list_view app; message_view := message_view app;
     folders_view := folders_view app; compose := compose app |}.

Definition set_list_view (v : ListView) (app : TuiMailApp) : TuiMailApp :=
  {| client := client app; default_sender := default_sender app; page := page app;
     mode := mode app; status := status app; help_visible := help_visible app;
     prev_mode_before_folders := prev_mode_before_folders app;
     prev_mode_before_compose := prev_mode_before_compose app;
     list_view := v; message_view := message_view app;
     folders_view := folders_view app; compose := compose app |}.

Definition set_message_view (v : MessageView) (app : TuiMailApp) : TuiMailApp :=
  {| client := client app; default_sender := default_sender app; page := page app;
     mode := mode app; status := status app; help_visible := help_visible app;
     prev_mode_before_folders := prev_mode_before_folders app;
     prev_mode_before_compose := prev_mode_before_compose app;
     list_view := list_view app; message_view := v;
     folders_view := folders_view app; compose := compose app |}.

Definition set_compose (v : Compose) (app : TuiMailApp) : TuiMailApp :=
  {| client := client app; default_sender := default_sender app; page := page app;
     mode := mode app; status := status app; help_visible := help_visible app;
     prev_mode_before_folders := prev_mode_before_folders app;
     prev_mode_before_compose := prev_mode_before_compose app;
     list_view := list_view app; message_view := message_view app;
     folders_view := folders_view app; compose := v |}.

(** [self.client.account = a; self.client.folder = f]. *)
Definition set_account_folder (a f : str) (app : TuiMailApp) : TuiMailApp :=
  set_client {| binary := binary (client app); account := a; folder := f;
                page_size := page_size (client app);
                preview_read := preview_read (client app) |} app.

(** [self.compose_body_lines], [self.compose_body_row] and
    [self.compose_body_col] assigned together. *)
Definition set_compose_body (lines : list str) (row col : Z) (app : TuiMailApp)
  : TuiMailApp :=
  let c := compose app in
  set_compose
    {| compose_focus := compose_focus c; compose_kind := compose_kind c;
       compose_reply_all := compose_reply_all c;
       compose_reply_source_id := compose_reply_source_id c;
       compose_to := compose_to c; compose_subject := compose_subject c;
       compose_body_lines := lines;
       compose_to_cursor := compose_to_cursor c;
       compose_subject_cursor := compose_subject_cursor c;
       compose_body_row := row; compose_body_col := col;
       compose_body_scroll := compose_body_scroll c |} app.

(** The four assignments that leave the message view. *)
Definition clear_message_view (app : TuiMailApp) : TuiMailApp :=
  set_message_view
    {| message_lines := []; message_scroll := 0; message_title := [];
       current_message_id := None |}
    (set_mode mode_list app).

(** ** TuiMailApp: loading a page and switching accounts *)

Section Switching.

Variable backend : Backend.

(** The configuration files as the two lookups find them. *)
Variable config : Candidates.

(** [_prompt_account_number_modal]: what the user answers in the blocking
    dialog, given the accounts listed; [None] when the dialog is left with
    Esc, the empty string for the default account. *)
Variable _prompt_account_number_modal : list str -> str -> option str.

Definition _show_loading (app : TuiMailApp) (message : str) : M TuiMailApp :=
  _log (lit "STATE") (lit "loading message=" ++ message) ;;
  mret (set_status message app).

Definition _load_page (app : TuiMailApp) (reset_cursor : bool) (loading_msg : str)
  : M (bool * TuiMailApp) :=
  _log (lit "ACTION")
       (lit "load_page page=" ++ str_of_int (page app)
        ++ lit " reset_cursor=" ++ str_of_bool reset_cursor) ;;
  app ← _show_loading app loading_msg ;
  r ← attempt (list_envelopes backend (client app) (page app)) ;
  match r with
  | Raise err =>
      let app :=
        set_status (lit "Error loading page " ++ str_of_int (page app) ++ lit ": "
                    ++ message err) app in
      _log (lit "ERR")
           (lit "load_page error page=" ++ str_of_int (page app)
            ++ lit " err=" ++ message err) ;;
      let app := if 1 <? page app then set_page (page app - 1) app else app in
      mret (false, app)
  | Return (new_rows, raw) =>
      let old := list_view app in
      let app :=
        set_list_view
          (if reset_cursor then
             {| rows := new_rows; cursor := 0; list_scroll := 0; raw_page_text := raw |}
           else if len new_rows <=? cursor old then
             {| rows := new_rows; cursor := Z.max 0 (len new_rows - 1);
                list_scroll := list_scroll old; raw_page_text := raw |}
           else
             {| rows := new_rows; cursor := cursor old;
                list_scroll := list_scroll old; raw_page_text := raw |}) app in
      let app :=
        match new_rows with
        | [] => set_status (lit "No messages on page " ++ str_of_int (page app) ++ lit ".") app
        | _ :: _ =>
            set_status
              (lit "Page " ++ str_of_int (page app) ++ lit " loaded ("
               ++ str_of_int (len new_rows) ++ lit " messages, page-size="
               ++ str_of_int (page_size (client app)) ++ lit ").") app
        end in
      _log (lit "ACTION")
           (lit "load_page done page=" ++ str_of_int (page app)
            ++ lit " rows=" ++ str_of_int (len new_rows)) ;;
      mret (true, app)
  end.

Definition _switch_account (app : TuiMailApp) : M TuiMailApp :=
  '(accounts, default_account, _) ← list_accounts_from_config config ;
  match accounts with
  | [] =>
      _log (lit "WARN") (lit "account switch unavailable: no accounts found") ;;
      mret (set_status (lit "No accounts found in Himalaya config.") app)
  | _ :: _ =>
      match _prompt_account_number_modal accounts default_account with
      | None =>
          _log (lit "ACTION") (lit "account switch canceled") ;;
          mret (set_status (lit "Account switch canceled.") app)
      | Some target =>
          let old_account := account (client app) in
          let old_folder := folder (client app) in
          let old_page := page app in
          let old_sender := default_sender app in
          let app :=
            clear_message_view (set_page 1 (set_account_folder target (lit "INBOX") app)) in
          '(auto_sender, _, _) ← resolve_default_sender_from_config config target ;
          let app :=
            match auto_sender with
            | [] => app
            | _ :: _ => set_default_sender auto_sender app
            end in
          let selected_label := str_or target (lit "(default)") in
          _log (lit "ACTION")
               (lit "account switch requested from=" ++ str_or old_account (lit "(default)")
                ++ lit " to=" ++ selected_label) ;;
          '(ok, app) ← _load_page app true
                         (lit "Switching account to " ++ selected_label ++ lit "...") ;
          if ok : bool then
            let sender_note :=
              match auto_sender with
              | [] => lit "unchanged"
              | _ :: _ => lit "auto-updated"
              end in
            let app :=
              match target, default_account with
              | _ :: _, _ =>
                  set_status (lit "Account changed to " ++ target
                              ++ lit ". Folder reset to INBOX. Sender " ++ sender_note
                              ++ lit ".") app
              | [], _ :: _ =>
                  set_status (lit "Account changed to default (" ++ default_account
                              ++ lit "). Folder reset to INBOX. "
                              ++ lit "Sender " ++ sender_note ++ lit ".") app
              | [], [] =>
                  set_status (lit "Account changed to default. Folder reset to INBOX. Sender "
                              ++ sender_note ++ lit ".") app
              end in
            _log (lit "ACTION")
                 (lit "account switch done to=" ++ selected_label
                  ++ lit " sender=" ++ sender_note) ;;
            mret app
          else
            let app :=
              clear_message_view
                (set_default_sender old_sender
                   (set_page old_page (set_account_folder old_account old_folder app))) in
            '(_, app) ← _load_page app true (lit "Restoring previous account...") ;
            let app :=
              set_status (lit "Could not switch to account '" ++ selected_label
                          ++ lit "'. Previous account restored.") app in
            _log (lit "WARN")
                 (lit "account switch failed target=" ++ selected_label
                  ++ lit "; previous restored") ;;
            mret app
      end
  end.

End Switching.

(** ** TuiMailApp: opening a reply *)

(** [raw.rstrip("\n")]. *)
Definition rstrip_newlines (s : str) : str :=
  rev (drop_while (fun c => (c =? 10)%N) (rev s)).

(** The loop of [_split_headers_and_body_from_message]: [i] is the index of
    the head of [rest] in [lines]. *)
Fixpoint split_headers_loop (lines : list str) (i : nat) (rest : list str)
    (headers : gmap str str) (current_key : str) : gmap str str * list str :=
  match rest with
  | [] =>
      let body_start := if decide (headers = ∅) then 0%nat else length lines in
      (headers, drop body_start lines)
  | raw :: rest' =>
      let line := rstrip_newlines raw in
      match strip line with
      | [] => (headers, drop (i + 1) lines)
      | _ :: _ =>
          if (startswith line (lit " ") || startswith line [9%N])
             && negb (bool_decide (current_key = []))
          then
            let folded :=
              strip (default [] (headers !! current_key) ++ lit " " ++ strip line) in
            split_headers_loop lines (i + 1) rest'
              (<[current_key := folded]> headers) current_key
          else
            match partition_at 58 line with
            | None =>
                if decide (headers = ∅) then (∅, lines)
                else split_headers_loop lines (i + 1) rest' headers current_key
            | Some (key, value) =>
                match lower (strip key) with
                | [] => split_headers_loop lines (i + 1) rest' headers current_key
                | (_ :: _) as key =>
                    split_headers_loop lines (i + 1) rest'
                      (<[key := strip value]> headers) key
                end
            end
      end
  end.

Definition _split_headers_and_body_from_message (lines : list str)
  : gmap str str * list str :=
  split_headers_loop lines 0 lines ∅ [].

(** [TuiMailApp._truncate] has the body of the client's [_truncate] and
    the default limit 200; its callers below pass the limit. *)
Definition _build_reply_prefilled_body (body_lines : list str) : list str :=
  let cleaned := drop_while (fun l => bool_decide (strip l = [])) (rstrip <$> body_lines) in
  let snippet := slice_to 5 cleaned in
  match snippet with
  | [] => [[]]
  | _ :: _ =>
      let quoted :=
        (fun l => match l with
                  | [] => lit ">"
                  | _ :: _ => lit "> " ++ _truncate l 160
                  end) <$> snippet in
      let quoted := if 5 <? len cleaned then quoted ++ [lit "> ..."] else quoted in
      [[]; []; lit "----- Original message snippet (max 5 lines) -----"] ++ quoted
  end.

(** [str(x)] for an [Optional[int]]. *)
Definition str_of_optional_int (x : option Z) : str :=
  match x with
  | None => lit "None"
  | Some n => str_of_int n
  end.

Definition _open_compose_page (app : TuiMailApp) (kind : ComposeKind) (to subject : str)
    (body_lines : option (list str)) (reply_source_id : option Z) (reply_all : bool)
  : M TuiMailApp :=
  let app :=
    match mode app with
    | mode_compose => app
    | _ => set_prev_mode_before_compose (mode app) app
    end in
  let app := set_mode mode_compose app in
  let app :=
    set_compose
      {| compose_focus := match kind with kind_reply => 2 | kind_new => 0 end;
         compose_kind := kind;
         compose_reply_all := reply_all;
         compose_reply_source_id := reply_source_id;
         compose_to := to;
         compose_subject := subject;
         compose_body_lines :=
           match body_lines with
           | Some ((_ :: _) as l) => l
           | _ => [[]]
           end;
         compose_to_cursor := len to;
         compose_subject_cursor := len subject;
         compose_body_row := 0;
         compose_body_col := 0;
         compose_body_scroll := 0 |} app in
  match kind with
  | kind_reply =>
      _log (lit "ACTION")
           (lit "compose page opened kind=reply source_id="
            ++ str_of_optional_int reply_source_id
            ++ lit " reply_all=" ++ str_of_bool reply_all) ;;
      mret (set_status
              (lit "Composing reply. Start typing at the top of the body; "
               ++ lit "Tab moves between fields; Ctrl+S/F5 sends; Esc cancels.") app)
  | kind_new =>
      _log (lit "ACTION") (lit "compose page opened kind=new") ;;
      mret (set_status
              (lit "Composing new email. Tab moves between fields; Ctrl+S/F5 sends; Esc cancels.")
              app)
  end.

Section Reply.

(** [_build_reply_to]: the recipients of the reply, computed from the
    headers, the sender and the account; the subject does not depend on
    it, and it is kept abstract. *)
Variable _build_reply_to : TuiMailApp -> gmap str str -> bool -> str.

Definition _open_reply_compose_page (app : TuiMailApp) (reply_all : bool) : M TuiMailApp :=
  match current_message_id (message_view app) with
  | None => mret (set_status (lit "No open email available for reply.") app)
  | Some source_id =>
      let '(headers, body_lines) :=
        _split_headers_and_body_from_message (message_lines (message_view app)) in
      let to := _build_reply_to app headers reply_all in
      let subject := strip (default [] (headers !! lit "subject")) in
      let subject :=
        match subject with
        | _ :: _ =>
            if negb (startswith (lower subject) (lit "re:"))
            then lit "Re: " ++ subject
            else subject
        | [] => lit "Re:"
        end in
      let prefilled_body := _build_reply_prefilled_body body_lines in
      _open_compose_page app kind_reply to subject (Some prefilled_body)
        (Some source_id) reply_all
  end.

End Reply.

(** ** TuiMailApp: editing the body of a draft *)

(** [None] stands for an [IndexError]. *)
Definition _ensure_compose_body_valid (app : TuiMailApp) : option TuiMailApp :=
  let lines :=
    match compose_body_lines (compose app) with
    | [] => [[]]
    | (_ :: _) as l => l
    end in
  let row := Z.max 0 (Z.min (compose_body_row (compose app)) (len lines - 1)) in
  line ← index lines row ;
  let col := Z.max 0 (Z.min (compose_body_col (compose app)) (len line)) in
  Some (set_compose_body lines row col app).

(** The branches of [_edit_body] on the local variables: the lines, [row]
    and [col]; [line] is the line at the row on entry. *)
Definition edit_body_key (ch : Z) (lines : list str) (row col : Z) (line : str)
  : option (list str * Z * Z) :=
  if ch =? curses.KEY_UP then
    if 0 <? row then
      l ← index lines (row - 1) ; Some (lines, row - 1, Z.min col (len l))
    else Some (lines, row, col)
  else if ch =? curses.KEY_DOWN then
    if row + 1 <? len lines then
      l ← index lines (row + 1) ; Some (lines, row + 1, Z.min col (len l))
    else Some (lines, row, col)
  else if ch =? curses.KEY_LEFT then
    if 0 <? col then Some (lines, row, col - 1)
    else if 0 <? row then
      l ← index lines (row - 1) ; Some (lines, row - 1, len l)
    else Some (lines, row, col)
  else if ch =? curses.KEY_RIGHT then
    if col <? len line then Some (lines, row, col + 1)
    else if row + 1 <? len lines then Some (lines, row + 1, 0)
    else Some (lines, row, col)
  else if ch =? curses.KEY_HOME then Some (lines, row, 0)
  else if ch =? curses.KEY_END then Some (lines, row, len line)
  else if (ch =? curses.KEY_BACKSPACE) || (ch =? 127) || (ch =? 8) then
    if 0 <? col then
      lines' ← setitem lines row (slice_to (col - 1) line ++ slice_from col line) ;
      Some (lines', row, col - 1)
    else if 0 <? row then
      prev ← index lines (row - 1) ;
      lines' ← setitem lines (row - 1) (prev ++ line) ;
      lines'' ← delitem lines' row ;
      Some (lines'', row - 1, len prev)
    else Some (lines, row, col)
  else if ch =? curses.KEY_DC then
    if col <? len line then
      lines' ← setitem lines row (slice_to col line ++ slice_from (col + 1) line) ;
      Some (lines', row, col)
    else if row + 1 <? len lines then
      next ← index lines (row + 1) ;
      lines' ← setitem lines row (line ++ next) ;
      lines'' ← delitem lines' (row + 1) ;
      Some (lines'', row, col)
    else Some (lines, row, col)
  else if (ch =? curses.KEY_ENTER) || (ch =? 10) || (ch =? 13) then
    let left := slice_to col line in
    let right := slice_from col line in
    lines' ← setitem lines row left ;
    Some (insert_at lines' (row + 1) right, row + 1, 0)
  else if ch =? curses.KEY_NPAGE then
    let row' := Z.min (len lines - 1) (row + 10) in
    l ← index lines row' ; Some (lines, row', Z.min col (len l))
  else if ch =? curses.KEY_PPAGE then
    let row' := Z.max 0 (row - 10) in
    l ← index lines row' ; Some (lines, row', Z.min col (len l))
  else if (32 <=? ch) && (ch <=? 126) then
    lines' ← setitem lines row (slice_to col line ++ [Z.to_N ch] ++ slice_from col line) ;
    Some (lines', row, col + 1)
  else Some (lines, row, col).

Definition _edit_body (app : TuiMailApp) (ch : Z) : option TuiMailApp :=
  app ← _ensure_compose_body_valid app ;
  let row := compose_body_row (compose app) in
  let col := compose_body_col (compose app) in
  line ← index (compose_body_lines (compose app)) row ;
  let col := Z.max 0 (Z.min col (len line)) in
  '(lines, row, col) ← edit_body_key ch (compose_body_lines (compose app)) row col line ;
  let row := Z.max 0 (Z.min row (len lines - 1)) in
  l ← index lines row ;
  Some (set_compose_body lines row (Z.max 0 (Z.min col (len l))) app).

(** ** TuiMailApp: scrolling, fitting and editing one line *)

(** [l[i:j]]. *)
Definition slice_between {A} (i j : Z) (l : list A) : list A :=
  let start := slice_bound (len l) i in
  let stop := slice_bound (len l) j in
  take (stop - start) (drop start l).

(** The body that [_adjust_list_scroll], [_adjust_folder_scroll] and
    [_adjust_compose_body_scroll] share, on the cursor and the scroll
    offset of their view. *)
Definition adjust_scroll (cursor scroll usable_rows : Z) : Z :=
  let scroll :=
    if cursor <? scroll then cursor
    else if scroll + usable_rows <=? cursor then cursor - usable_rows + 1
    else scroll in
  Z.max 0 scroll.

Definition _adjust_list_scroll (app : TuiMailApp) (usable_rows : Z) : TuiMailApp :=
  let v := list_view app in
  set_list_view
    {| rows := rows v; cursor := cursor v;
       list_scroll := adjust_scroll (cursor v) (list_scroll v) usable_rows;
       raw_page_text := raw_page_text v |} app.

Definition _adjust_folder_scroll (app : TuiMailApp) (usable_rows : Z) : TuiMailApp :=
  let v := folders_view app in
  {| client := client app; default_sender := default_sender app; page := page app;
     mode := mode app; status := status app; help_visible := help_visible app;
     prev_mode_before_folders := prev_mode_before_folders app;
     prev_mode_before_compose := prev_mode_before_compose app;
     list_view := list_view app; message_view := message_view app;
     folders_view :=
       {| folders := folders v; folder_cursor := folder_cursor v;
          folder_scroll := adjust_scroll (folder_cursor v) (folder_scroll v) usable_rows |};
     compose := compose app |}.

Definition _adjust_compose_body_scroll (app : TuiMailApp) (usable_rows : Z) : TuiMailApp :=
  let c := compose app in
  set_compose
    {| compose_focus := compose_focus c; compose_kind := compose_kind c;
       compose_reply_all := compose_reply_all c;
       compose_reply_source_id := compose_reply_source_id c;
       compose_to := compose_to c; compose_subject := compose_subject c;
       compose_body_lines := compose_body_lines c;
       compose_to_cursor := compose_to_cursor c;
       compose_subject_cursor := compose_subject_cursor c;
       compose_body_row := compose_body_row c; compose_body_col := compose_body_col c;
       compose_body_scroll :=
         adjust_scroll (compose_body_row c) (compose_body_scroll c) usable_rows |} app.

(** The part of [text] shown in a field of [width] columns, and the index
    of its first character. *)
Definition _slice_with_cursor (text : str) (cursor width : Z) : str * Z :=
  if width <=? 1 then (slice_to (Z.max 0 width) text, 0)
  else
    let cursor := Z.max 0 (Z.min cursor (len text)) in
    if len text <=? width then (text, 0)
    else
      let start := Z.max 0 (cursor - width + 1) in
      let stop := start + width in
      if len text <? stop then
        let stop := len text in
        let start := Z.max 0 (stop - width) in
        (slice_between start stop text, start)
      else (slice_between start stop text, start).

Definition _fit (text : str) (width : Z) : str :=
  if width <=? 0 then []
  else
    let text := replace [9%N] (lit "    ") text in
    if len text <=? width then text
    else if width <=? 1 then slice_to width text
    else if width <=? 3 then slice_to width text
    else slice_to (width - 3) text ++ lit "...".

Definition _edit_single_line (text : str) (cursor : Z) (ch : Z) : str * Z :=
  let cursor := Z.max 0 (Z.min cursor (len text)) in
  if ch =? curses.KEY_LEFT then (text, Z.max 0 (cursor - 1))
  else if ch =? curses.KEY_RIGHT then (text, Z.min (len text) (cursor + 1))
  else if ch =? curses.KEY_HOME then (text, 0)
  else if ch =? curses.KEY_END then (text, len text)
  else if (ch =? curses.KEY_BACKSPACE) || (ch =? 127) || (ch =? 8) then
    if 0 <? cursor
    then (slice_to (cursor - 1) text ++ slice_from cursor text, cursor - 1)
    else (text, cursor)
  else if ch =? curses.KEY_DC then
    if cursor <? len text
    then (slice_to cursor text ++ slice_from (cursor + 1) text, cursor)
    else (text, cursor)
  else if (32 <=? ch) && (ch <=? 126)
  then (slice_to cursor text ++ [Z.to_N ch] ++ slice_from cursor text, cursor + 1)
  else (text, cursor).

Definition set_compose_focus (v : Z) (app : TuiMailApp) : TuiMailApp :=
  let c := compose app in
  set_compose
    {| compose_focus := v; compose_kind := compose_kind c;
       compose_reply_all := compose_reply_all c;
       compose_reply_source_id := compose_reply_source_id c;
       compose_to := compose_to c; compose_subject := compose_subject c;
       compose_body_lines := compose_body_lines c;
       compose_to_cursor := compose_to_cursor c;
       compose_subject_cursor := compose_subject_cursor c;
       compose_body_row := compose_body_row c; compose_body_col := compose_body_col c;
       compose_body_scroll := compose_body_scroll c |} app.

Definition _compose_focus_next (app : TuiMailApp) : TuiMailApp :=
  set_compose_focus ((compose_focus (compose app) + 1) mod 5) app.

Definition _compose_focus_prev (app : TuiMailApp) : TuiMailApp :=
  set_compose_focus ((compose_focus (compose app) - 1) mod 5) app.

(** ** HimalayaClient: listing the folders *)

(** A value that [json.loads] returns: a string, a list, a dict with its
    items in order, or a scalar (a number, [True], [False], [None]), of
    which the program reads the truth value and the text that [str]
    gives. *)
Unset Elimination Schemes.
Inductive Json :=
| JString (s : str)
| JList (items : list Json)
| JDict (items : list (str * Json))
| JScalar (truthy : bool) (text : str).
Set Elimination Schemes.

(** [bool(v)]. *)
Definition json_truthy (v : Json) : bool :=
  match v with
  | JString s => negb (bool_decide (s = []))
  | JList items => negb (bool_decide (items = []))
  | JDict items => negb (bool_decide (items = []))
  | JScalar truthy _ => truthy
  end.

(** [a or b or ...] on the results of [item.get]: the first value that is
    true; a missing key gives [None], which is false. *)
Fixpoint first_truthy (values : list (option Json)) : option Json :=
  match values with
  | [] => None
  | Some v :: rest => if json_truthy v then Some v else first_truthy rest
  | None :: rest => first_truthy rest
  end.

(** [s.split(sep)] on a one-character separator; [cur] is the part being
    read. *)
Fixpoint split_on (sep : N) (cur : str) (s : str) : list str :=
  match s with
  | [] => [cur]
  | c :: t => if (c =? sep)%N then cur :: split_on sep [] t
              else split_on sep (cur ++ [c]) t
  end.

(** [re.split(r"\s{2,}", s, maxsplit=1)]: the text before the first run of
    two or more white-space characters, and the text after that run when
    there is one. *)
Fixpoint split_on_gap (s : str) : str * option str :=
  match s with
  | [] => ([], None)
  | a :: t =>
      match t with
      | b :: _ =>
          if isspace a && isspace b then ([], Some (drop_while isspace t))
          else let r := split_on_gap t in (a :: r.1, r.2)
      | [] => ([a], None)
      end
  end.

Definition skip_names : list str :=
  [[]; lit "name"; lit "desc"; lit "description"; lit "folder"; lit "folders"].

(** The body of the loop of [_parse_folders_plain], for one line. *)
Definition parse_folder_line (line : str) : list FolderRow.t :=
  let clean := strip line in
  match clean with
  | [] => []
  | _ :: _ =>
      if startswith clean (lit "+") || startswith clean (lit "-")
         || startswith clean (lit "=") then []
      else
        let low := lower clean in
        if startswith low (lit "warn ") || startswith low (lit "error:") then []
        else
          let cells : str * str :=
            if contains (lit "|") clean then
              let parts := strip <$> split_on 124 [] clean in
              match filter (fun cell => cell ≠ []) parts with
              | [] => ([], [])
              | name :: rest => (name, match rest with d :: _ => d | [] => [] end)
              end
            else
              let chunks := split_on_gap clean in
              (strip chunks.1, match chunks.2 with Some d => strip d | None => [] end) in
          match cells.1 with
          | [] => []
          | _ :: _ =>
              if decide (lower cells.1 ∈ skip_names) then []
              else [FolderRow.mk cells.1 cells.2]
          end
  end.

Definition _parse_folders_plain (raw : str) : list FolderRow.t :=
  flat_map parse_folder_line (splitlines raw).

Section Folders.

Variable backend : Backend.

(** [json.loads]: the value, or the text of the exception. *)
Variable json_loads : str -> str + Json.

(** [str(v)] for a list or a dict. *)
Variable json_repr : Json -> str.

(** [str(v)]. *)
Definition json_str (v : Json) : str :=
  match v with
  | JString s => s
  | JScalar _ text => text
  | _ => json_repr v
  end.

(** [str(a or b or ... or "")]. *)
Definition str_of_first (values : list (option Json)) : str :=
  match first_truthy values with
  | Some v => json_str v
  | None => []
  end.

(** The body of the loop of [_parse_folders_json], for one item. *)
Definition parse_folder_item (item : Json) : list FolderRow.t :=
  match item with
  | JString s =>
      match strip s with
      | [] => []
      | (_ :: _) as name => [FolderRow.mk name []]
      end
  | JDict d =>
      match strip (str_of_first [dict_get (lit "name") d; dict_get (lit "folder") d;
                                 dict_get (lit "path") d; dict_get (lit "id") d]) with
      | [] => []
      | (_ :: _) as name =>
          [FolderRow.mk name
             (strip (str_of_first [dict_get (lit "desc") d;
                                   dict_get (lit "description") d]))]
      end
  | _ => []
  end.

Definition _parse_folders_json (raw : str) : M (list FolderRow.t) :=
  match json_loads raw with
  | inl err =>
      _log (lit "WARN") (lit "cannot parse folders json err=" ++ err) ;;
      mret []
  | inr data =>
      let items :=
        match data with
        | JDict d =>
            match dict_get (lit "folders") d with
            | Some (JList l) => JList l
            | _ =>
                match dict_get (lit "data") d with
                | Some (JList l) => JList l
                | _ => JList []
                end
            end
        | _ => data
        end in
      match items with
      | JList l => mret (flat_map parse_folder_item l)
      | _ => mret []
      end
  end.





(** ** TuiMailApp: the folders page *)








End Folders.

(** ** TuiMailApp: the message list *)

Section ListPage.

Variable backend : Backend.

(** [_confirm_modal]: what the user answers in the blocking dialog, given
    its title and its prompt; [false] as well when there is no screen. *)
Variable _confirm_modal : str -> str -> bool.






End ListPage.

(** ** TuiMailApp: sending a draft *)

Definition _is_missing_sender_error (text : str) : bool :=
  contains (lit "cannot send message without a sender") (lower text).




Section ComposePage.

Variable backend : Backend.

(** [_prompt_text_modal]: what the user types in the blocking dialog,
    trimmed, given its title, its prompt and the longest text allowed;
    [None] when the dialog is left with Esc or there is no screen. *)
Variable _prompt_text_modal : str -> str -> Z -> option str.

(** The values of [getattr(curses, "KEY_TAB", 9)],
    [getattr(curses, "KEY_BTAB", 353)], [getattr(curses, "KEY_F5", -1)]
    and [getattr(curses, "KEY_F1", -1)]. *)
Variables key_tab key_btab key_f5 key_f1 : Z.

(** The last statements of [_send_composed_email], once a send has
    returned [result]. *)
Definition send_done (app : TuiMailApp) (result : str) : M (bool * str * TuiMailApp) :=
  let msg :=
    match strip result with
    | [] => lit "Email sent."
    | (_ :: _) as text => text
    end in
  _log (lit "ACTION") (lit "compose send done status=" ++ _truncate msg 200) ;;
  mret (true, msg, app).

(** The return of [_send_composed_email] when no sender is given. *)
Definition send_canceled (app : TuiMailApp) : M (bool * str * TuiMailApp) :=
  _log (lit "ACTION") (lit "compose canceled after missing sender prompt") ;;
  mret (false, lit "Send canceled: sender was not provided.", app).

(** The result of [_send_composed_email] with the state it leaves. *)
Definition _send_composed_email (app : TuiMailApp) (to subject body : str)
  : M (bool * str * TuiMailApp) :=
  r ← attempt (compose_message backend (client app) to subject body (default_sender app)) ;
  match r with
  | Return result => send_done app result
  | Raise err =>
      if negb (_is_missing_sender_error (message err)) then
        _log (lit "ERR") (lit "compose send error err=" ++ message err) ;;
        mret (false, lit "Send error: " ++ message err, app)
      else
        _log (lit "WARN") (lit "compose failed due to missing sender; prompting From") ;;
        match _prompt_text_modal (lit "SENDER (FROM)")
                (lit "Enter sender. Example: Name <email@domain>:") 320 with
        | None => send_canceled app
        | Some sender =>
            match strip sender with
            | [] => send_canceled app
            | (_ :: _) as trimmed =>
                let app := set_default_sender trimmed app in
                app ← _show_loading app (lit "Retrying send with sender...") ;
                r2 ← attempt (compose_message backend (client app) to subject body
                                (default_sender app)) ;
                match r2 with
                | Raise err2 =>
                    _log (lit "ERR") (lit "compose resend error err=" ++ message err2) ;;
                    mret (false, lit "Send error: " ++ message err2, app)
                | Return result => send_done app result
                end
            end
        end
  end.




End ComposePage.

(** ** TuiMailApp: the recipients of a reply *)

Definition _split_addresses (raw : str) : list str :=
  match strip raw with
  | [] => []
  | _ :: _ =>
      filter (fun part => part ≠ [])
             (strip <$> split_on 44 [] (replace [59%N] [44%N] raw))
  end.

Section ReplyTo.

(** [_address_key]: the address that identifies a recipient, found with
    two regular expressions, lower-cased, or the empty string; it is kept
    abstract. *)
Variable _address_key : str -> str.

(** The set [own] of [_build_reply_to]. *)
Definition own_keys (app : TuiMailApp) : gset str :=
  let own : gset str :=
    match _address_key (default_sender app) with
    | [] => ∅
    | (_ :: _) as own_sender_key => {[ own_sender_key ]}
    end in
  match _address_key (account (client app)) with
  | [] => own
  | (_ :: _) as own_account_key => {[ own_account_key ]} ∪ own
  end.

(** The body of the inner loop of [_build_reply_to], on the local
    variables [recipients] and [seen]. *)
Definition reply_all_step (own : gset str) (st : list str * gset str) (part : str)
  : list str * gset str :=
  let key := _address_key part in
  match key with
  | [] => st
  | _ :: _ =>
      if decide (key ∈ own ∨ key ∈ st.2) then st
      else (st.1 ++ [strip part], {[ key ]} ∪ st.2)
  end.

(** [headers.get("reply-to") or headers.get("from") or ""]. *)
Definition reply_sender (headers : gmap str str) : str :=
  str_or (default [] (headers !! lit "reply-to"))
         (str_or (default [] (headers !! lit "from")) []).

(** The parts that the two loops of [_build_reply_to] visit, in order. *)
Definition reply_all_parts (headers : gmap str str) : list str :=
  flat_map _split_addresses
    [reply_sender headers; default [] (headers !! lit "to");
     default [] (headers !! lit "cc")].

(** [recipients] when the loops of [_build_reply_to] are over. *)
Definition reply_all_recipients (app : TuiMailApp) (headers : gmap str str) : list str :=
  (fold_left (reply_all_step (own_keys app)) (reply_all_parts headers) ([], ∅)).1.

Definition _build_reply_to (app : TuiMailApp) (headers : gmap str str) (reply_all : bool)
  : str :=
  let sender := reply_sender headers in
  if negb reply_all then strip sender
  else
    match reply_all_recipients app headers with
    | [] => strip sender
    | (_ :: _) as recipients => join (lit ", ") recipients
    end.

End ReplyTo.

(** ** TuiMailApp: the dialog that asks for an account number *)

(** [curses.KEY_RESIZE] (ncurses value). *)
Definition KEY_RESIZE : Z := 410.

(** [int(s)] for a text of ASCII digits, which is all that the dialog
    builds; [None] stands for the [ValueError] of the empty text and of
    a text that is no number. *)
Definition int_of_str (s : str) : option Z :=
  match s with
  | [] => None
  | _ :: _ => if forallb isdigit s then Some (int_of_digits s) else None
  end.

(** Where a blocking dialog stands when the keys read so far are used up:
    still open, with the text and the error it shows, or closed with an
    answer. *)
Inductive Dialog (A : Type) : Type :=
| Waiting (value error : str)
| Closed (answer : A).
Arguments Waiting {A} value error.
Arguments Closed {A} answer.

(** The loop of [_prompt_account_number_modal] on the keys that
    [self.stdscr.getch()] returns, one for each turn; what is drawn is
    left out.  [None] stands for an [IndexError]. *)
Fixpoint account_number_loop (keys : list Z) (accounts : list str) (value error : str)
  : M (option (Dialog (option str))) :=
  match keys with
  | [] => mret (Some (Waiting value error))
  | ch :: keys =>
      if ch =? 27 then
        _log (lit "ACTION") (lit "account number modal canceled") ;;
        mret (Some (Closed None))
      else if (ch =? curses.KEY_ENTER) || (ch =? 10) || (ch =? 13) then
        match value with
        | [] => account_number_loop keys accounts value (lit "Enter a number from the list.")
        | _ :: _ =>
            match int_of_str value with
            | None => account_number_loop keys accounts [] (lit "Invalid number.")
            | Some selected =>
                if selected =? 0 then
                  _log (lit "ACTION") (lit "account number modal selected default") ;;
                  mret (Some (Closed (Some [])))
                else if (1 <=? selected) && (selected <=? len accounts) then
                  match index accounts (selected - 1) with
                  | None => mret None
                  | Some chosen =>
                      _log (lit "ACTION") (lit "account number modal selected=" ++ chosen) ;;
                      mret (Some (Closed (Some chosen)))
                  end
                else
                  account_number_loop keys accounts []
                    (lit "Invalid number. Choose 0 to " ++ str_of_int (len accounts)
                     ++ lit ".")
            end
        end
      else if (ch =? curses.KEY_BACKSPACE) || (ch =? 127) || (ch =? 8) then
        account_number_loop keys accounts (slice_to (-1) value) []
      else if ch =? KEY_RESIZE then account_number_loop keys accounts value error
      else if (48 <=? ch) && (ch <=? 57) && (len value <? 4) then
        account_number_loop keys accounts (value ++ [Z.to_N ch]) []
      else account_number_loop keys accounts value error
  end.

(** [_prompt_account_number_modal] with a screen, on the keys typed. *)
Definition account_number_modal (keys : list Z) (accounts : list str)
    (default_account : str) : M (option (Dialog (option str))) :=
  _log (lit "ACTION") (lit "account number modal open") ;;
  account_number_loop keys accounts [] [].

(** ** Specifications used by the theorems *)

(** "Leading integer then white space": optional white space, a non-empty
    run of digits whose value is [n], one white-space character. *)
Definition leading_int_then_space (text : str) (n : Z) : Prop :=
  ∃ ws ds sp rest,
    text = ws ++ ds ++ sp :: rest
    ∧ forallb isspace ws = true
    ∧ ds ≠ [] ∧ forallb isdigit ds = true
    ∧ isspace sp = true
    ∧ n = int_of_digits ds.

(** "Bar-delimited integer as first cell": optional white space, a bar, a
    non-empty run of digits of value [n] with optional white space around
    it, a bar. *)
Definition bar_delimited_int (text : str) (n : Z) : Prop :=
  ∃ ws b ws1 ds ws2 b' rest,
    text = ws ++ b :: ws1 ++ ds ++ ws2 ++ b' :: rest
    ∧ forallb isspace ws = true ∧ isbar b = true
    ∧ forallb isspace ws1 = true
    ∧ ds ≠ [] ∧ forallb isdigit ds = true
    ∧ forallb isspace ws2 = true ∧ isbar b' = true
    ∧ n = int_of_digits ds.

Definition recognized (text : str) (n : Z) : Prop :=
  leading_int_then_space text n ∨ bar_delimited_int text n.


(** De-duplication by [key] as the specification words it: an entry is
    kept when no earlier entry has its key, and the kept entries stay in
    the order of the input. *)
Fixpoint first_occurrences {A} (key : A -> str) (l : list A) : list A :=
  match l with
  | [] => []
  | x :: t => x :: filter (fun y => key y ≠ key x) (first_occurrences key t)
  end.

(** The key of a folder row: its name, case-insensitively. *)
Definition folder_key (row : FolderRow.t) : str := lower (FolderRow.name row).

(** The rows handed to [_normalize_folders] with their fields trimmed,
    nameless rows left out. *)
Definition trimmed_folders (rows : list FolderRow.t) : list FolderRow.t :=
  filter (fun row => FolderRow.name row ≠ [])
    ((fun row => FolderRow.mk (strip (FolderRow.name row)) (strip (FolderRow.desc row)))
       <$> rows).



(** The loop that [_normalize_folders] and [list_accounts_from_config]
    share, on the entries that have a name: append unless the key was
    seen. *)
Definition seen_step {A} (key : A -> str) (st : list A * gset str) (x : A)
  : list A * gset str :=
  if decide (key x ∈ st.2) then st else (st.1 ++ [x], {[ key x ]} ∪ st.2).

(** The two ways a command is run: [_run] when nothing is written to the
    standard input, [_run_with_stdin] otherwise. *)
Definition adapter_run (backend : Backend) (cmd : list str) (stdin : option str) : M str :=
  match stdin with
  | None => _run backend cmd
  | Some raw_input => _run_with_stdin backend cmd raw_input
  end.


(** A world in which nothing has happened yet. *)
Definition fresh_world : World := {| calls := []; logged := [] |}.

(** The world once a process has answered and the two [CMD] entries are
    logged. *)
Definition after_process (backend : Backend) (first_entry : str) (call : Call)
    (w : World) : World :=
  let proc := backend (calls w) call in
  {| calls := calls w ++ [call];
     logged := logged w
               ++ [(lit "CMD", first_entry);
                   (lit "CMD",
                    lit "rc=" ++ str_of_int (returncode proc)
                    ++ lit " stdout_len=" ++ str_of_int (len (_sanitize_output (stdout proc)))
                    ++ lit " stderr_len=" ++ str_of_int (len (_sanitize_output (stderr proc))))] |}.

(** Scripted backends and a client for the examples. *)
Definition answer_always (proc : CompletedProcess) : Backend := fun _ _ => proc.

(** A binary that sends the message, says so, and exits with status 1. *)
Definition soft_success_backend : Backend :=
  answer_always {| returncode := 1; stdout := lit "Message successfully sent!";
                   stderr := lit "warning: something else went wrong" |}.


(** A server without a Trash folder: deleting fails, flagging works. *)
Definition trashless_backend : Backend := fun _ call =>
  if bool_decide (lit "delete" ∈ argv call)
  then {| returncode := 1; stdout := [];
          stderr := lit "Error: cannot move IMAP message: no folder Trash" |}
  else {| returncode := 0; stdout := lit "Flag(s) deleted successfully added!";
          stderr := [] |}.

(** A binary that fails every command with the same 401 characters. *)
Definition verbose_failure_backend : Backend :=
  answer_always {| returncode := 1; stdout := []; stderr := repeat 120%N 401 |}.

(** A binary that cannot reach the server. *)
Definition offline_backend : Backend :=
  answer_always {| returncode := 1; stdout := [];
                   stderr := lit "Error: cannot connect to IMAP server" |}.

Definition example_client : HimalayaClient :=
  {| binary := lit "himalaya"; account := []; folder := lit "INBOX";
     page_size := 20; preview_read := false |}.

(** The invariant of the body editor: there is a line, the row indexes
    the lines, and the column lies within the line at that row. *)
Definition body_cursor_valid (app : TuiMailApp) : Prop :=
  let c := compose app in
  compose_body_lines c ≠ []
  ∧ 0 <= compose_body_row c
  ∧ compose_body_row c < len (compose_body_lines c)
  ∧ ∃ line, index (compose_body_lines c) (compose_body_row c) = Some line
            ∧ 0 <= compose_body_col c <= len line.

(** The subject of the message on screen: its [Subject] header, trimmed,
    and the empty string when there is none. *)
Definition original_subject (app : TuiMailApp) : str :=
  strip (default []
           ((_split_headers_and_body_from_message (message_lines (message_view app))).1
              !! lit "subject")).

(** An application that shows the message [lines], opened from the list
    as message 7. *)
Definition showing_message (lines : list str) : TuiMailApp :=
  {| client := example_client; default_sender := lit "me@example.org"; page := 1;
     mode := mode_message; status := []; help_visible := false;
     prev_mode_before_folders := mode_list; prev_mode_before_compose := mode_list;
     list_view := {| rows := []; cursor := 0; list_scroll := 0; raw_page_text := [] |};
     message_view := {| message_lines := lines; message_scroll := 0;
                        message_title := lit "Email 7"; current_message_id := Some 7 |};
     folders_view := {| folders := []; folder_cursor := 0; folder_scroll := 0 |};
     compose := {| compose_focus := 0; compose_kind := kind_new;
                   compose_reply_all := false; compose_reply_source_id := None;
                   compose_to := []; compose_subject := []; compose_body_lines := [[]];
                   compose_to_cursor := 0; compose_subject_cursor := 0;
                   compose_body_row := 0; compose_body_col := 0;
                   compose_body_scroll := 0 |} |}.

(** A stand-in for [_build_reply_to]: the sender of the message. *)
Definition reply_to_sender (app : TuiMailApp) (headers : gmap str str) (reply_all : bool)
  : str :=
  strip (default [] (headers !! lit "from")).

(** A configuration with two accounts, [home] being the default one. *)
Definition two_accounts : Candidates :=
  [(lit "/home/user/.config/himalaya/config.toml",
    Parsed (Some [(lit "work", IsTable {| email := Some (lit "me@work.example");
                                          default_is_true := false |});
                  (lit "home", IsTable {| email := Some (lit "me@home.example");
                                          default_is_true := true |})]))].

(** The user types 1 and Enter in the dialog: the first account listed. *)
Definition choose_first (accounts : list str) (default_account : str) : option str :=
  head accounts.

(** An application on page 3 of the folder [Archive] of the account
    [home]. *)
Definition browsing_archive : TuiMailApp :=
  {| client := {| binary := lit "himalaya"; account := lit "home";
                  folder := lit "Archive"; page_size := 20; preview_read := false |};
     default_sender := lit "me@home.example"; page := 3;
     mode := mode_list; status := []; help_visible := false;
     prev_mode_before_folders := mode_list; prev_mode_before_compose := mode_list;
     list_view := {| rows := []; cursor := 0; list_scroll := 0; raw_page_text := [] |};
     message_view := {| message_lines := []; message_scroll := 0;
                        message_title := []; current_message_id := None |};
     folders_view := {| folders := []; folder_cursor := 0; folder_scroll := 0 |};
     compose := {| compose_focus := 0; compose_kind := kind_new;
                   compose_reply_all := false; compose_reply_source_id := None;
                   compose_to := []; compose_subject := []; compose_body_lines := [[]];
                   compose_to_cursor := 0; compose_subject_cursor := 0;
                   compose_body_row := 0; compose_body_col := 0;
                   compose_body_scroll := 0 |} |}.

(** [a <= b] on sort keys: [b] is not strictly below [a]. *)
Definition key_le (a b : Z * str) : Prop := key_lt b a = false.

(** [l] is in the order of the keys that [key] gives. *)
Definition key_sorted {A} (key : A -> Z * str) (l : list A) : Prop :=
  StronglySorted (fun a b => key_le (key a) (key b)) l.

(** The rows are in the order of [folder_sort_key]: INBOX first, then
    case-insensitive alphabetical. *)
Definition inbox_then_alphabetical (rows : list FolderRow.t) : Prop :=
  key_sorted folder_sort_key rows.

(** The rows are in case-insensitive alphabetical order of their names. *)
Definition alphabetical (rows : list FolderRow.t) : Prop :=
  StronglySorted (fun a b => str_lt (folder_key b) (folder_key a) = false) rows.

(** [needle] occurs in [hay]. *)
Definition substring (needle hay : str) : Prop :=
  ∃ before after, hay = before ++ needle ++ after.

(** The text of an error says that the Trash folder is absent. *)
Definition trash_absent (text : str) : Prop :=
  substring (lit "no folder trash") (lower text)
  ∨ (substring (lit "trash") (lower text)
     ∧ substring (lit "cannot move imap message") (lower text)).

(** ** Further specifications *)

(** The body of a message as [compose_message] sends it. *)
Definition normalized_body (body : str) : str :=
  replace [10%N] [13%N; 10%N]
    (replace [13%N] [10%N] (replace [13%N; 10%N] [10%N] body)).

(** Every line ending of the text is a carriage return followed by a line
    feed: no line feed and no carriage return stands alone. *)
Fixpoint crlf_only (s : str) : bool :=
  match s with
  | [] => true
  | c :: t =>
      if (c =? 13)%N then
        match t with
        | c' :: t' => (c' =? 10)%N && crlf_only t'
        | [] => false
        end
      else negb (c =? 10)%N && crlf_only t
  end.

(** A backend whose IMAP server accepts the message and rejects the copy. *)
Definition copy_failure_backend : Backend :=
  answer_always
    {| returncode := 1; stdout := [];
       stderr := lit "Error: cannot add IMAP message: cannot resolve IMAP task: folder doesn't exist" |}.

(** A backend that answers every command with the same listing. *)
Definition listing_backend : Backend :=
  answer_always
    {| returncode := 0;
       stdout := lit "  7  Hello" ++ [10%N] ++ lit "unexpected argument '--quiet'";
       stderr := [] |}.

(** The default account of a scan, when there is one, is among the
    accounts of the scan and is the trimmed name of an entry flagged
    [default = true] in a configuration file. *)
Definition scan_default_listed (paths : Candidates) (st : AccountScan) : Prop :=
  scan_default_account st = []
  ∨ (scan_default_account st ∈ scan_accounts st
     ∧ ∃ path raw entry,
         (path, Parsed (Some raw)) ∈ paths ∧ entry ∈ raw
         ∧ strip entry.1 = scan_default_account st
         ∧ is_default_entry entry = true).

(** The source path of a scan, when there is one, is a configuration file
    with an [accounts] mapping. *)
Definition scan_source_parsed (paths : Candidates) (st : AccountScan) : Prop :=
  scan_source_path st = []
  ∨ ∃ raw, (scan_source_path st, Parsed (Some raw)) ∈ paths.

(** What every folder row that a parser returns satisfies: a name that
    is not empty, and a name and a description without white space at
    their ends. *)
Definition folder_row_trimmed (row : FolderRow.t) : Prop :=
  FolderRow.name row ≠ []
  ∧ strip (FolderRow.name row) = FolderRow.name row
  ∧ strip (FolderRow.desc row) = FolderRow.desc row.









(** * Proofs *)

(** * Facts about the built-ins *)

Section PyFacts.

Context {A : Type}.
Implicit Types (p : A -> bool) (l : list A).

Lemma take_drop_while p l : take_while p l ++ drop_while p l = l.
Proof. induction l as [|x t IH]; simpl; [done|]. destruct (p x); simpl; congruence. Qed.

Lemma take_while_all p l : forallb p (take_while p l) = true.
Proof. induction l as [|x t IH]; simpl; [done|]. destruct (p x) eqn:E; simpl; [by rewrite E|done]. Qed.

Lemma drop_while_app p l x r :
  forallb p l = true -> p x = false -> drop_while p (l ++ x :: r) = x :: r.
Proof.
  induction l as [|y t IH]; simpl; intros Hl Hx; [by rewrite Hx|].
  apply andb_true_iff in Hl as [Hy Ht]. rewrite Hy. auto.
Qed.

Lemma take_while_app p l x r :
  forallb p l = true -> p x = false -> take_while p (l ++ x :: r) = l.
Proof.
  induction l as [|y t IH]; simpl; intros Hl Hx; [by rewrite Hx|].
  apply andb_true_iff in Hl as [Hy Ht]. rewrite Hy. f_equal. auto.
Qed.

Lemma drop_while_head p l x r : drop_while p l = x :: r -> p x = false.
Proof.
  induction l as [|y t IH]; simpl; [done|]. destruct (p y) eqn:E; [done|].
  intros [= -> ->]. done.
Qed.

Lemma drop_while_all p l : forallb p l = true -> drop_while p l = [].
Proof.
  induction l as [|y t IH]; simpl; [done|]. intros [Hy Ht]%andb_true_iff.
  rewrite Hy. auto.
Qed.

Lemma drop_while_idemp p l : drop_while p (drop_while p l) = drop_while p l.
Proof.
  induction l as [|y t IH]; simpl; [done|]. destruct (p y) eqn:E; [done|].
  simpl. by rewrite E.
Qed.

End PyFacts.

Lemma startswith_spec (s p : str) : startswith s p = true <-> ∃ t, s = p ++ t.
Proof.
  revert s. induction p as [|a p IH]; intros s; simpl.
  - split; [eauto|done].
  - destruct s as [|b s]; [split; [done|intros [t Ht]; done]|].
    rewrite andb_true_iff, N.eqb_eq, IH. split.
    + intros [-> [t ->]]. eauto.
    + intros [t [= -> ->]]. eauto.
Qed.

Lemma contains_spec (needle hay : str) :
  contains needle hay = true <-> substring needle hay.
Proof.
  unfold substring. induction hay as [|c t IH]; simpl.
  - rewrite orb_false_r, startswith_spec. split.
    + intros [u Hu]. exists [], u. done.
    + intros [b [a Hba]]. symmetry in Hba.
      apply app_eq_nil in Hba as [-> Hba]. apply app_eq_nil in Hba as [-> ->].
      exists []. done.
  - rewrite orb_true_iff, startswith_spec, IH. split.
    + intros [[u Hu]|[b [a Hba]]].
      * exists [], u. done.
      * exists (c :: b), a. simpl. congruence.
    + intros [b [a Hba]]. destruct b as [|c' b]; simpl in Hba.
      * left. eauto.
      * right. injection Hba as -> ->. eauto.
Qed.

(** * Envelope rows *)

Ltac class_facts :=
  unfold isspace, isdigit, isbar in *;
  repeat match goal with
         | H : context [_ && _ = true] |- _ => rewrite andb_true_iff in H
         | H : context [_ || _ = true] |- _ => rewrite orb_true_iff in H
         | H : context [(_ <=? _)%N = true] |- _ => rewrite N.leb_le in H
         | H : context [(_ =? _)%N = true] |- _ => rewrite N.eqb_eq in H
         end.

Lemma isdigit_not_space c : isdigit c = true -> isspace c = false.
Proof. intros H. destruct (isspace c) eqn:E; [|done]. exfalso. class_facts. lia. Qed.

Lemma isspace_not_digit c : isspace c = true -> isdigit c = false.
Proof. intros H. destruct (isdigit c) eqn:E; [|done]. exfalso. class_facts. lia. Qed.

Lemma isbar_not_space c : isbar c = true -> isspace c = false.
Proof. intros H. destruct (isspace c) eqn:E; [|done]. exfalso. class_facts. lia. Qed.

Lemma isbar_not_digit c : isbar c = true -> isdigit c = false.
Proof. intros H. destruct (isdigit c) eqn:E; [|done]. exfalso. class_facts. lia. Qed.

Lemma match_leading_int_spec (s ds : str) :
  match_leading_int s = Some ds <->
  ∃ ws sp rest, s = ws ++ ds ++ sp :: rest ∧ forallb isspace ws = true
                ∧ ds ≠ [] ∧ forallb isdigit ds = true ∧ isspace sp = true.
Proof.
  unfold match_leading_int. split.
  - pose proof (take_drop_while isspace s) as Hs.
    pose proof (take_drop_while isdigit (drop_while isspace s)) as Hd.
    pose proof (take_while_all isdigit (drop_while isspace s)) as Hall.
    destruct (take_while isdigit (drop_while isspace s)) as [|d ds'] eqn:Eds; [done|].
    destruct (drop_while isdigit (drop_while isspace s)) as [|c r] eqn:Er; [done|].
    destruct (isspace c) eqn:Ec; [|done]. intros [= <-].
    exists (take_while isspace s), c, r. rewrite Hd, Hs.
    split_and!; auto using take_while_all.
  - intros (ws & sp & rest & -> & Hws & Hne & Hds & Hsp).
    destruct ds as [|d ds']; [done|]. clear Hne.
    assert (isspace d = false) as Hd.
    { apply isdigit_not_space. simpl in Hds. by apply andb_true_iff in Hds as [? _]. }
    rewrite <- app_comm_cons, (drop_while_app isspace ws d) by done.
    rewrite app_comm_cons.
    rewrite take_while_app, drop_while_app by auto using isspace_not_digit.
    by rewrite Hsp.
Qed.

Lemma match_bar_int_spec (s ds : str) :
  match_bar_int s = Some ds <->
  ∃ ws b ws1 ws2 b' rest,
    s = ws ++ b :: ws1 ++ ds ++ ws2 ++ b' :: rest
    ∧ forallb isspace ws = true ∧ isbar b = true ∧ forallb isspace ws1 = true
    ∧ ds ≠ [] ∧ forallb isdigit ds = true
    ∧ forallb isspace ws2 = true ∧ isbar b' = true.
Proof.
  unfold match_bar_int. split.
  - pose proof (take_drop_while isspace s) as Hs.
    destruct (drop_while isspace s) as [|b s2] eqn:Es1; [done|].
    destruct (isbar b) eqn:Eb; [|done].
    pose proof (take_drop_while isspace s2) as Hs2.
    pose proof (take_drop_while isdigit (drop_while isspace s2)) as Hd.
    pose proof (take_while_all isdigit (drop_while isspace s2)) as Hall.
    destruct (take_while isdigit (drop_while isspace s2)) as [|d ds'] eqn:Eds; [done|].
    pose proof (take_drop_while isspace (drop_while isdigit (drop_while isspace s2))) as Hs4.
    destruct (drop_while isspace (drop_while isdigit (drop_while isspace s2)))
      as [|b' r] eqn:Er; [done|].
    destruct (isbar b') eqn:Eb'; [|done]. intros [= <-].
    exists (take_while isspace s), b, (take_while isspace s2),
      (take_while isspace (drop_while isdigit (drop_while isspace s2))), b', r.
    rewrite Hs4, Hd, Hs2, Hs. split_and!; auto using take_while_all.
  - intros (ws & b & ws1 & ws2 & b' & rest & -> & Hws & Hb & Hws1 & Hne & Hds & Hws2 & Hb').
    destruct ds as [|d ds']; [done|]. clear Hne.
    assert (isspace d = false) as Hd.
    { apply isdigit_not_space. simpl in Hds. by apply andb_true_iff in Hds as [? _]. }
    rewrite drop_while_app by auto using isbar_not_space. rewrite Hb.
    rewrite <- app_comm_cons, (drop_while_app isspace ws1 d) by done.
    rewrite app_comm_cons.
    destruct ws2 as [|w ws2'].
    + rewrite app_nil_l.
      rewrite take_while_app, drop_while_app by auto using isbar_not_digit.
      simpl. rewrite (isbar_not_space b') by done. by rewrite Hb'.
    + simpl in Hws2. apply andb_true_iff in Hws2 as [Hw Hws2].
      rewrite <- (app_comm_cons ws2').
      rewrite take_while_app, drop_while_app by auto using isspace_not_digit.
      rewrite app_comm_cons.
      rewrite drop_while_app; [by rewrite Hb'|simpl; by rewrite Hw|auto using isbar_not_space].
Qed.

Lemma leading_int_iff (text : str) (n : Z) :
  leading_int_then_space text n <->
  ∃ ds, match_leading_int text = Some ds ∧ n = int_of_digits ds.
Proof.
  unfold leading_int_then_space. split.
  - intros (ws & ds & sp & rest & H & ? & ? & ? & ? & ->). exists ds. split; [|done].
    apply match_leading_int_spec. by exists ws, sp, rest.
  - intros (ds & (ws & sp & rest & ? & ? & ? & ? & ?)%match_leading_int_spec & ->).
    exists ws, ds, sp, rest. by split_and!.
Qed.

Lemma bar_delimited_iff (text : str) (n : Z) :
  bar_delimited_int text n <->
  ∃ ds, match_bar_int text = Some ds ∧ n = int_of_digits ds.
Proof.
  unfold bar_delimited_int. split.
  - intros (ws & b & ws1 & ds & ws2 & b' & rest & H & ? & ? & ? & ? & ? & ? & ? & ->).
    exists ds. split; [|done].
    apply match_bar_int_spec. by exists ws, b, ws1, ws2, b', rest.
  - intros (ds & (ws & b & ws1 & ws2 & b' & rest & ? & ? & ? & ? & ? & ? & ? & ?)%match_bar_int_spec
            & ->).
    exists ws, b, ws1, ds, ws2, b', rest. by split_and!.
Qed.

Lemma matchers_exclusive (text ds ds' : str) :
  match_leading_int text = Some ds -> match_bar_int text = Some ds' -> False.
Proof.
  unfold match_leading_int, match_bar_int.
  destruct (drop_while isspace text) as [|b s2]; [done|].
  destruct (isbar b) eqn:Eb; [|done]. simpl.
  by rewrite (isbar_not_digit b Eb).
Qed.

Lemma find_envelope_id_spec (clean : str) (n : Z) :
  find_envelope_id clean = Some n <-> recognized clean n.
Proof.
  unfold find_envelope_id, recognized. rewrite leading_int_iff, bar_delimited_iff.
  destruct (match_leading_int clean) as [ds|] eqn:E1.
  - split; [intros [= <-]; eauto|].
    intros [(ds' & [= <-] & ->)|(ds' & Hbar & _)]; [done|].
    destruct (matchers_exclusive _ _ _ E1 Hbar).
  - destruct (match_bar_int clean) as [ds|] eqn:E2.
    + split; [intros [= <-]; eauto|].
      intros [(ds' & [=] & _)|(ds' & [= <-] & ->)]. done.
    + split; [done|]. intros [(ds' & [=] & _)|(ds' & [=] & _)].
Qed.

(** The id of a recognized line is determined by the line. *)
Lemma recognized_functional (text : str) (n m : Z) :
  recognized text n -> recognized text m -> n = m.
Proof. rewrite <- !find_envelope_id_spec. congruence. Qed.



(** * De-duplication *)

Section FirstOccurrences.

Context {A : Type} (key : A -> str).

Lemma seen_loop_spec (cands acc : list A) (seen : gset str) :
  (∀ k, k ∈ seen <-> k ∈ key <$> acc) ->
  (fold_left (seen_step key) cands (acc, seen)).1
  = acc ++ filter (fun y => key y ∉ key <$> acc) (first_occurrences key cands).
Proof.
  revert acc seen. induction cands as [|x t IH]; intros acc seen Hseen; simpl.
  - by rewrite app_nil_r.
  - unfold seen_step at 2. simpl. destruct (decide (key x ∈ seen)) as [Hin|Hnin].
    + rewrite (IH acc seen Hseen). f_equal.
      rewrite filter_cons_False by (intros Hx; apply Hx, Hseen, Hin).
      rewrite list_filter_filter. apply list_filter_iff. intros y. split; [|tauto].
      intros Hy. split; [done|]. intros Heq. apply Hy. rewrite Heq. by apply Hseen.
    + rewrite (IH (acc ++ [x]) ({[ key x ]} ∪ seen)).
      2:{ intros k. rewrite fmap_app, elem_of_app, elem_of_union, elem_of_singleton, Hseen.
          simpl. rewrite list_elem_of_singleton. tauto. }
      rewrite <- app_assoc. f_equal. simpl.
      rewrite filter_cons_True by (intros Hx; apply Hnin, Hseen, Hx). f_equal.
      rewrite list_filter_filter. apply list_filter_iff. intros y.
      rewrite fmap_app, elem_of_app. simpl. rewrite list_elem_of_singleton. tauto.
Qed.

Lemma first_occurrences_sublist (l : list A) : first_occurrences key l `sublist_of` l.
Proof.
  induction l as [|x t IH]; simpl; [done|]. apply sublist_skip.
  etrans; [apply sublist_filter|done].
Qed.

Lemma first_occurrences_keys (l : list A) (x : A) :
  x ∈ l -> key x ∈ key <$> first_occurrences key l.
Proof.
  induction l as [|y t IH]; simpl; [by intros ?%elem_of_nil|].
  intros [->|Hin]%elem_of_cons; [left|].
  destruct (decide (key x = key y)) as [->|Hne]; [left|right].
  apply list_elem_of_fmap. apply IH in Hin as (z & Hz & Hzin)%list_elem_of_fmap.
  exists z. split; [done|]. apply list_elem_of_filter. split; [congruence|done].
Qed.

Lemma first_occurrences_NoDup (l : list A) : NoDup (key <$> first_occurrences key l).
Proof.
  induction l as [|x t IH]; simpl; [constructor|]. constructor.
  - intros (z & Hz & [Hne _]%list_elem_of_filter)%list_elem_of_fmap. congruence.
  - eapply sublist_NoDup; [exact IH|]. apply fmap_sublist, sublist_filter.
Qed.


End FirstOccurrences.

Lemma lower_nil (s : str) : lower s = [] <-> s = [].
Proof. by destruct s. Qed.

Lemma normalize_step_seen (st : list FolderRow.t * gset str) (rows : list FolderRow.t) :
  fold_left normalize_step rows st
  = fold_left (seen_step folder_key) (trimmed_folders rows) st.
Proof.
  revert st. induction rows as [|row rows IH]; intros st; [done|].
  simpl. unfold trimmed_folders. rewrite fmap_cons, filter_cons. simpl.
  fold (trimmed_folders rows). rewrite IH. unfold normalize_step.
  destruct (decide (strip (FolderRow.name row) ≠ [])) as [Hne|Heq].
  - simpl. f_equal. unfold seen_step, folder_key. simpl.
    by destruct (strip (FolderRow.name row)).
  - apply dec_stable in Heq. by rewrite Heq.
Qed.




Lemma case_char_eq (c d : N) :
  upper_char c = upper_char d <-> lower_char c = lower_char d.
Proof.
  unfold upper_char, lower_char.
  repeat match goal with
         | |- context [(?a <=? ?b)%N] => destruct (N.leb_spec a b)
         end; simpl; lia.
Qed.

Lemma case_eq_iff (s t : str) : upper s = upper t <-> lower s = lower t.
Proof.
  revert t. induction s as [|c s IH]; intros [|d t]; simpl; try done.
  split; intros [= Hc Hs]; f_equal;
    solve [by apply case_char_eq | by apply IH].
Qed.

Lemma is_inbox_key (row : FolderRow.t) :
  is_inbox row = true <-> folder_key row = lit "inbox".
Proof.
  unfold is_inbox, folder_key. rewrite bool_decide_eq_true.
  change (lit "INBOX") with (upper (lit "INBOX")).
  change (lit "inbox") with (lower (lit "INBOX")). apply case_eq_iff.
Qed.

Lemma insert_sorted_perm {A} (key : A -> Z * str) (x : A) (l : list A) :
  insert_sorted key x l ≡ₚ x :: l.
Proof.
  induction l as [|y t IH]; simpl; [done|].
  destruct (key_lt (key y) (key x)); [|done].
  rewrite IH. apply Permutation_swap.
Qed.

Lemma sort_by_perm {A} (key : A -> Z * str) (l : list A) : sort_by key l ≡ₚ l.
Proof.
  induction l as [|x t IH]; simpl; [done|]. by rewrite insert_sorted_perm, IH.
Qed.

Lemma filter_all {A} (P : A -> Prop) `{!∀ x, Decision (P x)} (l : list A) :
  (∀ x, P x) -> filter P l = l.
Proof.
  intros HP. induction l as [|x t IH]; [done|].
  by rewrite filter_cons_True, IH.
Qed.

Lemma normalize_unique_spec (rows : list FolderRow.t) :
  normalize_unique rows = first_occurrences folder_key (trimmed_folders rows).
Proof.
  unfold normalize_unique. rewrite normalize_step_seen, seen_loop_spec.
  - simpl. apply filter_all. intros x. apply not_elem_of_nil.
  - intros k. by rewrite elem_of_empty, fmap_nil, elem_of_nil.
Qed.

(** What [_normalize_folders] does to the de-duplicated list. *)
Lemma normalize_folders_cases (rows : list FolderRow.t) :
  (existsb is_inbox (normalize_unique rows) = true
   ∧ _normalize_folders rows ≡ₚ normalize_unique rows)
  ∨ (existsb is_inbox (normalize_unique rows) = false
     ∧ _normalize_folders rows
       = FolderRow.mk (lit "INBOX") (lit "Inbox") :: normalize_unique rows).
Proof.
  unfold _normalize_folders.
  destruct (existsb is_inbox (normalize_unique rows)); simpl; [left|right]; split; try done.
  apply sort_by_perm.
Qed.

Lemma normalize_folders_NoDup (rows : list FolderRow.t) :
  NoDup (folder_key <$> _normalize_folders rows).
Proof.
  pose proof (first_occurrences_NoDup folder_key (trimmed_folders rows)) as Hnd.
  rewrite <- normalize_unique_spec in Hnd.
  destruct (normalize_folders_cases rows) as [[_ ->]|[Hno ->]]; [done|].
  rewrite fmap_cons. constructor; [|done].
  intros (row & Hkey & Hrow)%list_elem_of_fmap.
  assert (existsb is_inbox (normalize_unique rows) = true) as Hyes; [|congruence].
  apply existsb_exists. exists row. split; [by apply list_elem_of_In|].
  apply is_inbox_key. done.
Qed.


(** * The adapter *)

Lemma drop_while_snoc {A} (p : A -> bool) (l : list A) (x : A) :
  p x = false -> drop_while p (l ++ [x]) = drop_while p l ++ [x].
Proof.
  intros Hx. induction l as [|y t IH]; simpl; [by rewrite Hx|].
  by destruct (p y).
Qed.

Lemma rstrip_cons (x : N) (r : str) :
  isspace x = false -> rstrip (x :: r) = x :: rstrip r.
Proof.
  intros Hx. unfold rstrip. simpl. rewrite drop_while_snoc by done.
  by rewrite rev_app_distr.
Qed.

Lemma rstrip_idemp (s : str) : rstrip (rstrip s) = rstrip s.
Proof. unfold rstrip. by rewrite rev_involutive, drop_while_idemp. Qed.

Lemma strip_idemp (s : str) : strip (strip s) = strip s.
Proof.
  unfold strip, lstrip. destruct (drop_while isspace s) as [|x r] eqn:E; [done|].
  pose proof (drop_while_head _ _ _ _ E) as Hx.
  rewrite rstrip_cons by done. simpl. rewrite Hx.
  by rewrite rstrip_cons, rstrip_idemp.
Qed.

Lemma sanitize_output_stripped (text : str) :
  strip (_sanitize_output text) = _sanitize_output text.
Proof. destruct text; [done|]. apply strip_idemp. Qed.

Lemma truncate_bounded (text : str) (limit : Z) :
  3 <= limit -> len (_truncate text limit) <= limit.
Proof.
  intros Hlimit. unfold _truncate. destruct (Z.leb_spec (len text) limit); [done|].
  unfold len, slice_to, slice_bound in *.
  rewrite length_app, length_take. change (length (lit "...")) with 3%nat.
  destruct (Z.ltb_spec (limit - 3) 0); lia.
Qed.

Section AdapterFacts.

Variable backend : Backend.

Lemma _run_once (cmd : list str) (w : World) :
  let call := {| argv := cmd; input := None |} in
  let proc := backend (calls w) call in
  let clean_stdout := _sanitize_output (stdout proc) in
  let clean_stderr := _sanitize_output (stderr proc) in
  let w' := after_process backend (lit "run " ++ join (lit " ") cmd) call w in
  _run backend cmd w =
  if decide (returncode proc ≠ 0 ∧ lit "--quiet" ∈ cmd
             ∧ _is_quiet_unsupported clean_stdout clean_stderr = true)
  then _run backend (_strip_quiet_arg cmd) w'
  else if negb (returncode proc =? 0) && _is_soft_success clean_stdout clean_stderr
  then (Return clean_stdout, w')
  else if negb (returncode proc =? 0) then
    let err := failure_text cmd clean_stdout clean_stderr in
    (Raise {| message := err |},
     {| calls := calls w';
        logged := logged w' ++ [(lit "ERR", lit "run failed err=" ++ _truncate err 400)] |})
  else (Return clean_stdout, w').
Proof.
  intros. rewrite _run_equation_1.
  unfold log_returncode, mbind, M_bind, subprocess_run, mret, M_ret, raise, _log.
  cbn [calls logged]. rewrite <- app_assoc. cbn [app].
  fold call proc clean_stdout clean_stderr. fold w'.
  destruct (decide _); [done|].
  destruct (negb _ && _); [done|]. destruct (negb _); done.
Qed.

Lemma _run_with_stdin_once (cmd : list str) (raw_input : str) (w : World) :
  let call := {| argv := cmd; input := Some raw_input |} in
  let proc := backend (calls w) call in
  let clean_stdout := _sanitize_output (stdout proc) in
  let clean_stderr := _sanitize_output (stderr proc) in
  let w' := after_process backend (lit "run_with_stdin " ++ join (lit " ") cmd
                           ++ lit " stdin_len=" ++ str_of_int (len raw_input)) call w in
  _run_with_stdin backend cmd raw_input w =
  if decide (returncode proc ≠ 0 ∧ lit "--quiet" ∈ cmd
             ∧ _is_quiet_unsupported clean_stdout clean_stderr = true)
  then _run_with_stdin backend (_strip_quiet_arg cmd) raw_input w'
  else if negb (returncode proc =? 0) && _is_soft_success clean_stdout clean_stderr
  then (Return clean_stdout, w')
  else if negb (returncode proc =? 0)
          && _is_send_copy_failure cmd clean_stdout clean_stderr then
    (Return send_copy_warning,
     {| calls := calls w';
        logged := logged w'
                  ++ [(lit "WARN",
                       lit "send succeeded but save-copy failed; " ++ lit "details="
                       ++ _truncate (str_or clean_stderr clean_stdout) 400)] |})
  else if negb (returncode proc =? 0) then
    let err := failure_text cmd clean_stdout clean_stderr in
    (Raise {| message := err |},
     {| calls := calls w';
        logged := logged w'
                  ++ [(lit "ERR", lit "run_with_stdin failed err=" ++ _truncate err 400)] |})
  else (Return clean_stdout, w').
Proof.
  intros. rewrite _run_with_stdin_equation_1.
  unfold log_returncode, mbind, M_bind, subprocess_run, mret, M_ret, raise, _log.
  cbn [calls logged]. rewrite <- app_assoc. cbn [app].
  fold call proc clean_stdout clean_stderr. fold w'.
  destruct (decide _); [done|].
  destruct (negb _ && _is_soft_success _ _); [done|].
  destruct (negb _ && _); [done|]. destruct (negb _); done.
Qed.


(** C2. When the process exits with a non-zero code, its output does not
    trigger the quiet-flag re-run, and its sanitized standard output and
    error, joined by a line feed, contain "successfully" in any case,
    [_run] and [_run_with_stdin] return the sanitized standard output
    instead of raising, after that single process. *)
Theorem soft_success_returns_stdout (cmd : list str) (stdin : option str) (w : World) :
  let call := {| argv := cmd; input := stdin |} in
  let proc := backend (calls w) call in
  let clean_stdout := _sanitize_output (stdout proc) in
  let clean_stderr := _sanitize_output (stderr proc) in
  returncode proc ≠ 0 ->
  ¬ (lit "--quiet" ∈ cmd ∧ _is_quiet_unsupported clean_stdout clean_stderr = true) ->
  substring (lit "successfully") (lower (clean_stdout ++ [10%N] ++ clean_stderr)) ->
  ∃ w', adapter_run backend cmd stdin w = (Return clean_stdout, w')
        ∧ calls w' = calls w ++ [call].
Proof.
  intros call proc clean_stdout clean_stderr Hrc Hquiet Hsub.
  apply contains_spec in Hsub.
  assert (negb (returncode proc =? 0) = true) as Hneg.
  { apply negb_true_iff, Z.eqb_neq, Hrc. }
  destruct stdin as [raw_input|]; simpl.
  - rewrite _run_with_stdin_once. fold call proc clean_stdout clean_stderr.
    rewrite decide_False by tauto. unfold _is_soft_success, combined_lower.
    rewrite Hneg, Hsub. simpl. eauto.
  - rewrite _run_once. fold call proc clean_stdout clean_stderr.
    rewrite decide_False by tauto. unfold _is_soft_success, combined_lower.
    rewrite Hneg, Hsub. simpl. eauto.
Qed.






(** The message of the error once the streams are sanitized: the standard
    error, else the standard output, else the generic text. *)
Lemma failure_text_sanitized (cmd : list str) (out err : str) :
  failure_text cmd (_sanitize_output out) (_sanitize_output err)
  = match _sanitize_output err, _sanitize_output out with
    | (_ :: _) as e, _ => e
    | [], (_ :: _) as o => o
    | [], [] => lit "Command failed: " ++ join (lit " ") cmd
    end.
Proof.
  unfold failure_text, str_or.
  pose proof (sanitize_output_stripped out) as Ho.
  pose proof (sanitize_output_stripped err) as He.
  destruct (_sanitize_output err) as [|e es].
  - rewrite Ho. by destruct (_sanitize_output out).
  - by rewrite He.
Qed.

(** C4, as the code has it.  When the process exits with a non-zero code
    and no reclassification applies, [_run] and [_run_with_stdin] raise a
    [HimalayaError] whose message is the sanitized standard error in full,
    the sanitized standard output in full when the standard error is
    empty, and ["Command failed: "] followed by the command when both are
    empty.  The message is not truncated: the copy cut to 400 characters
    by [_truncate] is the one written to the debug log. *)
Theorem failure_message_full_text (cmd : list str) (stdin : option str) (w : World) :
  let call := {| argv := cmd; input := stdin |} in
  let proc := backend (calls w) call in
  let clean_stdout := _sanitize_output (stdout proc) in
  let clean_stderr := _sanitize_output (stderr proc) in
  let text :=
    match clean_stderr, clean_stdout with
    | _ :: _, _ => clean_stderr
    | [], _ :: _ => clean_stdout
    | [], [] => lit "Command failed: " ++ join (lit " ") cmd
    end in
  returncode proc ≠ 0 ->
  ¬ (lit "--quiet" ∈ cmd ∧ _is_quiet_unsupported clean_stdout clean_stderr = true) ->
  _is_soft_success clean_stdout clean_stderr = false ->
  stdin = None ∨ _is_send_copy_failure cmd clean_stdout clean_stderr = false ->
  ∃ w' label,
    adapter_run backend cmd stdin w = (Raise {| message := text |}, w')
    ∧ calls w' = calls w ++ [call]
    ∧ last (logged w') = Some (lit "ERR", label ++ _truncate text 400)
    ∧ len (_truncate text 400) <= 400.
Proof.
  intros call proc clean_stdout clean_stderr text Hrc Hquiet Hsoft Hcopy.
  assert (negb (returncode proc =? 0) = true) as Hneg.
  { apply negb_true_iff, Z.eqb_neq, Hrc. }
  assert (failure_text cmd clean_stdout clean_stderr = text) as Htext.
  { unfold clean_stdout, clean_stderr, text. rewrite failure_text_sanitized.
    by destruct (_sanitize_output (stderr proc)), (_sanitize_output (stdout proc)). }
  destruct stdin as [raw_input|]; simpl.
  - destruct Hcopy as [|Hcopy]; [done|].
    rewrite _run_with_stdin_once. fold call proc clean_stdout clean_stderr.
    rewrite decide_False by tauto. rewrite Hneg, Hsoft, Hcopy. simpl. rewrite Htext.
    eexists _, (lit "run_with_stdin failed err="). split_and!; [done|done| |].
    + simpl. by rewrite last_snoc.
    + by apply truncate_bounded.
  - rewrite _run_once. fold call proc clean_stdout clean_stderr.
    rewrite decide_False by tauto. rewrite Hneg, Hsoft. simpl. rewrite Htext.
    eexists _, (lit "run failed err="). split_and!; [done|done| |].
    + simpl. by rewrite last_snoc.
    + by apply truncate_bounded.
Qed.



Lemma is_missing_trash_error_spec (text : str) :
  _is_missing_trash_error text = true <-> trash_absent text.
Proof.
  unfold _is_missing_trash_error, trash_absent.
  by rewrite orb_true_iff, andb_true_iff, !contains_spec.
Qed.

(** C3. When the delete command fails with an error whose text says that
    the Trash folder is absent, [delete_message] runs the flag-add
    ["deleted"] command once and returns its result; when that command
    fails too, it raises one error made of the words "Trash folder is
    missing and deleted-flag fallback also failed" and the text of the
    second failure.  Any other failure of the delete command is raised
    again as it is, with no further command. *)
Theorem delete_message_trash_fallback
    (self : HimalayaClient) (envelope_id : Z) (w : World)
    (err : HimalayaError) (w1 : World) :
  let started :=
    (_log (lit "ACTION") (lit "delete_message id=" ++ str_of_int envelope_id) w).2 in
  _run backend (delete_cmd self envelope_id) started = (Raise err, w1) ->
  let warned :=
    (_log (lit "WARN")
       (lit "delete_message missing trash folder, trying fallback with deleted flag id="
        ++ str_of_int envelope_id) w1).2 in
  let fallback := _run backend (delete_fallback_cmd self envelope_id) warned in
  (trash_absent (message err) ->
   delete_message backend self envelope_id w
   = (match fallback.1 with
      | Return out => Return out
      | Raise fallback_err =>
          Raise {| message := delete_fallback_failed ++ message fallback_err |}
      end, fallback.2))
  ∧ (¬ trash_absent (message err) ->
     delete_message backend self envelope_id w = (Raise err, w1))
  ∧ delete_fallback_cmd self envelope_id
    = [binary self; lit "--quiet"; lit "flag"; lit "add"; lit "--folder"; folder self;
       str_of_int envelope_id; lit "deleted"] ++ account_args self
  ∧ substring (lit "Trash folder is missing") delete_fallback_failed
  ∧ substring (lit "fallback also failed") delete_fallback_failed.
Proof.
  intros started Hfirst warned fallback.
  assert (delete_message backend self envelope_id w
          = if _is_missing_trash_error (message err)
            then (match fallback.1 with
                  | Return out => Return out
                  | Raise fallback_err =>
                      Raise {| message := delete_fallback_failed ++ message fallback_err |}
                  end, fallback.2)
            else (Raise err, w1)) as Heq.
  { unfold delete_message, mbind, M_bind, try_except.
    cbn [_log].
    change (_run backend (delete_cmd self envelope_id) _)
      with (_run backend (delete_cmd self envelope_id) started).
    rewrite Hfirst. cbn beta iota.
    destruct (_is_missing_trash_error (message err)); cbn [negb]; [|done].
    change (_run backend (delete_fallback_cmd self envelope_id) _) with fallback.
    by destruct fallback as [[out|fallback_err] w2]. }
  split_and!.
  - intros Habsent%is_missing_trash_error_spec. by rewrite Heq, Habsent.
  - intros Hother. rewrite Heq.
    destruct (_is_missing_trash_error (message err)) eqn:E; [|done].
    by apply is_missing_trash_error_spec in E.
  - done.
  - apply contains_spec. by vm_compute.
  - apply contains_spec. by vm_compute.
Qed.

End AdapterFacts.

(** ** The adapter on scripted backends *)

(** A send whose process exits with status 1 and prints "Message
    successfully sent!" returns that text. *)
Lemma soft_success_returns_stdout_witness :
  ∃ w',
    adapter_run soft_success_backend
      [lit "himalaya"; lit "--quiet"; lit "message"; lit "send"]
      (Some (compose_raw_message (lit "bob@example.org") (lit "Hello") (lit "Hi Bob") []))
      fresh_world
    = (Return (lit "Message successfully sent!"), w')
    ∧ calls w'
      = [{| argv := [lit "himalaya"; lit "--quiet"; lit "message"; lit "send"];
            input := Some (compose_raw_message (lit "bob@example.org") (lit "Hello")
                             (lit "Hi Bob") []) |}].
Proof.
  apply (soft_success_returns_stdout soft_success_backend
           [lit "himalaya"; lit "--quiet"; lit "message"; lit "send"]
           (Some (compose_raw_message (lit "bob@example.org") (lit "Hello") (lit "Hi Bob") []))
           fresh_world).
  - vm_compute. discriminate.
  - intros [_ H]. vm_compute in H. discriminate.
  - apply contains_spec. vm_compute. reflexivity.
Defined.

(** C4, as stated, fails: an error of 401 characters is raised in full,
    and it is not what [_truncate] makes of it. *)
Lemma failure_message_not_truncated :
  ∃ w',
    _run verbose_failure_backend [lit "himalaya"; lit "--quiet"; lit "folder"; lit "list"]
      fresh_world
    = (Raise {| message := repeat 120%N 401 |}, w')
    ∧ len (repeat 120%N 401) = 401
    ∧ len (_truncate (repeat 120%N 401) 400) = 400
    ∧ _truncate (repeat 120%N 401) 400 ≠ repeat 120%N 401.
Proof.
  eexists. split_and!.
  - vm_compute. reflexivity.
  - vm_compute. reflexivity.
  - vm_compute. reflexivity.
  - vm_compute. discriminate.
Qed.

Lemma failure_message_full_text_witness :
  ∃ w' label,
    adapter_run offline_backend (read_message_cmd example_client 7) None fresh_world
    = (Raise {| message := lit "Error: cannot connect to IMAP server" |}, w')
    ∧ calls w' = [{| argv := read_message_cmd example_client 7; input := None |}]
    ∧ last (logged w')
      = Some (lit "ERR", label ++ _truncate (lit "Error: cannot connect to IMAP server") 400)
    ∧ len (_truncate (lit "Error: cannot connect to IMAP server") 400) <= 400.
Proof.
  apply (failure_message_full_text offline_backend (read_message_cmd example_client 7)
           None fresh_world).
  - vm_compute. discriminate.
  - intros [_ H]. vm_compute in H. discriminate.
  - vm_compute. reflexivity.
  - left. reflexivity.
Defined.



Lemma delete_message_trash_fallback_witness :
  ∃ w',
    delete_message trashless_backend example_client 7 fresh_world
    = (Return (lit "Flag(s) deleted successfully added!"), w')
    ∧ argv <$> calls w'
      = [delete_cmd example_client 7; delete_fallback_cmd example_client 7].
Proof.
  pose (first :=
          _run trashless_backend (delete_cmd example_client 7)
            (_log (lit "ACTION") (lit "delete_message id=" ++ str_of_int 7) fresh_world).2).
  destruct (delete_message_trash_fallback trashless_backend example_client 7 fresh_world
              {| message := lit "Error: cannot move IMAP message: no folder Trash" |}
              first.2)
    as (Hfallback & _).
  - vm_compute. reflexivity.
  - eexists. rewrite Hfallback.
    + vm_compute. split; reflexivity.
    + apply is_missing_trash_error_spec. vm_compute. reflexivity.
Defined.

(** * Editing the body of a draft *)

Section Indexing.

Context {A : Type}.
Implicit Types (l : list A) (i : Z).

Lemma len_nonneg l : 0 <= len l.
Proof. unfold len. lia. Qed.

Lemma len_pos l : l ≠ [] <-> 0 < len l.
Proof. unfold len. destruct l; simpl; split; (done || lia). Qed.

Lemma index_in_range l i : 0 <= i < len l -> ∃ x, index l i = Some x.
Proof.
  intros Hi. unfold index.
  destruct (Z.ltb_spec i (- len l)); [lia|]. destruct (Z.leb_spec (len l) i); [lia|].
  destruct (Z.ltb_spec i 0); [lia|]. simpl.
  apply lookup_lt_is_Some. unfold len in *. lia.
Qed.

Lemma setitem_in_range l i v :
  0 <= i < len l -> ∃ l', setitem l i v = Some l' ∧ len l' = len l.
Proof.
  intros Hi. unfold setitem.
  destruct (Z.ltb_spec i (- len l)); [lia|]. destruct (Z.leb_spec (len l) i); [lia|].
  simpl. eexists. split; [done|]. unfold len. by rewrite length_insert.
Qed.

Lemma delitem_in_range l i :
  0 <= i < len l -> ∃ l', delitem l i = Some l' ∧ len l' = len l - 1.
Proof.
  intros Hi. unfold delitem.
  destruct (Z.ltb_spec i (- len l)); [lia|]. destruct (Z.leb_spec (len l) i); [lia|].
  destruct (Z.ltb_spec i 0); [lia|].
  simpl. eexists. split; [done|]. unfold len in *.
  rewrite length_delete; [lia|]. apply lookup_lt_is_Some. lia.
Qed.

Lemma len_insert_at l i v : len (insert_at l i v) = len l + 1.
Proof.
  unfold insert_at, len. rewrite length_app. simpl.
  rewrite length_take, length_drop. lia.
Qed.

End Indexing.

Ltac range_lia := unfold str in *; lia.

Ltac in_range_step :=
  match goal with
  | |- context [@index ?T ?l ?i] =>
      let x := fresh "x" in let H := fresh "Hx" in
      destruct (@index_in_range T l i) as [x H]; [range_lia|rewrite H; cbn [mbind option_bind]]
  | |- context [@setitem ?T ?l ?i ?v] =>
      let l' := fresh "l" in let H := fresh "Hl" in let Hlen := fresh "Hlen" in
      destruct (@setitem_in_range T l i v) as (l' & H & Hlen);
      [range_lia|rewrite H; cbn [mbind option_bind]]
  | |- context [@delitem ?T ?l ?i] =>
      let l' := fresh "l" in let H := fresh "Hl" in let Hlen := fresh "Hlen" in
      destruct (@delitem_in_range T l i) as (l' & H & Hlen);
      [range_lia|rewrite H; cbn [mbind option_bind]]
  end.

Ltac branch_step :=
  match goal with
  | |- context [if (?a =? ?b) then _ else _] => destruct (Z.eqb_spec a b)
  | |- context [if (?a <? ?b) then _ else _] => destruct (Z.ltb_spec a b)
  | |- context [if (?a <=? ?b) then _ else _] => destruct (Z.leb_spec a b)
  | |- context [if ?a || ?b then _ else _] => destruct (a || b)
  | |- context [if ?a && ?b then _ else _] => destruct (a && b)
  end.

(** No branch of [_edit_body] indexes out of range, and none empties the
    list of lines. *)
Lemma edit_body_key_in_range (ch : Z) (lines : list str) (row col : Z) (line : str) :
  0 <= row < len lines ->
  ∃ lines' row' col',
    edit_body_key ch lines row col line = Some (lines', row', col') ∧ 0 < len lines'.
Proof.
  intros Hrow. unfold edit_body_key.
  repeat first
    [ branch_step
    | in_range_step
    | match goal with
      | |- ∃ _ _ _, Some (?l, _, _) = Some _ ∧ _ =>
          exists l; eexists _, _; split; [reflexivity|]
      end ];
  try rewrite len_insert_at; range_lia.
Qed.

(** C10. From any state of the draft, also one whose row or column is out
    of range or whose list of lines is empty, [_edit_body] raises no
    [IndexError] and leaves a non-empty list of lines, a row that indexes
    it and a column between 0 and the length of the line at that row. *)
Theorem edit_body_keeps_cursor_valid (app : TuiMailApp) (ch : Z) :
  ∃ app', _edit_body app ch = Some app' ∧ body_cursor_valid app'.
Proof.
  unfold _edit_body, _ensure_compose_body_valid.
  set (lines0 := match compose_body_lines (compose app) with
                 | [] => [[]]
                 | (_ :: _) as l => l
                 end).
  assert (0 < len lines0) as Hlines0.
  { unfold lines0. destruct (compose_body_lines (compose app)); unfold len; simpl; range_lia. }
  set (row0 := Z.max 0 (Z.min (compose_body_row (compose app)) (len lines0 - 1))).
  assert (0 <= row0 < len lines0) as Hrow0 by (unfold row0; range_lia).
  in_range_step.
  cbn [compose set_compose_body set_compose
       compose_body_lines compose_body_row compose_body_col].
  in_range_step.
  match goal with
  | |- context [edit_body_key ch lines0 row0 ?c ?l] =>
      destruct (edit_body_key_in_range ch lines0 row0 c l Hrow0)
        as (lines & row & col & Hkey & Hlines);
      rewrite Hkey; cbn [mbind option_bind]
  end.
  set (row' := Z.max 0 (Z.min row (len lines - 1))).
  assert (0 <= row' < len lines) as Hrow' by (unfold row'; range_lia).
  in_range_step.
  eexists. split; [reflexivity|].
  unfold body_cursor_valid. simpl.
  split_and!; [by apply len_pos|range_lia|range_lia|].
  eexists. split; [eassumption|].
  match goal with |- _ <= _ (_ (len ?l)) <= _ => pose proof (len_nonneg l) end. range_lia.
Qed.

(** * Opening a reply *)

Section ReplyFacts.

Variable _build_reply_to : TuiMailApp -> gmap str str -> bool -> str.

(** C8. For an opened message, the subject of the reply draft is "Re: "
    followed by the original subject when that subject is not empty and
    does not start with "re:" in any case, exactly "Re:" when it is empty,
    and the original subject itself when it starts with "re:" in any case. *)
Theorem reply_subject_prefix
    (app : TuiMailApp) (reply_all : bool) (source_id : Z) (w : World) :
  current_message_id (message_view app) = Some source_id ->
  ∃ app' w',
    _open_reply_compose_page _build_reply_to app reply_all w = (Return app', w')
    ∧ mode app' = mode_compose
    ∧ compose_kind (compose app') = kind_reply
    ∧ (original_subject app ≠ [] ->
       startswith (lower (original_subject app)) (lit "re:") = false ->
       compose_subject (compose app') = lit "Re: " ++ original_subject app)
    ∧ (original_subject app = [] -> compose_subject (compose app') = lit "Re:")
    ∧ (startswith (lower (original_subject app)) (lit "re:") = true ->
       compose_subject (compose app') = original_subject app).
Proof.
  intros Hopen. unfold _open_reply_compose_page, original_subject. rewrite Hopen.
  destruct (_split_headers_and_body_from_message (message_lines (message_view app)))
    as [headers body_lines].
  cbn [fst]. set (subject := strip (default [] (headers !! lit "subject"))).
  unfold _open_compose_page, mbind, M_bind, _log, mret, M_ret.
  eexists _, _. split; [reflexivity|]. cbn.
  split_and!; try done.
  - intros Hne Hre. destruct subject; [done|]. by rewrite Hre.
  - by intros ->.
  - intros Hre. destruct subject; [done|]. by rewrite Hre.
Qed.

End ReplyFacts.

(** The three subjects of the specification, through a message on screen. *)
Lemma reply_subject_prefix_witness :
  ∃ app' w',
    _open_reply_compose_page reply_to_sender
      (showing_message [lit "From: alice@example.org"; lit "Subject: Hello"; [];
                        lit "How are you?"])
      false fresh_world
    = (Return app', w')
    ∧ compose_subject (compose app') = lit "Re: Hello".
Proof.
  destruct (reply_subject_prefix reply_to_sender
              (showing_message [lit "From: alice@example.org"; lit "Subject: Hello"; [];
                                lit "How are you?"])
              false 7 fresh_world)
    as (app' & w' & Hrun & _ & _ & Hprefix & _).
  - reflexivity.
  - exists app', w'. split; [exact Hrun|]. rewrite Hprefix.
    + vm_compute. reflexivity.
    + vm_compute. discriminate.
    + vm_compute. reflexivity.
Defined.

Example reply_subject_examples :
  let subject_after lines :=
    match (_open_reply_compose_page reply_to_sender (showing_message lines) true
             fresh_world).1 with
    | Return app' => compose_subject (compose app')
    | Raise _ => []
    end in
  subject_after [lit "From: alice@example.org"; lit "Subject: Hello"; []; lit "Hi"]
  = lit "Re: Hello"
  ∧ subject_after [lit "From: alice@example.org"; lit "Subject:"; []; lit "Hi"]
    = lit "Re:"
  ∧ subject_after [lit "From: alice@example.org"; []; lit "Hi"] = lit "Re:"
  ∧ subject_after [lit "From: alice@example.org"; lit "Subject: RE: hi"; []; lit "Hi"]
    = lit "RE: hi"
  ∧ subject_after [lit "Subject: a long"; lit "  subject"; lit "To: bob@example.org"]
    = lit "Re: a long subject".
Proof. vm_compute. repeat split. Qed.

(** * Switching accounts *)

Section SwitchingFacts.

Variable backend : Backend.
Variable config : Candidates.
Variable _prompt_account_number_modal : list str -> str -> option str.

(** [_load_page] never raises; it leaves the client, the sender, the mode
    and the message view alone, and it lowers the page by one when the
    load fails on a page after the first. *)
Lemma load_page_outcome (app : TuiMailApp) (reset_cursor : bool) (loading_msg : str)
    (w : World) :
  ∃ ok app' w',
    _load_page backend app reset_cursor loading_msg w = (Return (ok, app'), w')
    ∧ client app' = client app
    ∧ default_sender app' = default_sender app
    ∧ mode app' = mode app
    ∧ message_view app' = message_view app
    ∧ page app' = if ok then page app
                  else if 1 <? page app then page app - 1 else page app.
Proof.
  unfold _load_page, _show_loading, attempt, mbind, M_bind, _log, mret, M_ret.
  cbn [fst snd client set_status page].
  match goal with
  | |- context [list_envelopes backend ?c ?p ?w0] =>
      destruct (list_envelopes backend c p w0) as [[[new_rows raw]|err] w1]
  end; cbn [fst snd].
  - eexists true, _, _. split; [reflexivity|]. by destruct new_rows.
  - eexists false, _, _. split; [reflexivity|]. cbn.
    by destruct (1 <? page app).
Qed.

Lemma resolve_default_sender_total (paths : Candidates) (requested_account : str)
    (w : World) :
  ∃ r w', resolve_default_sender_loop paths requested_account w = (Return r, w').
Proof.
  revert w. induction paths as [|[path file] paths IH]; intros w;
    cbn [resolve_default_sender_loop]; [by eexists _, _|].
  destruct file as [|err|[accounts|]].
  - apply IH.
  - unfold mbind, M_bind, _log. apply IH.
  - destruct requested_account as [|c requested].
    + destruct (pick_default_account accounts) as [|d default_account]; [apply IH|].
      destruct (table_email _); [|by eexists _, _].
      destruct (contains _ _); [by eexists _, _|apply IH].
    + destruct (table_email _); [|by eexists _, _].
      destruct (contains _ _); [by eexists _, _|apply IH].
  - apply IH.
Qed.

(** What a confirmed switch leaves behind: either the target account on
    page 1 of INBOX, with the sender replaced when the configuration gives
    a non-empty one for the target, or the previous account, folder and
    sender, on the previous page or, when the reload of that page fails
    as well, on the page before it. *)
Lemma switch_account_outcomes (app : TuiMailApp) (w w0 : World)
    (accounts : list str) (default_account source_path target : str) :
  list_accounts_from_config config w = (Return (accounts, default_account, source_path), w0) ->
  accounts ≠ [] ->
  _prompt_account_number_modal accounts default_account = Some target ->
  ∃ app' w' auto_sender,
    _switch_account backend config _prompt_account_number_modal app w = (Return app', w')
    ∧ (∃ auto_account auto_path w1,
         resolve_default_sender_from_config config target w0
         = (Return (auto_sender, auto_account, auto_path), w1))
    ∧ ((account (client app') = target
        ∧ folder (client app') = lit "INBOX"
        ∧ page app' = 1
        ∧ default_sender app'
          = match auto_sender with [] => default_sender app | _ :: _ => auto_sender end)
       ∨ (account (client app') = account (client app)
          ∧ folder (client app') = folder (client app)
          ∧ default_sender app' = default_sender app
          ∧ (page app' = page app ∨ (1 < page app ∧ page app' = page app - 1)))).
Proof.
  intros Hlist Hsome Hchoice. unfold _switch_account.
  unfold mbind at 1, M_bind at 1. rewrite Hlist.
  destruct accounts as [|first_account others]; [done|]. rewrite Hchoice.
  unfold resolve_default_sender_from_config.
  destruct (resolve_default_sender_total config (strip target) w0)
    as ([[auto_sender auto_account] auto_path] & w1 & Hresolve).
  unfold mbind at 1, M_bind at 1. rewrite Hresolve.
  unfold mbind at 1, M_bind at 1. cbn [_log].
  unfold mbind at 1, M_bind at 1.
  match goal with
  | |- context [_load_page backend ?a true ?msg ?w2] =>
      set (app1 := a);
      destruct (load_page_outcome app1 true msg w2)
        as (ok & app2 & w2' & Hload & Hclient & Hsender & _ & _ & Hpage);
      rewrite Hload
  end.
  assert (client app1 = client (set_account_folder target (lit "INBOX") app)
          ∧ page app1 = 1
          ∧ default_sender app1
            = match auto_sender with [] => default_sender app | _ :: _ => auto_sender end)
    as (Hc1 & Hp1 & Hs1).
  { unfold app1. by destruct auto_sender. }
  destruct ok.
  - unfold mbind, M_bind, _log, mret, M_ret. eexists _, _, auto_sender.
    split; [reflexivity|]. split; [by eexists _, _, _|]. left.
    destruct target, default_account; cbn [client set_status default_sender page];
      rewrite Hclient, Hc1, Hsender, Hs1, Hpage, Hp1; by split_and!.
  - unfold mbind at 1, M_bind at 1.
    match goal with
    | |- context [_load_page backend ?a true ?msg ?w3] =>
        destruct (load_page_outcome a true msg w3)
          as (ok' & app3 & w3' & Hload' & Hclient' & Hsender' & _ & _ & Hpage');
        rewrite Hload'
    end.
    unfold mbind, M_bind, _log, mret, M_ret. eexists _, _, auto_sender.
    split; [reflexivity|]. split; [by eexists _, _, _|]. right.
    cbn [client set_status default_sender page].
    rewrite Hclient', Hsender', Hpage'. cbn.
    split_and!; try done.
    destruct ok'; [by left|]. destruct (Z.ltb_spec 1 (page app)); [right|left]; done.
Qed.

End SwitchingFacts.

(** C7 on the code.  The switch from [home] to [work] is confirmed while
    the server cannot be reached: the load of INBOX fails, the account,
    the folder and the sender are put back, and so is page 3; but the
    reload of page 3 fails too and [_load_page] lowers the page, so the
    switch ends on page 2 with the status "Previous account restored". *)
Theorem switch_account_restore_loses_page :
  ∃ app' w',
    _switch_account offline_backend two_accounts choose_first browsing_archive fresh_world
    = (Return app', w')
    ∧ page browsing_archive = 3
    ∧ account (client app') = lit "home"
    ∧ folder (client app') = lit "Archive"
    ∧ default_sender app' = lit "me@home.example"
    ∧ page app' = 2
    ∧ status app' = lit "Could not switch to account 'work'. Previous account restored."
    ∧ argv <$> calls w'
      = [[lit "himalaya"; lit "--quiet"; lit "envelope"; lit "list"; lit "--folder";
          lit "INBOX"; lit "--page"; lit "1"; lit "--page-size"; lit "20";
          lit "--account"; lit "work"];
         [lit "himalaya"; lit "--quiet"; lit "envelope"; lit "list"; lit "--folder";
          lit "Archive"; lit "--page"; lit "3"; lit "--page-size"; lit "20";
          lit "--account"; lit "home"]].
Proof. eexists _, _. vm_compute. repeat split. Qed.

(** * Folder normalization *)

Lemma str_lt_asym (a b : str) : str_lt a b = true -> str_lt b a = false.
Proof.
  revert b. induction a as [|x a IH]; intros [|y b]; simpl; try done.
  destruct (N.ltb_spec x y), (N.ltb_spec y x), (N.eqb_spec x y), (N.eqb_spec y x);
    simpl; try lia; auto.
Qed.

Lemma str_lt_negtrans (a b c : str) :
  str_lt b a = false -> str_lt c b = false -> str_lt c a = false.
Proof.
  revert b c. induction a as [|x a IH]; intros [|y b] [|z c]; simpl; try done.
  destruct (N.ltb_spec y x), (N.ltb_spec z y), (N.ltb_spec z x),
    (N.eqb_spec y x), (N.eqb_spec z y), (N.eqb_spec z x); simpl; try lia; try done.
  apply IH.
Qed.

Lemma key_lt_asym (a b : Z * str) : key_lt a b = true -> key_le a b.
Proof.
  unfold key_le, key_lt. destruct a as [m s], b as [n t]. simpl.
  destruct (Z.ltb_spec m n), (Z.ltb_spec n m), (Z.eqb_spec m n), (Z.eqb_spec n m);
    simpl; try lia; try done. apply str_lt_asym.
Qed.

Lemma key_le_trans (a b c : Z * str) : key_le a b -> key_le b c -> key_le a c.
Proof.
  unfold key_le, key_lt. destruct a as [m s], b as [n t], c as [o u]. simpl.
  destruct (Z.ltb_spec n m), (Z.ltb_spec o n), (Z.ltb_spec o m),
    (Z.eqb_spec n m), (Z.eqb_spec o n), (Z.eqb_spec o m); simpl; try lia; try done.
  intros. by eapply str_lt_negtrans.
Qed.

Section Sorting.

Context {A : Type} (key : A -> Z * str).

Lemma insert_sorted_sorted (x : A) (l : list A) :
  key_sorted key l -> key_sorted key (insert_sorted key x l).
Proof.
  unfold key_sorted.
  induction 1 as [|y t Hsorted IH Hall]; simpl; [repeat constructor|].
  destruct (key_lt (key y) (key x)) eqn:Hlt.
  - constructor; [done|]. rewrite insert_sorted_perm. constructor; [|done].
    by apply key_lt_asym.
  - constructor; [by constructor|]. constructor; [done|].
    eapply Forall_impl; [exact Hall|]. intros z Hz. by eapply key_le_trans.
Qed.

Lemma sort_by_sorted (l : list A) : key_sorted key (sort_by key l).
Proof.
  induction l as [|x t IH]; simpl; [constructor|]. by apply insert_sorted_sorted.
Qed.

End Sorting.

(** The result starts with the one row named INBOX up to case: the row
    of the input when there is one, a synthesized row otherwise. *)
Lemma normalize_folders_inbox_first (rows : list FolderRow.t) :
  ∃ first rest,
    _normalize_folders rows = first :: rest
    ∧ is_inbox first = true
    ∧ Forall (fun row => is_inbox row = false) rest
    ∧ (existsb is_inbox (normalize_unique rows) = false ->
       first = FolderRow.mk (lit "INBOX") (lit "Inbox") ∧ rest = normalize_unique rows).
Proof.
  pose proof (normalize_folders_NoDup rows) as Hnodup.
  destruct (normalize_folders_cases rows) as [[Hyes Hperm]|[Hno Heq]].
  - assert (inbox_then_alphabetical (_normalize_folders rows)) as Hsorted.
    { unfold _normalize_folders. rewrite Hyes. apply sort_by_sorted. }
    pose proof Hyes as Hlisted.
    apply existsb_exists in Hyes as (row & Hrow%list_elem_of_In & Hinbox).
    rewrite <- Hperm in Hrow.
    destruct (_normalize_folders rows) as [|first rest]; [by apply elem_of_nil in Hrow|].
    exists first, rest. split; [done|].
    apply StronglySorted_inv in Hsorted as [_ Hfirst].
    rewrite fmap_cons in Hnodup. apply NoDup_cons in Hnodup as [Hfresh _].
    assert (is_inbox first = true) as Hfirst_inbox.
    { apply elem_of_cons in Hrow as [<-|Hrow]; [done|].
      rewrite Forall_forall in Hfirst. apply Hfirst in Hrow.
      unfold key_le, key_lt, folder_sort_key in Hrow. rewrite Hinbox in Hrow.
      simpl in Hrow. by destruct (is_inbox first). }
    split_and!; [done| |by rewrite Hlisted].
    apply Forall_forall. intros other Hother.
    destruct (is_inbox other) eqn:Hother_inbox; [|done]. exfalso. apply Hfresh.
    apply is_inbox_key in Hfirst_inbox, Hother_inbox. rewrite Hfirst_inbox, <- Hother_inbox.
    by apply list_elem_of_fmap_2.
  - rewrite Heq. eexists _, _. split_and!; [done|done| |done].
    apply Forall_forall. intros row Hrow.
    destruct (is_inbox row) eqn:Hinbox; [|done].
    assert (existsb is_inbox (normalize_unique rows) = true) as Hyes; [|congruence].
    apply existsb_exists. exists row. split; [by apply list_elem_of_In|done].
Qed.

(** When the input lists INBOX, the rows after it are in case-insensitive
    alphabetical order. *)
Lemma normalize_folders_sorted_when_listed (rows : list FolderRow.t) :
  existsb is_inbox (normalize_unique rows) = true ->
  alphabetical (tail (_normalize_folders rows)).
Proof.
  intros Hyes.
  assert (inbox_then_alphabetical (_normalize_folders rows)) as Hsorted.
  { unfold _normalize_folders. rewrite Hyes. apply sort_by_sorted. }
  destruct (normalize_folders_inbox_first rows) as (first & rest & Heq & _ & Hrest & _).
  rewrite Heq in *. simpl. apply StronglySorted_inv in Hsorted as [Hsorted _].
  clear Heq. induction Hsorted as [|row rest' Hsorted IH Hall]; [constructor|].
  apply Forall_cons in Hrest as [Hrow Hrest]. constructor; [by apply IH|].
  rewrite Forall_forall in Hall, Hrest |- *. intros other Hother.
  specialize (Hall other Hother). specialize (Hrest other Hother).
  unfold key_le, key_lt, folder_sort_key in Hall. rewrite Hrow, Hrest in Hall.
  simpl in Hall. done.
Qed.

(** C1 on the code.  For the folders [Sent] and [Drafts], INBOX is
    synthesized with the description "Inbox" and put first, as the
    specification says, but the two folders keep the order of the input:
    the sort is in the branch taken when INBOX is listed, and the rows
    after INBOX are not in alphabetical order. *)
Theorem normalize_folders_unsorted_when_synthesized :
  let sent := FolderRow.mk (lit "Sent") [] in
  let drafts := FolderRow.mk (lit "Drafts") [] in
  let inbox := FolderRow.mk (lit "INBOX") [] in
  _normalize_folders [sent; drafts]
  = [FolderRow.mk (lit "INBOX") (lit "Inbox"); sent; drafts]
  ∧ ¬ alphabetical (tail (_normalize_folders [sent; drafts]))
  ∧ _normalize_folders [sent; drafts; inbox] = [inbox; drafts; sent].
Proof.
  split_and!; [by vm_compute| |by vm_compute].
  intros Hsorted. vm_compute in Hsorted.
  apply StronglySorted_inv in Hsorted as [_ Hall].
  apply Forall_cons in Hall as [Hlt _]. discriminate.
Qed.

(** * More on the adapter *)

(** ** Searching two streams at once *)

Lemma substring_joined (needle a b : str) (sep : N) :
  sep ∉ needle ->
  substring needle (a ++ sep :: b) <-> substring needle a ∨ substring needle b.
Proof.
  intros Hsep. split.
  - intros (pre & post & Heq).
    apply app_eq_inv in Heq as [(k & Ha & Hk)|(k & Hpre & Hk)].
    + apply app_eq_inv in Hk as [(k' & Hneedle & Hk')|(k' & Hk & Hpost)].
      * destruct k' as [|c k']; simpl in Hk'.
        -- left. exists pre, []. rewrite app_nil_r in *. by rewrite Ha, Hneedle.
        -- injection Hk' as <- _. exfalso. apply Hsep. rewrite Hneedle.
           apply elem_of_app. right. left.
      * left. exists pre, k'. by rewrite Ha, Hk.
    + destruct k as [|c k]; simpl in Hk.
      * destruct needle as [|c needle]; [left; exists a, []; by rewrite !app_nil_r|].
        injection Hk as <- _. exfalso. apply Hsep. left.
      * injection Hk as _ ->. right. by exists k, post.
  - intros [(pre & post & ->)|(pre & post & ->)].
    + exists pre, (post ++ sep :: b). by rewrite <- !app_assoc.
    + exists (a ++ sep :: pre), post. by rewrite <- !app_assoc.
Qed.

Lemma contains_combined (needle out err : str) :
  10%N ∉ needle ->
  contains needle (combined_lower out err) = true
  <-> substring needle (lower out) ∨ substring needle (lower err).
Proof.
  intros Hsep. rewrite contains_spec. unfold combined_lower, lower.
  rewrite !fmap_app. simpl. change (lower_char 10) with 10%N.
  by apply substring_joined.
Qed.

(** X3. [_is_soft_success] holds exactly when the standard output or the
    standard error contains "successfully" in any case: joining the two
    streams with a line feed neither creates nor hides a match. *)
Theorem soft_success_either_stream (out err : str) :
  _is_soft_success out err = true
  <-> substring (lit "successfully") (lower out)
      ∨ substring (lit "successfully") (lower err).
Proof.
  apply contains_combined. apply (bool_decide_unpack _). by vm_compute.
Qed.

Section AdapterMore.

Variable backend : Backend.

(** X1. When the process exits with code 0, [_run] and [_run_with_stdin]
    return its sanitized standard output after that single process,
    whatever the output says: no re-run without the quiet flag, no
    warning, no error, and only the two [CMD] entries are logged. *)
Theorem exit_zero_returns_stdout (cmd : list str) (stdin : option str) (w : World) :
  let call := {| argv := cmd; input := stdin |} in
  let proc := backend (calls w) call in
  returncode proc = 0 ->
  ∃ entry,
    adapter_run backend cmd stdin w
    = (Return (_sanitize_output (stdout proc)), after_process backend entry call w).
Proof.
  intros call proc Hrc.
  destruct stdin as [raw_input|]; simpl.
  - rewrite _run_with_stdin_once. fold call proc. rewrite Hrc.
    rewrite decide_False by (intros [? _]; done). simpl. eauto.
  - rewrite _run_once. fold call proc. rewrite Hrc.
    rewrite decide_False by (intros [? _]; done). simpl. eauto.
Qed.

(** X2. [_run_with_stdin] reports a failed IMAP copy of a sent message as
    a warning: when a [message send] command exits with a non-zero code,
    is neither re-run nor a soft success, and its output says "cannot add
    imap message" together with "cannot resolve imap task" and a missing
    folder, or with a stream error or an unexpected tag, the fixed warning
    text is returned after that single process and nothing is raised. *)
Theorem send_copy_failure_is_a_warning (cmd : list str) (raw_input : str) (w : World) :
  let call := {| argv := cmd; input := Some raw_input |} in
  let proc := backend (calls w) call in
  let clean_stdout := _sanitize_output (stdout proc) in
  let clean_stderr := _sanitize_output (stderr proc) in
  let said text :=
    substring (lit text) (lower clean_stdout) ∨ substring (lit text) (lower clean_stderr) in
  returncode proc ≠ 0 ->
  ¬ (lit "--quiet" ∈ cmd ∧ said "unexpected argument '--quiet'"%string) ->
  ¬ said "successfully"%string ->
  substring (lit "message send") (lower (join (lit " ") cmd)) ->
  said "cannot add imap message"%string ->
  (said "cannot resolve imap task"%string
   ∧ (said "folder doesn't exist"%string ∨ said "folder does not exist"%string))
  ∨ said "stream error"%string
  ∨ said "unexpected tag in command completion result"%string ->
  ∃ w', _run_with_stdin backend cmd raw_input w = (Return send_copy_warning, w')
        ∧ calls w' = calls w ++ [call].
Proof.
  intros call proc clean_stdout clean_stderr said Hrc Hquiet Hsoft Hcmd Hadd Hcase.
  assert (∀ text, 10%N ∉ lit text ->
            contains (lit text) (combined_lower clean_stdout clean_stderr) = true
            <-> said text) as Hsaid.
  { intros text Hsep. by apply contains_combined. }
  assert (negb (returncode proc =? 0) = true) as Hneg.
  { apply negb_true_iff, Z.eqb_neq, Hrc. }
  rewrite _run_with_stdin_once. fold call proc clean_stdout clean_stderr.
  rewrite decide_False; last first.
  { intros (_ & Hin & Hun). apply Hquiet. split; [done|].
    apply Hsaid; [|done]. apply (bool_decide_unpack _). by vm_compute. }
  rewrite Hneg. cbn [andb].
  replace (_is_soft_success clean_stdout clean_stderr) with false; last first.
  { symmetry. apply not_true_iff_false. intros Hs. apply Hsoft.
    apply Hsaid; [|done]. apply (bool_decide_unpack _). by vm_compute. }
  replace (_is_send_copy_failure cmd clean_stdout clean_stderr) with true.
  { eexists. split; [done|]. done. }
  symmetry. unfold _is_send_copy_failure.
  apply contains_spec in Hcmd. rewrite Hcmd. cbn [negb].
  apply Hsaid in Hadd; [|apply (bool_decide_unpack _); by vm_compute].
  rewrite Hadd. cbn [andb].
  destruct Hcase as [[Hres Hfolder]|[Hstream|Htag]].
  - apply Hsaid in Hres; [|apply (bool_decide_unpack _); by vm_compute].
    rewrite Hres. cbn [andb]. apply orb_true_iff. left.
    apply orb_true_iff.
    destruct Hfolder as [H|H]; [left|right];
      (apply Hsaid; [apply (bool_decide_unpack _); by vm_compute|done]).
  - apply orb_true_iff. right. apply orb_true_iff. left.
    apply Hsaid; [apply (bool_decide_unpack _); by vm_compute|done].
  - apply orb_true_iff. right. apply orb_true_iff. right.
    apply Hsaid; [apply (bool_decide_unpack _); by vm_compute|done].
Qed.

End AdapterMore.

Lemma send_copy_failure_is_a_warning_witness :
  ∃ w', _run_with_stdin copy_failure_backend
          [lit "himalaya"; lit "message"; lit "send"] (lit "To: a@b.c") fresh_world
        = (Return send_copy_warning, w')
        ∧ calls w' = [{| argv := [lit "himalaya"; lit "message"; lit "send"];
                         input := Some (lit "To: a@b.c") |}].
Proof.
  assert (∀ (needle hay : str), contains needle hay = true
            -> substring needle hay) as Hsub.
  { intros. by apply contains_spec. }
  assert (∀ (needle hay : str), contains needle hay = false
            -> ¬ substring needle hay) as Hnsub.
  { intros ?? H1 H2. apply contains_spec in H2. congruence. }
  apply (send_copy_failure_is_a_warning copy_failure_backend
           [lit "himalaya"; lit "message"; lit "send"] (lit "To: a@b.c") fresh_world).
  - vm_compute. discriminate.
  - intros [Hin _]. apply list_elem_of_In in Hin. vm_compute in Hin.
    repeat destruct Hin as [Hin|Hin]; try discriminate. done.
  - intros [H|H]; revert H; apply Hnsub; by vm_compute.
  - apply Hsub. by vm_compute.
  - right. apply Hsub. by vm_compute.
  - left. split; [right; apply Hsub; by vm_compute|].
    left. right. apply Hsub. by vm_compute.
Defined.

Lemma exit_zero_returns_stdout_witness :
  ∃ entry,
    adapter_run listing_backend [lit "himalaya"; lit "--quiet"; lit "envelope"; lit "list"]
      None fresh_world
    = (Return (lit "7  Hello" ++ [10%N] ++ lit "unexpected argument '--quiet'"),
       after_process listing_backend entry
         {| argv := [lit "himalaya"; lit "--quiet"; lit "envelope"; lit "list"];
            input := None |} fresh_world).
Proof.
  apply (exit_zero_returns_stdout listing_backend
           [lit "himalaya"; lit "--quiet"; lit "envelope"; lit "list"] None fresh_world).
  reflexivity.
Defined.

(** ** Dropping the quiet flag *)

Lemma list_remove_first (x : str) (l : list str) :
  x ∈ l ->
  ∃ before after,
    l = before ++ x :: after ∧ (x ∉ before) ∧ list_remove x l = before ++ after.
Proof.
  induction l as [|y t IH]; intros Hin; [by apply elem_of_nil in Hin|].
  simpl. destruct (decide (y = x)) as [->|Hne].
  - exists [], t. split_and!; [done|apply not_elem_of_nil|done].
  - apply elem_of_cons in Hin as [->|Hin]; [done|].
    destruct (IH Hin) as (before & after & -> & Hnot & ->).
    exists (y :: before), after. split_and!; [done| |done].
    apply not_elem_of_cons. by split.
Qed.

(** X4. [_strip_quiet_arg] removes the first ["--quiet"] of the command
    and nothing else: the arguments before and after it stay, in order,
    later ["--quiet"] entries included; a command without the flag is
    returned as it is. *)
Theorem strip_quiet_arg_removes_first (cmd : list str) :
  (lit "--quiet" ∈ cmd ->
   ∃ before after,
     cmd = before ++ lit "--quiet" :: after
     ∧ (lit "--quiet" ∉ before)
     ∧ _strip_quiet_arg cmd = before ++ after)
  ∧ (lit "--quiet" ∉ cmd -> _strip_quiet_arg cmd = cmd).
Proof.
  unfold _strip_quiet_arg. split; intros Hin.
  - rewrite decide_True by done. by apply list_remove_first.
  - by rewrite decide_False.
Qed.

(** ** Truncation *)

(** X5. For a limit of at least 3, [_truncate] returns a text within
    the limit unchanged, and cuts a longer text to exactly [limit]
    characters: its first [limit - 3] characters followed by three
    dots. *)
Theorem truncate_keeps_prefix (text : str) (limit : Z) :
  3 <= limit ->
  (len text <= limit -> _truncate text limit = text)
  ∧ (limit < len text ->
     _truncate text limit = take (Z.to_nat (limit - 3)) text ++ lit "..."
     ∧ len (_truncate text limit) = limit).
Proof.
  intros Hlimit. unfold _truncate. split; intros Hlen.
  - destruct (Z.leb_spec (len text) limit); [done|lia].
  - destruct (Z.leb_spec (len text) limit); [lia|].
    unfold slice_to, slice_bound.
    destruct (Z.ltb_spec (limit - 3) 0); [lia|].
    rewrite Z.min_l by lia. split; [done|].
    unfold len in *. rewrite length_app, length_take.
    change (length (lit "...")) with 3%nat. lia.
Qed.

Lemma truncate_keeps_prefix_witness :
  (len (lit "Hello") <= 8 -> _truncate (lit "Hello") 8 = lit "Hello")
  ∧ (8 < len (lit "Hello") ->
     _truncate (lit "Hello") 8 = take (Z.to_nat (8 - 3)) (lit "Hello") ++ lit "..."
     ∧ len (_truncate (lit "Hello") 8) = 8).
Proof. apply (truncate_keeps_prefix (lit "Hello") 8). lia. Defined.

(** ** Sanitizing *)

Lemma length_drop_while {A} (p : A -> bool) (l : list A) :
  (length (drop_while p l) <= length l)%nat.
Proof. induction l as [|x t IH]; simpl; [done|]. destruct (p x); simpl; lia. Qed.

Lemma length_strip (s : str) : (length (strip s) <= length s)%nat.
Proof.
  unfold strip, rstrip, lstrip. rewrite length_rev.
  etrans; [apply length_drop_while|]. rewrite length_rev. apply length_drop_while.
Qed.

Lemma strip_no_edge_space (s : str) :
  (∀ c, head (strip s) = Some c -> isspace c = false)
  ∧ (∀ c, last (strip s) = Some c -> isspace c = false).
Proof.
  split; intros c Hc.
  - rewrite <- strip_idemp in Hc. unfold strip at 1, lstrip in Hc.
    destruct (drop_while isspace (strip s)) as [|x r] eqn:E.
    + done.
    + pose proof (drop_while_head _ _ _ _ E) as Hx.
      rewrite rstrip_cons in Hc by done. simpl in Hc. congruence.
  - unfold strip, rstrip in Hc.
    destruct (drop_while isspace (rev (lstrip s))) as [|x r] eqn:E; [done|].
    pose proof (drop_while_head _ _ _ _ E) as Hx.
    simpl in Hc. rewrite last_snoc in Hc. congruence.
Qed.

Lemma length_ansi_escape_sub (skip : nat) (s : str) :
  (length (ansi_escape_sub skip s) <= length s)%nat.
Proof.
  revert skip. induction s as [|c t IH]; intros skip; [done|].
  cbn [ansi_escape_sub]. destruct skip as [|k].
  - destruct (ansi_escape_match (c :: t)).
    + cbn [length]. specialize (IH (n - 1)%nat). lia.
    + cbn [length]. specialize (IH 0%nat). lia.
  - cbn [length]. specialize (IH k). lia.
Qed.

Lemma ansi_escape_sub_plain (s : str) :
  27%N ∉ s -> ansi_escape_sub 0 s = s.
Proof.
  induction s as [|c t IH]; intros Hesc; [done|].
  apply not_elem_of_cons in Hesc as [Hc Ht].
  cbn [ansi_escape_sub]. replace (ansi_escape_match (c :: t)) with (@None nat).
  - by rewrite IH.
  - unfold ansi_escape_match. destruct c as [|p]; [done|].
    repeat (destruct p as [p|p|]; try done).
Qed.

(** X6. The text that [_sanitize_output] returns neither starts nor ends
    with white space and is never longer than the input; a text without
    the escape character is only trimmed. *)
Theorem sanitize_output_trimmed (text : str) :
  (∀ c, head (_sanitize_output text) = Some c -> isspace c = false)
  ∧ (∀ c, last (_sanitize_output text) = Some c -> isspace c = false)
  ∧ len (_sanitize_output text) <= len text
  ∧ (27%N ∉ text -> _sanitize_output text = strip text).
Proof.
  destruct text as [|c t].
  - split_and!; try done.
  - unfold _sanitize_output. split_and!.
    + apply strip_no_edge_space.
    + apply strip_no_edge_space.
    + unfold len. apply inj_le. etrans; [apply length_strip|].
      apply length_ansi_escape_sub.
    + intros Hesc. by rewrite ansi_escape_sub_plain.
Qed.

(** ** The body of a composed message *)

Lemma replace_single (c : N) (new s : str) :
  replace [c] new s = flat_map (fun x => if (c =? x)%N then new else [x]) s.
Proof.
  unfold replace. induction s as [|x t IH]; [done|].
  cbn [replace_from startswith flat_map length Nat.sub]. rewrite andb_true_r.
  destruct (c =? x)%N; by rewrite IH.
Qed.

Lemma crlf_only_of_feeds (s : str) :
  13%N ∉ s ->
  crlf_only (flat_map (fun x => if (10 =? x)%N then [13%N; 10%N] else [x]) s) = true.
Proof.
  induction s as [|x t IH]; intros Hcr; [done|].
  apply not_elem_of_cons in Hcr as [Hx Ht]. cbn [flat_map].
  destruct (N.eqb_spec 10 x) as [<-|Hlf].
  - simpl. by apply IH.
  - cbn [app crlf_only].
    destruct (N.eqb_spec x 13) as [->|_]; [done|].
    destruct (N.eqb_spec x 10) as [->|_]; [done|]. simpl. by apply IH.
Qed.

Lemma feeds_of_returns (s : str) :
  13%N ∉ flat_map (fun x => if (13 =? x)%N then [10%N] else [x]) s.
Proof.
  induction s as [|x t IH]; [apply not_elem_of_nil|]. cbn [flat_map].
  destruct (N.eqb_spec 13 x) as [<-|Hne]; simpl.
  - apply not_elem_of_cons. by split.
  - apply not_elem_of_cons. by split.
Qed.

Lemma replace_absent (old new s : str) (c : N) :
  head old = Some c -> c ∉ s -> replace old new s = s.
Proof.
  intros Hold. destruct old as [|c' old]; [done|]. injection Hold as ->.
  unfold replace. induction s as [|x t IH]; intros Hc; [done|].
  apply not_elem_of_cons in Hc as [Hx Ht].
  cbn [replace_from startswith]. destruct (N.eqb_spec c x); [done|].
  cbn [andb]. by rewrite IH.
Qed.

Lemma normalized_body_passes (s : str) :
  normalized_body s
  = flat_map (fun x => if (10 =? x)%N then [13%N; 10%N] else [x])
      (flat_map (fun x => if (13 =? x)%N then [10%N] else [x])
         (replace_from [13%N; 10%N] [10%N] 0 s)).
Proof. unfold normalized_body. by rewrite !replace_single. Qed.

Lemma normalized_body_cons (c : N) (t : str) :
  normalized_body (c :: t) =
  match t with
  | c' :: t' =>
      if ((c =? 13) && (c' =? 10))%N then [13%N; 10%N] ++ normalized_body t'
      else if ((c =? 13) || (c =? 10))%N then [13%N; 10%N] ++ normalized_body t
      else c :: normalized_body t
  | [] => if ((c =? 13) || (c =? 10))%N then [13%N; 10%N] else [c]
  end.
Proof.
  destruct (N.eqb_spec c 13) as [->|H13].
  - destruct t as [|c' t']; [done|]. cbn [andb orb].
    destruct (N.eqb_spec c' 10) as [->|H10]; [done|].
    rewrite !normalized_body_passes.
    assert (replace_from [13%N; 10%N] [10%N] 0 (13%N :: c' :: t')
            = 13%N :: replace_from [13%N; 10%N] [10%N] 0 (c' :: t')) as ->; [|done].
    cbn [replace_from startswith]. rewrite (N.eqb_sym 10 c').
    replace (c' =? 10)%N with false by (symmetry; by apply N.eqb_neq). done.
  - assert ((13 =? c)%N = false) as H13' by (by apply N.eqb_neq).
    rewrite !normalized_body_passes.
    assert (replace_from [13%N; 10%N] [10%N] 0 (c :: t)
            = c :: replace_from [13%N; 10%N] [10%N] 0 t) as ->.
    { cbn [replace_from startswith]. by rewrite H13'. }
    cbn [flat_map orb andb]. rewrite H13'. cbn [app flat_map].
    rewrite (N.eqb_sym 10 c).
    destruct t as [|c' t']; rewrite ?normalized_body_passes; by destruct (c =? 10)%N.
Qed.

Lemma splitlines_from_crlf (cur t : str) :
  splitlines_from cur (13%N :: 10%N :: t) = cur :: splitlines_from [] t.
Proof. done. Qed.

Lemma splitlines_from_lf (cur t : str) :
  splitlines_from cur (10%N :: t) = cur :: splitlines_from [] t.
Proof. by destruct t. Qed.

Lemma splitlines_from_cr (cur t : str) :
  head t ≠ Some 10%N ->
  splitlines_from cur (13%N :: t) = cur :: splitlines_from [] t.
Proof.
  intros Hhead. destruct t as [|c t]; [done|]. cbn [splitlines_from].
  change (islinebreak 13) with true. cbn match.
  destruct (N.eqb_spec c 10) as [->|_]; [done|]. done.
Qed.

Lemma splitlines_from_break (cur t : str) (c : N) :
  islinebreak c = true -> c ≠ 13%N ->
  splitlines_from cur (c :: t) = cur :: splitlines_from [] t.
Proof.
  intros Hc H13. cbn [splitlines_from]. rewrite Hc.
  replace (c =? 13)%N with false by (symmetry; by apply N.eqb_neq).
  by destruct t.
Qed.

Lemma splitlines_from_plain (cur t : str) (c : N) :
  islinebreak c = false ->
  splitlines_from cur (c :: t) = splitlines_from (cur ++ [c]) t.
Proof. intros Hc. cbn [splitlines_from]. by rewrite Hc. Qed.

Lemma splitlines_from_normalized (n : nat) :
  ∀ (s cur : str), (length s <= n)%nat ->
    splitlines_from cur (normalized_body s) = splitlines_from cur s.
Proof.
  induction n as [|n IH]; intros s cur Hlen.
  - destruct s; [done|simpl in Hlen; lia].
  - destruct s as [|c t]; [done|]. rewrite normalized_body_cons.
    cbn [length] in Hlen. destruct t as [|c' t'].
    + destruct (N.eqb_spec c 13) as [->|H13]; [done|].
      destruct (N.eqb_spec c 10) as [->|H10]; [done|]. done.
    + cbn [length] in Hlen.
      destruct (N.eqb_spec c 13) as [->|H13]; cbn [andb orb].
      * destruct (N.eqb_spec c' 10) as [->|H10]; cbn [app].
        -- rewrite !splitlines_from_crlf. f_equal. apply IH. lia.
        -- rewrite splitlines_from_crlf, splitlines_from_cr
             by (simpl; congruence).
           f_equal. apply IH. cbn [length]. lia.
      * destruct (N.eqb_spec c 10) as [->|H10]; cbn [app].
        -- rewrite splitlines_from_crlf, splitlines_from_lf.
           f_equal. apply IH. cbn [length]. lia.
        -- destruct (islinebreak c) eqn:Hc.
           ++ rewrite !splitlines_from_break by done.
              f_equal. apply IH. cbn [length]. lia.
           ++ rewrite !splitlines_from_plain by done.
              apply IH. cbn [length]. lia.
Qed.

(** X7. The message that [compose_message] writes ends with the
    normalized body after the blank line; in the normalized body every
    line ending is a carriage return followed by a line feed, the lines
    are those of the body given, and a body without line endings is
    sent unchanged. *)
Theorem compose_body_line_endings (to subject body sender : str) :
  (∃ headers,
     compose_raw_message to subject body sender
     = headers ++ [13%N; 10%N; 13%N; 10%N] ++ normalized_body body)
  ∧ crlf_only (normalized_body body) = true
  ∧ splitlines (normalized_body body) = splitlines body
  ∧ (10%N ∉ body -> 13%N ∉ body -> normalized_body body = body).
Proof.
  split_and!.
  - eexists. reflexivity.
  - unfold normalized_body. rewrite (replace_single 10), (replace_single 13).
    apply crlf_only_of_feeds, feeds_of_returns.
  - apply (splitlines_from_normalized (length body)). done.
  - intros Hlf Hcr. unfold normalized_body.
    rewrite (replace_absent [13%N; 10%N] _ body 13) by done.
    rewrite (replace_absent [13%N] _ body 13) by done.
    by rewrite (replace_absent [10%N] _ body 10).
Qed.

(** ** Envelope rows, once more *)



Lemma elem_of_drop_while {A} (p : A -> bool) (l : list A) (x : A) :
  x ∈ drop_while p l -> x ∈ l.
Proof.
  induction l as [|y t IH]; [done|]. simpl. destruct (p y); [|done].
  intros Hx. right. by apply IH.
Qed.

Lemma elem_of_rstrip (s : str) (c : N) : c ∈ rstrip s -> c ∈ s.
Proof.
  unfold rstrip. intros Hc. apply list_elem_of_In, in_rev in Hc.
  apply list_elem_of_In, elem_of_drop_while in Hc.
  apply list_elem_of_In. apply in_rev. by apply list_elem_of_In.
Qed.




(** * The configuration lookup, once more *)

Lemma resolve_default_sender_loop_spec (paths : Candidates) (requested : str) (w : World) :
  ∃ sender chosen path w',
    resolve_default_sender_loop paths requested w = (Return (sender, chosen, path), w')
    ∧ calls w' = calls w
    ∧ ((sender = [] ∧ chosen = [] ∧ path = [])
       ∨ (sender ≠ [] ∧ chosen ≠ []
          ∧ (requested ≠ [] -> chosen = requested)
          ∧ ∃ accounts,
              (path, Parsed (Some accounts)) ∈ paths
              ∧ (requested = [] -> chosen = pick_default_account accounts)
              ∧ (sender = table_email (dict_get chosen accounts)
                 ∨ (table_email (dict_get chosen accounts) = []
                    ∧ sender = chosen ∧ substring (lit "@") chosen)))).
Proof.
  revert w. induction paths as [|[path file] paths IH]; intros w;
    cbn [resolve_default_sender_loop].
  { eexists [], [], [], w. split_and!; [done|done|by left]. }
  assert (∀ w0, calls w0 = calls w ->
    ∃ sender chosen path0 w',
      resolve_default_sender_loop paths requested w0 = (Return (sender, chosen, path0), w')
      ∧ calls w' = calls w
      ∧ ((sender = [] ∧ chosen = [] ∧ path0 = [])
         ∨ (sender ≠ [] ∧ chosen ≠ []
            ∧ (requested ≠ [] -> chosen = requested)
            ∧ ∃ accounts,
                (path0, Parsed (Some accounts)) ∈ (path, file) :: paths
                ∧ (requested = [] -> chosen = pick_default_account accounts)
                ∧ (sender = table_email (dict_get chosen accounts)
                   ∨ (table_email (dict_get chosen accounts) = []
                      ∧ sender = chosen ∧ substring (lit "@") chosen))))) as Hnext.
  { intros w0 Hw0. destruct (IH w0) as (sender & chosen & path0 & w' & Hrun & Hcalls & Hres).
    exists sender, chosen, path0, w'. split_and!; [done|congruence|].
    destruct Hres as [?|(? & ? & ? & accounts & Hin & ?)]; [by left|right].
    split_and!; try done. exists accounts. split; [by right|done]. }
  destruct file as [|err|[accounts|]].
  - by apply Hnext.
  - unfold mbind, M_bind, _log. by apply Hnext.
  - destruct requested as [|c requested].
    + destruct (pick_default_account accounts) as [|d default_account] eqn:Hpick;
        [by apply Hnext|].
      destruct (table_email _) as [|e email] eqn:Hemail.
      * destruct (contains _ _) eqn:Hat; [|by apply Hnext].
        eexists _, _, _, w. split_and!; [done|done|]. right.
        split_and!; try done. exists accounts. split_and!; [left|by rewrite Hpick|].
        right. rewrite Hemail. split_and!; try done. by apply contains_spec.
      * eexists _, _, _, w. split_and!; [done|done|]. right.
        split_and!; try done. exists accounts. split_and!; [left|by rewrite Hpick|].
        left. by rewrite Hemail.
    + destruct (table_email _) as [|e email] eqn:Hemail.
      * destruct (contains _ _) eqn:Hat; [|by apply Hnext].
        eexists _, _, _, w. split_and!; [done|done|]. right.
        split_and!; try done. exists accounts. split_and!; [left|done|].
        right. rewrite Hemail. split_and!; try done. by apply contains_spec.
      * eexists _, _, _, w. split_and!; [done|done|]. right.
        split_and!; try done. exists accounts. split_and!; [left|done|].
        left. by rewrite Hemail.
  - by apply Hnext.
Qed.

(** X9. [resolve_default_sender_from_config] spawns no process and gives
    all or nothing: three empty strings, or a non-empty sender and
    account together with the path of a configuration file that has an
    [accounts] mapping.  A requested account is never replaced by another
    one; without a request the account is the default of that file.  The
    sender is the trimmed [email] of the account, or the account name
    itself when there is no such email and the name contains [@]. *)
Theorem resolve_default_sender_all_or_nothing
    (paths : Candidates) (requested_account : str) (w : World) :
  ∃ sender chosen path w',
    resolve_default_sender_from_config paths requested_account w
    = (Return (sender, chosen, path), w')
    ∧ calls w' = calls w
    ∧ ((sender = [] ∧ chosen = [] ∧ path = [])
       ∨ (sender ≠ [] ∧ chosen ≠ []
          ∧ (strip requested_account ≠ [] -> chosen = strip requested_account)
          ∧ ∃ accounts,
              (path, Parsed (Some accounts)) ∈ paths
              ∧ (strip requested_account = [] -> chosen = pick_default_account accounts)
              ∧ (sender = table_email (dict_get chosen accounts)
                 ∨ (table_email (dict_get chosen accounts) = []
                    ∧ sender = chosen ∧ substring (lit "@") chosen)))).
Proof. apply resolve_default_sender_loop_spec. Qed.

Lemma scan_entry_default_listed (paths : Candidates) (path : str)
    (raw : list (str * AccountCfg)) (st : AccountScan) (entry : str * AccountCfg) :
  (path, Parsed (Some raw)) ∈ paths -> entry ∈ raw ->
  scan_default_listed paths st -> scan_default_listed paths (scan_entry st entry).
Proof.
  intros Hpath Hentry Hst. unfold scan_entry.
  destruct (strip entry.1) as [|c name] eqn:Hname; [done|].
  destruct (decide _); [done|]. unfold scan_default_listed in *. cbn.
  destruct (scan_default_account st) as [|d default_account] eqn:Hdefault.
  - destruct (is_default_entry entry) eqn:Hflag; [|by left]. right. split.
    + apply elem_of_app. right. left.
    + by exists path, raw, entry.
  - destruct Hst as [?|[Hin Hflagged]]; [done|]. right. split; [|done].
    apply elem_of_app. by left.
Qed.

Lemma scan_entry_source_path (st : AccountScan) (entry : str * AccountCfg) :
  scan_source_path (scan_entry st entry) = scan_source_path st.
Proof.
  unfold scan_entry. destruct (strip entry.1); [done|]. by destruct (decide _).
Qed.

Lemma scan_entries_default_listed (paths : Candidates) (path : str)
    (raw entries : list (str * AccountCfg)) (st : AccountScan) :
  (path, Parsed (Some raw)) ∈ paths -> entries ⊆ raw ->
  scan_default_listed paths st ->
  scan_default_listed paths (fold_left scan_entry entries st)
  ∧ scan_source_path (fold_left scan_entry entries st) = scan_source_path st.
Proof.
  intros Hpath. revert st. induction entries as [|entry entries IH]; intros st Hsub Hst.
  - done.
  - simpl. destruct (IH (scan_entry st entry)) as [Hdef Hsrc].
    + intros x Hx. apply Hsub. by right.
    + eapply scan_entry_default_listed; [done| |done]. apply Hsub. left.
    + split; [done|]. by rewrite Hsrc, scan_entry_source_path.
Qed.

Lemma list_accounts_loop_listed (paths rest : Candidates) (st : AccountScan) (w : World) :
  rest ⊆ paths ->
  scan_default_listed paths st -> scan_source_parsed paths st ->
  ∃ st' w',
    list_accounts_loop rest st w = (Return st', w')
    ∧ scan_default_listed paths st' ∧ scan_source_parsed paths st'.
Proof.
  revert st w. induction rest as [|[path file] rest IH]; intros st w Hsub Hdef Hsrc.
  - by exists st, w.
  - assert (rest ⊆ paths) as Hrest by (intros x Hx; apply Hsub; by right).
    cbn [list_accounts_loop]. destruct file as [|err|[raw|]].
    + by apply IH.
    + unfold mbind, M_bind, _log. by apply IH.
    + assert ((path, Parsed (Some raw)) ∈ paths) as Hpath by (apply Hsub; left).
      match goal with
      | |- context [fold_left scan_entry raw ?s] =>
          destruct (scan_entries_default_listed paths path raw raw s Hpath) as [Hdef' Hsrc'];
            [done|done|]
      end.
      apply IH; [done|done|]. unfold scan_source_parsed. rewrite Hsrc'. cbn.
      destruct (scan_source_path st) as [|c p] eqn:Hp.
      * right. by exists raw.
      * destruct Hsrc as [Hnil|Hsrc]; [by rewrite Hp in Hnil|]. right. by rewrite <- Hp.
    + by apply IH.
Qed.

(** X10. [list_accounts_from_config] always returns.  The default account
    it gives is empty or one of the accounts returned, and is then the
    trimmed name of an entry flagged [default = true] in a configuration
    file; the source path is empty or a configuration file that has an
    [accounts] mapping. *)
Theorem list_accounts_default_is_listed (paths : Candidates) (w : World) :
  ∃ accounts default_account source_path w',
    list_accounts_from_config paths w
    = (Return (accounts, default_account, source_path), w')
    ∧ (default_account = []
       ∨ (default_account ∈ accounts
          ∧ ∃ path raw entry,
              (path, Parsed (Some raw)) ∈ paths ∧ entry ∈ raw
              ∧ strip entry.1 = default_account
              ∧ is_default_entry entry = true))
    ∧ (source_path = [] ∨ ∃ raw, (source_path, Parsed (Some raw)) ∈ paths).
Proof.
  unfold list_accounts_from_config, mbind, M_bind.
  destruct (list_accounts_loop_listed paths paths
              {| scan_accounts := []; scan_seen := ∅;
                 scan_default_account := []; scan_source_path := [] |} w)
    as (st' & w' & -> & Hdef & Hsrc); [done|by left|by left|].
  by exists (scan_accounts st'), (scan_default_account st'), (scan_source_path st'), w'.
Qed.

(** * Scrolling, fitting and editing one line *)

Section Slices.

Context {A : Type}.
Implicit Types l : list A.

Lemma len_slice_to l k : 0 <= k <= len l -> len (slice_to k l) = k.
Proof.
  intros Hk. unfold slice_to, slice_bound, len in *. rewrite length_take.
  destruct (Z.ltb_spec k 0); lia.
Qed.

Lemma len_slice_from l k : 0 <= k <= len l -> len (slice_from k l) = len l - k.
Proof.
  intros Hk. unfold slice_from, slice_bound, len in *. rewrite length_drop.
  destruct (Z.ltb_spec k 0); lia.
Qed.

Lemma slice_to_from l k : slice_to k l ++ slice_from k l = l.
Proof. apply take_drop. Qed.

Lemma slice_to_app l1 l2 k : k = len l1 -> slice_to k (l1 ++ l2) = l1.
Proof.
  intros ->. unfold slice_to, slice_bound, len. rewrite length_app.
  destruct (Z.ltb_spec (Z.of_nat (length l1)) 0); [lia|].
  rewrite Z.min_l by lia. rewrite Nat2Z.id. by rewrite take_app_length.
Qed.

Lemma slice_from_app l1 l2 k : k = len l1 -> slice_from k (l1 ++ l2) = l2.
Proof.
  intros ->. unfold slice_from, slice_bound, len. rewrite length_app.
  destruct (Z.ltb_spec (Z.of_nat (length l1)) 0); [lia|].
  rewrite Z.min_l by lia. rewrite Nat2Z.id. by rewrite drop_app_length.
Qed.

Lemma len_slice_between l i j :
  0 <= i <= j -> j <= len l -> len (slice_between i j l) = j - i.
Proof.
  intros Hi Hj. unfold slice_between, slice_bound, len in *.
  rewrite length_take, length_drop.
  destruct (Z.ltb_spec i 0), (Z.ltb_spec j 0); lia.
Qed.

Lemma slice_to_between l k :
  0 <= k -> slice_to k l = slice_between 0 (len (slice_to k l)) l.
Proof.
  intros Hk. unfold slice_between, slice_to, slice_bound, len.
  rewrite length_take. cbn [Z.ltb Z.compare].
  replace (Z.to_nat (0 `min` Z.of_nat (length l))) with 0%nat by lia.
  rewrite drop_0. f_equal.
  destruct (Z.ltb_spec k 0); [lia|].
  match goal with |- context [if ?x <? 0 then _ else _] => destruct (Z.ltb_spec x 0) end; lia.
Qed.

Lemma slice_between_all l : slice_between 0 (len l) l = l.
Proof.
  unfold slice_between, slice_bound, len. cbn [Z.ltb Z.compare].
  replace (Z.to_nat (0 `min` Z.of_nat (length l))) with 0%nat by lia.
  rewrite drop_0. destruct (Z.ltb_spec (Z.of_nat (length l)) 0); [lia|].
  rewrite take_ge; [done|lia].
Qed.

Lemma len_slice_to_le l k : 0 <= k -> len (slice_to k l) <= k.
Proof.
  intros Hk. unfold slice_to, slice_bound, len. rewrite length_take.
  destruct (Z.ltb_spec k 0); lia.
Qed.

Lemma elem_of_slice_to l k x : x ∈ slice_to k l -> x ∈ l.
Proof.
  unfold slice_to. intros Hx. rewrite <- (take_drop (slice_bound (len l) k) l).
  apply elem_of_app. by left.
Qed.

End Slices.

Lemma len_app {A} (l1 l2 : list A) : len (l1 ++ l2) = len l1 + len l2.
Proof. unfold len. rewrite length_app. lia. Qed.

Lemma adjust_scroll_spec (cursor scroll usable_rows : Z) :
  1 <= usable_rows -> 0 <= cursor ->
  let scroll' := adjust_scroll cursor scroll usable_rows in
  0 <= scroll' <= cursor ∧ cursor < scroll' + usable_rows
  ∧ (0 <= scroll <= cursor -> cursor < scroll + usable_rows -> scroll' = scroll).
Proof.
  intros Hrows Hcursor. unfold adjust_scroll.
  destruct (Z.ltb_spec cursor scroll), (Z.leb_spec (scroll + usable_rows) cursor); lia.
Qed.

(** X11. After [_adjust_list_scroll], [_adjust_folder_scroll] and
    [_adjust_compose_body_scroll] on a window of at least one row, the
    cursor of the view lies inside the window that starts at the scroll
    offset, which is not negative; a cursor that was inside the window
    leaves the offset as it was, and nothing else of the view changes. *)
Theorem scroll_adjustments_show_cursor (app : TuiMailApp) (usable_rows : Z) :
  1 <= usable_rows ->
  (0 <= cursor (list_view app) ->
   let v := list_view app in
   let v' := list_view (_adjust_list_scroll app usable_rows) in
   rows v' = rows v ∧ cursor v' = cursor v
   ∧ 0 <= list_scroll v' <= cursor v' ∧ cursor v' < list_scroll v' + usable_rows
   ∧ (0 <= list_scroll v <= cursor v -> cursor v < list_scroll v + usable_rows ->
      list_scroll v' = list_scroll v))
  ∧ (0 <= folder_cursor (folders_view app) ->
     let v := folders_view app in
     let v' := folders_view (_adjust_folder_scroll app usable_rows) in
     folders v' = folders v ∧ folder_cursor v' = folder_cursor v
     ∧ 0 <= folder_scroll v' <= folder_cursor v'
     ∧ folder_cursor v' < folder_scroll v' + usable_rows
     ∧ (0 <= folder_scroll v <= folder_cursor v ->
        folder_cursor v < folder_scroll v + usable_rows ->
        folder_scroll v' = folder_scroll v))
  ∧ (0 <= compose_body_row (compose app) ->
     let c := compose app in
     let c' := compose (_adjust_compose_body_scroll app usable_rows) in
     compose_body_lines c' = compose_body_lines c
     ∧ compose_body_row c' = compose_body_row c
     ∧ 0 <= compose_body_scroll c' <= compose_body_row c'
     ∧ compose_body_row c' < compose_body_scroll c' + usable_rows
     ∧ (0 <= compose_body_scroll c <= compose_body_row c ->
        compose_body_row c < compose_body_scroll c + usable_rows ->
        compose_body_scroll c' = compose_body_scroll c)).
Proof.
  intros Hrows. split_and!; intros Hcursor; cbn;
    match goal with
    | |- context [adjust_scroll ?c ?s ?u] =>
        destruct (adjust_scroll_spec c s u Hrows Hcursor) as ([? ?] & ? & ?)
    end; by split_and!.
Qed.

Lemma scroll_adjustments_show_cursor_witness :
  let app := browsing_archive in
  (0 <= cursor (list_view app) ->
   let v := list_view app in
   let v' := list_view (_adjust_list_scroll app 20) in
   rows v' = rows v ∧ cursor v' = cursor v
   ∧ 0 <= list_scroll v' <= cursor v' ∧ cursor v' < list_scroll v' + 20
   ∧ (0 <= list_scroll v <= cursor v -> cursor v < list_scroll v + 20 ->
      list_scroll v' = list_scroll v))
  ∧ (0 <= folder_cursor (folders_view app) ->
     let v := folders_view app in
     let v' := folders_view (_adjust_folder_scroll app 20) in
     folders v' = folders v ∧ folder_cursor v' = folder_cursor v
     ∧ 0 <= folder_scroll v' <= folder_cursor v'
     ∧ folder_cursor v' < folder_scroll v' + 20
     ∧ (0 <= folder_scroll v <= folder_cursor v ->
        folder_cursor v < folder_scroll v + 20 ->
        folder_scroll v' = folder_scroll v))
  ∧ (0 <= compose_body_row (compose app) ->
     let c := compose app in
     let c' := compose (_adjust_compose_body_scroll app 20) in
     compose_body_lines c' = compose_body_lines c
     ∧ compose_body_row c' = compose_body_row c
     ∧ 0 <= compose_body_scroll c' <= compose_body_row c'
     ∧ compose_body_row c' < compose_body_scroll c' + 20
     ∧ (0 <= compose_body_scroll c <= compose_body_row c ->
        compose_body_row c < compose_body_scroll c + 20 ->
        compose_body_scroll c' = compose_body_scroll c)).
Proof. apply (scroll_adjustments_show_cursor browsing_archive 20). lia. Defined.

(** X12. The pair that [_slice_with_cursor] returns is a part of the text
    at a start index that is not negative, never wider than the field; in
    a field of two columns or more the cursor, clipped to the text, lies
    inside that part or just after it, and a text longer than the field
    fills it. *)
Theorem slice_with_cursor_shows_cursor (text : str) (cursor width : Z) :
  let shown := (_slice_with_cursor text cursor width).1 in
  let start := (_slice_with_cursor text cursor width).2 in
  let clipped := Z.max 0 (Z.min cursor (len text)) in
  0 <= start
  ∧ len shown <= Z.max 0 width
  ∧ shown = slice_between start (start + len shown) text
  ∧ (2 <= width ->
     start <= clipped <= start + len shown
     ∧ clipped - start <= width
     ∧ (width < len text -> len shown = width)).
Proof.
  intros shown start clipped. subst shown start. unfold _slice_with_cursor.
  pose proof (len_nonneg text) as Hlen.
  destruct (Z.leb_spec width 1) as [Hw|Hw].
  - cbn [fst snd]. split_and!; [done|apply len_slice_to_le; lia| |lia].
    rewrite Z.add_0_l. apply slice_to_between. lia.
  - fold clipped. destruct (Z.leb_spec (len text) width) as [Hfit|Hlong].
    + cbn [fst snd]. split_and!; [done|lia| |lia].
      rewrite Z.add_0_l. by rewrite slice_between_all.
    + destruct (Z.ltb_spec (len text) (Z.max 0 (clipped - width + 1) + width)) as [Hend|Hend];
        cbn [fst snd].
      * rewrite len_slice_between by lia.
        split_and!; [lia|lia|f_equal; lia|lia].
      * rewrite len_slice_between by lia.
        split_and!; [lia|lia|f_equal; lia|lia].
Qed.

Lemma tabs_expanded (text : str) : 9%N ∉ replace [9%N] (lit "    ") text.
Proof.
  rewrite replace_single. induction text as [|c t IH]; [apply not_elem_of_nil|].
  cbn [flat_map]. destruct (N.eqb_spec 9 c) as [<-|Hc].
  - intros Hin. apply elem_of_app in Hin as [Hin|Hin]; [|done].
    apply list_elem_of_In in Hin. vm_compute in Hin.
    repeat destruct Hin as [Hin|Hin]; try discriminate. done.
  - cbn [app]. apply not_elem_of_cons. by split.
Qed.

(** X13. The text that [_fit] returns is never wider than the width asked
    for and holds no tab character; a text without tabs that is within a
    positive width is returned as it is, and a longer one is cut to the
    width exactly, with three dots at its end when the width is above 3. *)
Theorem fit_within_width (text : str) (width : Z) :
  len (_fit text width) <= Z.max 0 width
  ∧ (9%N ∉ _fit text width)
  ∧ (0 < width -> 9%N ∉ text -> len text <= width -> _fit text width = text)
  ∧ (0 < width -> 9%N ∉ text -> width < len text ->
     len (_fit text width) = width
     ∧ (3 < width -> _fit text width = slice_to (width - 3) text ++ lit "...")).
Proof.
  unfold _fit. destruct (Z.leb_spec width 0) as [Hw|Hw].
  { split_and!; [unfold len; simpl; lia|apply not_elem_of_nil|lia|lia]. }
  pose proof (tabs_expanded text) as Htab.
  assert (9%N ∉ text -> replace [9%N] (lit "    ") text = text) as Hplain.
  { intros Hno. by apply (replace_absent _ _ _ 9%N). }
  set (expanded := replace [9%N] (lit "    ") text) in *.
  assert (9%N ∉ slice_to (width - 3) expanded ++ lit "...") as Hdots.
  { intros Hin. apply elem_of_app in Hin as [Hin|Hin].
    - by apply elem_of_slice_to in Hin.
    - apply list_elem_of_In in Hin. vm_compute in Hin.
      repeat destruct Hin as [Hin|Hin]; try discriminate. done. }
  assert (len expanded > width -> 3 < width ->
          len (slice_to (width - 3) expanded ++ lit "...") = width) as Hlen.
  { intros ??. rewrite len_app, len_slice_to by lia. change (len (lit "...")) with 3. lia. }
  split_and!.
  - destruct (Z.leb_spec (len expanded) width); [lia|].
    destruct (Z.leb_spec width 1); [rewrite len_slice_to; lia|].
    destruct (Z.leb_spec width 3); [rewrite len_slice_to; lia|].
    rewrite Hlen; lia.
  - destruct (Z.leb_spec (len expanded) width); [done|].
    destruct (Z.leb_spec width 1); [by intros ?%elem_of_slice_to|].
    destruct (Z.leb_spec width 3); [by intros ?%elem_of_slice_to|done].
  - intros _ Hno Hfit. rewrite (Hplain Hno).
    destruct (Z.leb_spec (len text) width); [done|lia].
  - intros _ Hno Hlong. rewrite (Hplain Hno) in *.
    destruct (Z.leb_spec (len text) width); [lia|].
    destruct (Z.leb_spec width 1); [split; [rewrite len_slice_to; lia|lia]|].
    destruct (Z.leb_spec width 3); [split; [rewrite len_slice_to; lia|lia]|].
    split; [apply Hlen; lia|done].
Qed.

(** ** One line of text *)

(** X14. [_edit_single_line] leaves the cursor inside the text it returns,
    changes the length of the text by one character at most, and changes
    the text only on Backspace, Delete and the printable keys. *)
Theorem edit_single_line_cursor_in_range (text : str) (cursor ch : Z) :
  let text' := (_edit_single_line text cursor ch).1 in
  let cursor' := (_edit_single_line text cursor ch).2 in
  0 <= cursor' <= len text'
  ∧ len text - 1 <= len text' <= len text + 1
  ∧ (text' ≠ text ->
     ch = curses.KEY_BACKSPACE ∨ ch = 127 ∨ ch = 8 ∨ ch = curses.KEY_DC
     ∨ 32 <= ch <= 126).
Proof.
  cbv zeta. unfold _edit_single_line.
  pose proof (len_nonneg text) as Hlen.
  set (clipped := Z.max 0 (Z.min cursor (len text))).
  assert (0 <= clipped <= len text) as Hclipped by lia.
  destruct (Z.eqb_spec ch curses.KEY_LEFT); [cbn [fst snd]; split_and!; (lia || done)|].
  destruct (Z.eqb_spec ch curses.KEY_RIGHT); [cbn [fst snd]; split_and!; (lia || done)|].
  destruct (Z.eqb_spec ch curses.KEY_HOME); [cbn [fst snd]; split_and!; (lia || done)|].
  destruct (Z.eqb_spec ch curses.KEY_END); [cbn [fst snd]; split_and!; (lia || done)|].
  destruct ((ch =? curses.KEY_BACKSPACE) || (ch =? 127) || (ch =? 8)) eqn:Hback.
  { apply orb_true_iff in Hback as [Hback|Hback];
      [apply orb_true_iff in Hback as [Hback|Hback]|]; apply Z.eqb_eq in Hback;
      (destruct (Z.ltb_spec 0 clipped); cbn [fst snd];
       rewrite ?len_app, ?len_slice_to, ?len_slice_from by lia;
       split_and!; (lia || done || (intros _; tauto))). }
  destruct (Z.eqb_spec ch curses.KEY_DC).
  { destruct (Z.ltb_spec clipped (len text)); cbn [fst snd];
      rewrite ?len_app, ?len_slice_to, ?len_slice_from by lia;
      split_and!; (lia || done || (intros _; tauto)). }
  destruct ((32 <=? ch) && (ch <=? 126)) eqn:Hprint; cbn [fst snd].
  - apply andb_true_iff in Hprint as [?%Z.leb_le ?%Z.leb_le].
    rewrite !len_app, len_slice_to, len_slice_from by lia.
    change (len [Z.to_N ch]) with 1. split_and!; (lia || (intros _; lia)).
  - split_and!; (lia || done).
Qed.

Lemma edit_single_line_insert (text : str) (cursor ch : Z) :
  32 <= ch <= 126 ->
  let clipped := Z.max 0 (Z.min cursor (len text)) in
  _edit_single_line text cursor ch
  = (slice_to clipped text ++ [Z.to_N ch] ++ slice_from clipped text, clipped + 1).
Proof.
  intros Hch clipped. unfold _edit_single_line. fold clipped.
  unfold curses.KEY_LEFT, curses.KEY_RIGHT, curses.KEY_HOME, curses.KEY_END,
    curses.KEY_BACKSPACE, curses.KEY_DC.
  repeat match goal with
         | |- context [?a =? ?b] => destruct (Z.eqb_spec a b); [lia|]
         end.
  cbn [orb]. destruct (Z.leb_spec 32 ch); [|lia]. destruct (Z.leb_spec ch 126); [|lia].
  done.
Qed.

(** X15. Typing a printable character into a line with [_edit_single_line]
    and pressing Backspace next gives back the text as it was, with the
    cursor where it stood (clipped to the text); pressing Left and then
    Delete does the same. *)
Theorem edit_single_line_insert_undone (text : str) (cursor ch : Z) :
  32 <= ch <= 126 ->
  let typed := _edit_single_line text cursor ch in
  let clipped := Z.max 0 (Z.min cursor (len text)) in
  typed.1 = slice_to clipped text ++ [Z.to_N ch] ++ slice_from clipped text
  ∧ _edit_single_line typed.1 typed.2 curses.KEY_BACKSPACE = (text, clipped)
  ∧ (let left := _edit_single_line typed.1 typed.2 curses.KEY_LEFT in
     _edit_single_line left.1 left.2 curses.KEY_DC = (text, clipped)).
Proof.
  intros Hch typed clipped. subst typed. rewrite edit_single_line_insert by done.
  fold clipped. cbn [fst snd].
  pose proof (len_nonneg text) as Hlen.
  assert (0 <= clipped <= len text) as Hclipped by lia.
  set (before := slice_to clipped text). set (after := slice_from clipped text).
  assert (len before = clipped) as Hbefore by (by apply len_slice_to).
  assert (len after = len text - clipped) as Hafter by (by apply len_slice_from).
  assert (before ++ after = text) as Htext by apply slice_to_from.
  assert (len (before ++ [Z.to_N ch] ++ after) = len text + 1) as Htyped.
  { rewrite !len_app. change (len [Z.to_N ch]) with 1. lia. }
  split_and!; [done| |].
  - unfold _edit_single_line. rewrite Htyped. cbn -[Z.max Z.min slice_to slice_from].
    rewrite Z.min_l, Z.max_r by lia.
    destruct (Z.ltb_spec 0 (clipped + 1)); [|lia].
    replace (clipped + 1 - 1) with clipped by lia.
    rewrite (slice_to_app before) by done.
    rewrite (cons_middle _ before), (app_assoc before),
      (slice_from_app (before ++ [Z.to_N ch])); [by rewrite Htext|].
    rewrite len_app. change (len [Z.to_N ch]) with 1. lia.
  - cbv zeta.
    assert (∀ t c, _edit_single_line t c curses.KEY_LEFT
                   = (t, Z.max 0 (Z.max 0 (Z.min c (len t)) - 1))) as Hleft by done.
    rewrite Hleft, Htyped. cbn [fst snd].
    replace (Z.max 0 (Z.max 0 (Z.min (clipped + 1) (len text + 1)) - 1))
      with clipped by lia.
    unfold _edit_single_line. rewrite Htyped. cbn -[Z.max Z.min slice_to slice_from].
    rewrite Z.min_l, Z.max_r by lia.
    destruct (Z.ltb_spec clipped (len text + 1)); [|lia].
    rewrite (slice_to_app before) by done.
    rewrite (cons_middle _ before), (app_assoc before),
      (slice_from_app (before ++ [Z.to_N ch])); [by rewrite Htext|].
    rewrite len_app. change (len [Z.to_N ch]) with 1. lia.
Qed.

Lemma edit_single_line_insert_undone_witness :
  let typed := _edit_single_line (lit "helo") 3 108 in
  let clipped := Z.max 0 (Z.min 3 (len (lit "helo"))) in
  typed.1 = slice_to clipped (lit "helo") ++ [Z.to_N 108] ++ slice_from clipped (lit "helo")
  ∧ _edit_single_line typed.1 typed.2 curses.KEY_BACKSPACE = (lit "helo", clipped)
  ∧ (let left := _edit_single_line typed.1 typed.2 curses.KEY_LEFT in
     _edit_single_line left.1 left.2 curses.KEY_DC = (lit "helo", clipped)).
Proof. apply (edit_single_line_insert_undone (lit "helo") 3 108). lia. Defined.

(** X16. [_compose_focus_next] and [_compose_focus_prev] keep the focus
    among the five controls 0 to 4 whatever it was, undo each other on
    such a focus, and five steps forward come back to it. *)
Theorem compose_focus_cycles (app : TuiMailApp) :
  let focus a := compose_focus (compose a) in
  0 <= focus (_compose_focus_next app) <= 4
  ∧ 0 <= focus (_compose_focus_prev app) <= 4
  ∧ (0 <= focus app <= 4 ->
     _compose_focus_prev (_compose_focus_next app) = set_compose_focus (focus app) app
     ∧ _compose_focus_next (_compose_focus_prev app) = set_compose_focus (focus app) app
     ∧ focus (_compose_focus_next (_compose_focus_next (_compose_focus_next
                (_compose_focus_next (_compose_focus_next app))))) = focus app).
Proof.
  intros focus. subst focus. unfold _compose_focus_next, _compose_focus_prev.
  cbn.
  pose proof (Z.mod_pos_bound (compose_focus (compose app) + 1) 5 ltac:(lia)).
  pose proof (Z.mod_pos_bound (compose_focus (compose app) - 1) 5 ltac:(lia)).
  split_and!; [lia|lia|lia|lia|].
  - intros Hfocus. unfold set_compose_focus, set_compose. cbn.
    assert (compose_focus (compose app) = 0 ∨ compose_focus (compose app) = 1
            ∨ compose_focus (compose app) = 2 ∨ compose_focus (compose app) = 3
            ∨ compose_focus (compose app) = 4) as Hcases by lia.
    destruct Hcases as [->|[->|[->|[->| ->]]]]; done.
Qed.

(** * Listing the folders *)

Lemma elem_of_strip (s : str) (c : N) : c ∈ strip s -> c ∈ s.
Proof.
  unfold strip, lstrip. intros Hc. apply elem_of_rstrip in Hc.
  by apply elem_of_drop_while in Hc.
Qed.

Lemma split_on_no_sep (sep : N) (s cur : str) :
  sep ∉ cur -> Forall (fun part => sep ∉ part) (split_on sep cur s).
Proof.
  revert cur. induction s as [|c t IH]; intros cur Hcur; cbn [split_on].
  - by constructor.
  - destruct (N.eqb_spec c sep) as [->|Hne].
    + constructor; [done|]. apply IH, not_elem_of_nil.
    + apply IH. intros Hin. apply elem_of_app in Hin as [Hin|Hin]; [done|].
      apply list_elem_of_singleton in Hin. congruence.
Qed.

Lemma elem_of_split_on_gap (s : str) (c : N) : c ∈ (split_on_gap s).1 -> c ∈ s.
Proof.
  induction s as [|a t IH]; [done|]. cbn [split_on_gap].
  destruct t as [|b t']; [done|].
  destruct (isspace a && isspace b); cbn [fst].
  - intros Hin. by apply elem_of_nil in Hin.
  - intros Hin. apply elem_of_cons in Hin as [->|Hin]; [left|right; by apply IH].
Qed.

Lemma not_contains_char (c : N) (s : str) : contains [c] s = false -> c ∉ s.
Proof.
  induction s as [|x t IH]; intros Hno; [apply not_elem_of_nil|].
  cbn [contains startswith] in Hno. apply orb_false_iff in Hno as [Hx Ht].
  rewrite andb_true_r in Hx. apply N.eqb_neq in Hx.
  apply not_elem_of_cons. split; [done|by apply IH].
Qed.

Lemma parse_folder_line_cases (line : str) :
  parse_folder_line line = []
  ∨ ∃ name desc,
      parse_folder_line line = [FolderRow.mk name desc]
      ∧ name ≠ [] ∧ strip name = name ∧ strip desc = desc
      ∧ (lower name ∉ skip_names)
      ∧ (124%N ∉ name).
Proof.
  unfold parse_folder_line. destruct (strip line) as [|c0 clean0] eqn:Hclean; [by left|].
  rewrite <- Hclean. clear c0 clean0 Hclean. set (clean := strip line).
  destruct (_ || _); [by left|]. destruct (_ || _); [by left|].
  match goal with
  | |- context [match (?cells).1 with _ => _ end] => set (found := cells)
  end.
  assert (strip found.1 = found.1 ∧ strip found.2 = found.2
          ∧ (124%N ∉ found.1)) as (Hname & Hdesc & Hbar).
  { subst found. destruct (contains (lit "|") clean) eqn:Hpipe.
    - pose proof (split_on_no_sep 124 clean [] (not_elem_of_nil _)) as Hparts.
      assert (∀ cell, cell ∈ filter (fun cell => cell ≠ []) (strip <$> split_on 124 [] clean)
                -> strip cell = cell ∧ (124%N ∉ cell)) as Hcells.
      { intros cell [_ Hin]%list_elem_of_filter.
        apply list_elem_of_fmap in Hin as (part & -> & Hpart).
        split; [apply strip_idemp|]. intros Hc%elem_of_strip.
        by eapply Forall_forall in Hparts. }
      destruct (filter _ _) as [|name rest].
      + split_and!; [done|done|apply not_elem_of_nil].
      + destruct (Hcells name) as [Hn Hb]; [left|]. cbn [fst snd].
        split_and!; [done| |done].
        destruct rest as [|d rest]; [done|].
        apply (Hcells d). right. left.
    - cbn [fst snd]. split_and!.
      + apply strip_idemp.
      + destruct (split_on_gap clean).2; [apply strip_idemp|done].
      + intros Hc%elem_of_strip%elem_of_split_on_gap.
        by apply (not_contains_char 124 clean). }
  destruct found.1 as [|c name] eqn:Hfound; [by left|].
  destruct (decide _) as [|Hskip]; [by left|].
  right. exists (c :: name), found.2. by split_and!.
Qed.

(** X17. Every row of [_parse_folders_plain] has a name that is not empty,
    has no white space at its ends, holds no column separator [|] and is
    none of the header words (name, desc, description, folder, folders)
    in any letter case; its description has no white space at its ends;
    and there are never more rows than lines. *)
Theorem parse_folders_plain_wellformed (raw : str) :
  Forall (fun row =>
            folder_row_trimmed row
            ∧ (lower (FolderRow.name row) ∉ skip_names)
            ∧ (124%N ∉ FolderRow.name row))
         (_parse_folders_plain raw)
  ∧ (length (_parse_folders_plain raw) <= length (splitlines raw))%nat.
Proof.
  unfold _parse_folders_plain.
  induction (splitlines raw) as [|line lines [IHrows IHlen]]; [by split|].
  cbn [flat_map length].
  destruct (parse_folder_line_cases line)
    as [->|(name & desc & -> & Hne & Hname & Hdesc & Hskip & Hbar)].
  - split; [done|]. simpl. lia.
  - split; [|simpl; lia]. cbn [app]. constructor; [|done]. by split_and!.
Qed.

Section FoldersFacts.

Variable backend : Backend.
Variable json_loads : str -> str + Json.
Variable json_repr : Json -> str.

Lemma parse_folder_item_trimmed (item : Json) :
  Forall folder_row_trimmed (parse_folder_item json_repr item).
Proof.
  destruct item as [s|items|d|truthy text]; cbn [parse_folder_item]; try by constructor.
  - destruct (strip s) as [|c name] eqn:Hname; constructor; [|constructor].
    unfold folder_row_trimmed. cbn [FolderRow.name FolderRow.desc].
    split_and!; [done| |done]. rewrite <- Hname. apply strip_idemp.
  - destruct (strip (str_of_first _ _)) as [|c name] eqn:Hname; constructor; [|constructor].
    unfold folder_row_trimmed. cbn [FolderRow.name FolderRow.desc].
    split_and!; [done| |apply strip_idemp]. rewrite <- Hname. apply strip_idemp.
Qed.

Lemma parse_folder_items_strings (names : list str) :
  flat_map (parse_folder_item json_repr) (JString <$> names)
  = (fun name => FolderRow.mk (strip name) []) <$> filter (fun name => strip name ≠ []) names.
Proof.
  induction names as [|name names IH]; [done|].
  rewrite fmap_cons. cbn [flat_map parse_folder_item]. rewrite IH, filter_cons.
  destruct (decide (strip name ≠ [])) as [Hname|Hname].
  - destruct (strip name) as [|c s] eqn:E; [done|]. by rewrite fmap_cons, E.
  - apply dec_stable in Hname. by rewrite Hname.
Qed.

(** X18. [_parse_folders_json] always returns and spawns no process; every
    row has a name that is not empty, and a name and a description
    without white space at their ends; text that is no JSON, or JSON that
    holds no list, gives no row; and a list of strings gives one row for
    each string that is not blank, trimmed, in the order of the list. *)
Theorem parse_folders_json_wellformed (raw : str) (w : World) :
  ∃ rows w',
    _parse_folders_json json_loads json_repr raw w = (Return rows, w')
    ∧ calls w' = calls w
    ∧ Forall folder_row_trimmed rows
    ∧ (∀ err, json_loads raw = inl err -> rows = [])
    ∧ (∀ truthy text, json_loads raw = inr (JScalar truthy text) -> rows = [])
    ∧ (∀ s, json_loads raw = inr (JString s) -> rows = [])
    ∧ (∀ names, json_loads raw = inr (JList (JString <$> names)) ->
         rows = (fun name => FolderRow.mk (strip name) [])
                <$> filter (fun name => strip name ≠ []) names).
Proof.
  assert (∀ items, Forall folder_row_trimmed (flat_map (parse_folder_item json_repr) items))
    as Hitems.
  { induction items as [|item items IH]; [constructor|].
    cbn [flat_map]. apply Forall_app. split; [apply parse_folder_item_trimmed|done]. }
  unfold _parse_folders_json.
  destruct (json_loads raw) as [err|data].
  - eexists [], _. split; [reflexivity|]. split_and!; try done.
  - destruct data as [s|items|d|truthy text].
    + eexists [], w. split_and!; try done.
    + eexists _, w. split; [reflexivity|]. split_and!; try done.
      intros names [= ->]. apply parse_folder_items_strings.
    + destruct (dict_get (lit "folders") d) as [[s|items|d'|truthy text]|];
        try (destruct (dict_get (lit "data") d) as [[s'|items'|d''|truthy' text']|]);
        eexists _, w; (split; [reflexivity|]); split_and!; try done.
    + eexists [], w. split_and!; try done.
Qed.












End FoldersFacts.


(** * The message list *)

Section ListPageFacts.

Variable backend : Backend.
Variable _confirm_modal : str -> str -> bool.





End ListPageFacts.



(** * Sending a draft *)

Section ComposePageFacts.

Variable backend : Backend.
Variable _prompt_text_modal : str -> str -> Z -> option str.
Variables key_tab key_btab key_f5 key_f1 : Z.

Lemma set_status_sender_id (app : TuiMailApp) :
  app = set_status (status app) (set_default_sender (default_sender app) app).
Proof. by destruct app. Qed.

(** X24. [_send_composed_email] never raises and returns a message that is
    not empty; it changes nothing of the state but the status and the
    default sender.  The default sender changes only when the first send
    failed for want of a sender and the dialog gave a text that is not
    blank: it is then that text, trimmed, whether the second send works
    or not.  A failure is reported as [Send error: ...] or as the
    cancellation text, and the message of a success is trimmed. *)
Theorem send_composed_email_outcome (app : TuiMailApp) (to subject body : str) (w : World) :
  ∃ ok msg app' w',
    _send_composed_email backend _prompt_text_modal app to subject body w
    = (Return (ok, msg, app'), w')
    ∧ msg ≠ []
    ∧ (∃ text, app' = set_status text (set_default_sender (default_sender app') app))
    ∧ (default_sender app' = default_sender app
       ∨ ∃ err w0 answer,
           compose_message backend (client app) to subject body (default_sender app) w
           = (Raise err, w0)
           ∧ _is_missing_sender_error (message err) = true
           ∧ _prompt_text_modal (lit "SENDER (FROM)")
               (lit "Enter sender. Example: Name <email@domain>:") 320 = Some answer
           ∧ strip answer ≠ []
           ∧ default_sender app' = strip answer)
    ∧ (ok = false ->
       (∃ err, msg = lit "Send error: " ++ message err)
       ∨ msg = lit "Send canceled: sender was not provided.")
    ∧ (ok = true -> strip msg = msg).
Proof.
  assert (∀ a result w0,
            ∃ msg w', send_done a result w0 = (Return (true, msg, a), w')
                      ∧ msg ≠ [] ∧ strip msg = msg) as Hdone.
  { intros a result w0. unfold send_done, mbind, M_bind, _log, mret, M_ret.
    destruct (strip result) as [|c text] eqn:Hres.
    - eexists _, _. split; [reflexivity|]. by split.
    - eexists _, _. split; [reflexivity|]. split; [done|].
      rewrite <- Hres. apply strip_idemp. }
  unfold _send_composed_email, attempt. unfold mbind at 1, M_bind at 1. cbn [fst snd].
  destruct (compose_message backend (client app) to subject body (default_sender app) w)
    as [[result|err] w1] eqn:Hfirst; cbn [fst snd].
  - destruct (Hdone app result w1) as (msg & w' & -> & Hmsg & Htrim).
    exists true, msg, app, w'. split_and!; try done.
    + exists (status app). apply set_status_sender_id.
    + by left.
  - destruct (_is_missing_sender_error (message err)) eqn:Hmissing; cbn [negb].
    + unfold mbind at 1, M_bind at 1, _log at 1.
      destruct (_prompt_text_modal _ _ _) as [answer|] eqn:Hprompt.
      * destruct (strip answer) as [|c trimmed] eqn:Hanswer.
        -- eexists false, _, app, _. split; [reflexivity|]. split_and!; try done.
           ++ exists (status app). apply set_status_sender_id.
           ++ by left.
           ++ by right.
        -- unfold _show_loading, mbind, M_bind, _log, mret, M_ret. cbn [fst snd].
           match goal with
           | |- context [compose_message backend ?c ?t ?s ?b ?d ?w0] =>
               destruct (compose_message backend c t s b d w0) as [[result|err2] w2]
           end; cbn [fst snd].
           ++ match goal with
              | |- context [send_done ?a result w2] =>
                  destruct (Hdone a result w2) as (msg & w' & -> & Hmsg & Htrim)
              end.
              eexists true, msg, _, w'. split; [reflexivity|]. split_and!; try done.
              ** eexists. by destruct app.
              ** right. exists err, w1, answer. split_and!; try done. by rewrite Hanswer.
           ++ eexists false, _, _, _. split; [reflexivity|]. split_and!; try done.
              ** eexists. by destruct app.
              ** right. exists err, w1, answer. split_and!; try done. by rewrite Hanswer.
              ** intros _. left. by exists err2.
      * eexists false, _, app, _. split; [reflexivity|]. split_and!; try done.
        -- exists (status app). apply set_status_sender_id.
        -- by left.
        -- by right.
    + eexists false, _, app, _. split; [reflexivity|]. split_and!; try done.
      * exists (status app). apply set_status_sender_id.
      * by left.
      * intros _. left. by exists err.
Qed.






End ComposePageFacts.


(** * The recipients of a reply *)

Lemma split_addresses_trimmed (raw : str) :
  Forall (fun part => part ≠ [] ∧ strip part = part) (_split_addresses raw).
Proof.
  unfold _split_addresses. destruct (strip raw); [constructor|].
  apply Forall_forall. intros part [Hne Hin]%list_elem_of_filter.
  apply list_elem_of_fmap in Hin as (p & -> & _). split; [done|apply strip_idemp].
Qed.

Section ReplyToFacts.

Variable _address_key : str -> str.

Lemma reply_all_loop_spec (own : gset str) (parts acc : list str) (seen : gset str) :
  Forall (fun part => strip part = part) parts ->
  fold_left (reply_all_step _address_key own) parts (acc, seen)
  = fold_left (seen_step _address_key)
      (filter (fun part => _address_key part ≠ [] ∧ _address_key part ∉ own) parts)
      (acc, seen).
Proof.
  revert acc seen. induction parts as [|part parts IH]; intros acc seen Hparts; [done|].
  apply Forall_cons in Hparts as [Hpart Hparts]. cbn [fold_left].
  rewrite filter_cons. unfold reply_all_step at 2. cbn [fst snd].
  destruct (_address_key part) as [|c key] eqn:Hkey.
  - rewrite decide_False by (intros [? _]; done). by apply IH.
  - destruct (decide (c :: key ∈ own)) as [Hown|Hown].
    + rewrite decide_True by (by left).
      rewrite decide_False by (intros [_ ?]; done). by apply IH.
    + rewrite (decide_True (P := _ ∧ _)) by done. cbn [fold_left].
      unfold seen_step at 2. cbn [fst snd]. rewrite Hkey, Hpart.
      destruct (decide (c :: key ∈ seen)) as [Hseen|Hseen].
      * rewrite decide_True by (by right). rewrite ?decide_True by done. by apply IH.
      * rewrite decide_False by (intros [?|?]; done). rewrite ?decide_False by done.
        by apply IH.
Qed.

(** X27. The recipients that [_build_reply_to] gives to a reply to all are
    the parts of the sender, To and Cc headers that have an address,
    without the addresses of the user (the default sender and the
    account), each address once: the first part with an address is kept,
    in the order sender, To, Cc.  Every recipient is trimmed and not
    empty.  They are joined by a comma and a space; when none is left,
    and in a plain reply, the answer goes to the sender (Reply-To, else
    From). *)
Theorem build_reply_to_recipients (app : TuiMailApp) (headers : gmap str str) :
  let kept :=
    first_occurrences _address_key
      (filter (fun part => _address_key part ≠ [] ∧ _address_key part ∉ own_keys _address_key app)
              (reply_all_parts headers)) in
  reply_all_recipients _address_key app headers = kept
  ∧ NoDup (_address_key <$> kept)
  ∧ Forall (fun part =>
              part ≠ [] ∧ strip part = part ∧ _address_key part ≠ []
              ∧ (_address_key part ≠ _address_key (default_sender app))
              ∧ (_address_key part ≠ _address_key (account (client app))))
           kept
  ∧ _build_reply_to _address_key app headers true
    = match kept with
      | [] => strip (reply_sender headers)
      | _ :: _ => join (lit ", ") kept
      end
  ∧ _build_reply_to _address_key app headers false = strip (reply_sender headers).
Proof.
  intros kept.
  assert (Forall (fun part => part ≠ [] ∧ strip part = part) (reply_all_parts headers))
    as Hparts.
  { unfold reply_all_parts. cbn [flat_map]. rewrite app_nil_r.
    rewrite !Forall_app. split_and!; apply split_addresses_trimmed. }
  assert (reply_all_recipients _address_key app headers = kept) as Hkept.
  { unfold reply_all_recipients. rewrite reply_all_loop_spec.
    - rewrite (seen_loop_spec _address_key _ [] ∅)
        by (intros k; rewrite elem_of_empty; split; [done|by intros ?%elem_of_nil]).
      rewrite app_nil_l. apply filter_all. intros part. apply not_elem_of_nil.
    - eapply Forall_impl; [exact Hparts|]. by intros part [_ ?]. }
  split_and!.
  - done.
  - apply first_occurrences_NoDup.
  - apply Forall_forall. intros part Hin.
    eapply elem_of_sublist in Hin; [|apply first_occurrences_sublist].
    apply list_elem_of_filter in Hin as [[Hkey Hown] Hin].
    eapply Forall_forall in Hparts as [Hne Htrim]; [|exact Hin].
    split_and!; try done.
    + intros Heq. apply Hown. unfold own_keys. rewrite <- Heq.
      destruct (_address_key part) as [|c key]; [done|].
      destruct (_address_key (account (client app)));
        [by apply elem_of_singleton|apply elem_of_union; right; by apply elem_of_singleton].
    + intros Heq. apply Hown. unfold own_keys. rewrite <- Heq.
      destruct (_address_key part) as [|c key]; [done|].
      apply elem_of_union. left. by apply elem_of_singleton.
  - unfold _build_reply_to. cbn [negb]. rewrite Hkept. by destruct kept.
  - done.
Qed.

End ReplyToFacts.

(** * The dialog that asks for an account number *)

Lemma int_of_str_digits (value : str) :
  value ≠ [] -> forallb isdigit value = true ->
  int_of_str value = Some (int_of_digits value).
Proof.
  intros Hne Hdigits. unfold int_of_str. destruct value; [done|]. by rewrite Hdigits.
Qed.

Lemma account_number_loop_safe (keys : list Z) (accounts : list str) (value error : str)
    (w : World) :
  forallb isdigit value = true -> len value <= 4 ->
  ∃ d w',
    account_number_loop keys accounts value error w = (Return (Some d), w')
    ∧ calls w' = calls w
    ∧ match d with
      | Waiting typed _ => forallb isdigit typed = true ∧ len typed <= 4
      | Closed None => 27 ∈ keys
      | Closed (Some target) => target = [] ∨ target ∈ accounts
      end.
Proof.
  revert value error w. induction keys as [|ch keys IH]; intros value error w Hdigits Hlen.
  { eexists _, _. split; [reflexivity|]. by split. }
  assert (∀ value' error' w0, calls w0 = calls w ->
            forallb isdigit value' = true -> len value' <= 4 ->
            ∃ d w',
              account_number_loop keys accounts value' error' w0 = (Return (Some d), w')
              ∧ calls w' = calls w
              ∧ match d with
                | Waiting typed _ => forallb isdigit typed = true ∧ len typed <= 4
                | Closed None => 27 ∈ ch :: keys
                | Closed (Some target) => target = [] ∨ target ∈ accounts
                end) as Hnext.
  { intros value' error' w0 Hw0 Hd Hl.
    destruct (IH value' error' w0 Hd Hl) as (d & w' & Hrun & Hcalls & Hres).
    exists d, w'. split_and!; [done|congruence|].
    destruct d as [typed shown|[target|]]; try done. by right. }
  cbn [account_number_loop].
  destruct (Z.eqb_spec ch 27) as [->|_].
  { eexists _, _. split; [reflexivity|]. split; [done|]. left. }
  destruct (_ || _).
  { destruct value as [|c value'] eqn:Hvalue; [by apply Hnext|]. rewrite <- Hvalue in *.
    rewrite int_of_str_digits by (done || by rewrite Hvalue).
    destruct (Z.eqb_spec (int_of_digits value) 0).
    { eexists _, _. split; [reflexivity|]. split; [done|]. by left. }
    destruct (Z.leb_spec 1 (int_of_digits value)); cbn [andb]; [|by apply Hnext].
    destruct (Z.leb_spec (int_of_digits value) (len accounts)); [|by apply Hnext].
    destruct (index_in_range accounts (int_of_digits value - 1)) as [chosen Hchosen]; [lia|].
    rewrite Hchosen. eexists _, _. split; [reflexivity|]. split; [done|]. right.
    unfold index in Hchosen. destruct (_ || _); [done|].
    by apply list_elem_of_lookup_2 in Hchosen. }
  destruct (_ || _).
  { apply Hnext; [done| |].
    - apply forallb_forall. intros c Hc%list_elem_of_In%elem_of_slice_to.
      eapply forallb_forall in Hdigits; [done|]. by apply list_elem_of_In.
    - unfold slice_to, slice_bound, len in *. rewrite length_take. cbn. lia. }
  destruct (Z.eqb_spec ch KEY_RESIZE); [by apply Hnext|].
  destruct (Z.leb_spec 48 ch); cbn [andb]; [|by apply Hnext].
  destruct (Z.leb_spec ch 57); cbn [andb]; [|by apply Hnext].
  destruct (Z.ltb_spec (len value) 4); [|by apply Hnext].
  apply Hnext; [done| |].
  - rewrite forallb_app, Hdigits. cbn. unfold isdigit.
    rewrite andb_true_r. apply andb_true_iff. split; apply N.leb_le; lia.
  - rewrite len_app. change (len [Z.to_N ch]) with 1. lia.
Qed.

Lemma account_number_loop_typing (ds : str) (rest : list Z) (accounts : list str)
    (value error : str) (w : World) :
  ds ≠ [] -> forallb isdigit ds = true -> len value + len ds <= 4 ->
  account_number_loop ((Z.of_N <$> ds) ++ rest) accounts value error w
  = account_number_loop rest accounts (value ++ ds) [] w.
Proof.
  revert value error. induction ds as [|d ds IH]; intros value error Hne Hdigits Hlen; [done|].
  cbn [forallb] in Hdigits. apply andb_true_iff in Hdigits as [Hd Hds].
  assert (48 <= Z.of_N d <= 57) as Hrange.
  { unfold isdigit in Hd. apply andb_true_iff in Hd as [?%N.leb_le ?%N.leb_le]. lia. }
  assert (len (d :: ds) = len ds + 1) as Hcons by (unfold len; cbn [length]; lia).
  pose proof (len_nonneg ds). pose proof (len_nonneg value).
  rewrite fmap_cons. cbn [app account_number_loop].
  unfold curses.KEY_ENTER, curses.KEY_BACKSPACE, KEY_RESIZE.
  repeat match goal with
         | |- context [Z.of_N d =? ?k] => destruct (Z.eqb_spec (Z.of_N d) k); [lia|]
         end.
  cbn [orb]. destruct (Z.leb_spec 48 (Z.of_N d)); [|lia].
  destruct (Z.leb_spec (Z.of_N d) 57); [|lia]. cbn [andb].
  destruct (Z.ltb_spec (len value) 4); [|lia]. rewrite N2Z.id.
  destruct ds as [|d' ds'].
  - done.
  - rewrite (IH (value ++ [d]) []); [by rewrite <- app_assoc|done|done|].
    rewrite len_app. change (len [d]) with 1. lia.
Qed.

(** X28. The dialog for the account number, on any keys typed, never
    raises and never indexes outside the list, and spawns no process.
    While it is open the text typed is at most four digits; once closed
    it answers nothing (after Esc), the default account, or one of the
    accounts listed.  Typing a number of one to four digits and Enter
    chooses the default account for 0 and the account of that number
    for 1 up to the number of accounts. *)
Theorem account_number_modal_answers (keys : list Z) (accounts : list str)
    (default_account : str) (w : World) :
  (∃ d w',
     account_number_modal keys accounts default_account w = (Return (Some d), w')
     ∧ calls w' = calls w
     ∧ match d with
       | Waiting typed _ => forallb isdigit typed = true ∧ len typed <= 4
       | Closed None => 27 ∈ keys
       | Closed (Some target) => target = [] ∨ target ∈ accounts
       end)
  ∧ (∀ ds rest,
       ds ≠ [] -> forallb isdigit ds = true -> len ds <= 4 ->
       keys = (Z.of_N <$> ds) ++ 10 :: rest ->
       (int_of_digits ds = 0 ->
        (account_number_modal keys accounts default_account w).1
        = Return (Some (Closed (Some []))))
       ∧ (1 <= int_of_digits ds <= len accounts ->
          ∃ chosen,
            index accounts (int_of_digits ds - 1) = Some chosen
            ∧ (account_number_modal keys accounts default_account w).1
              = Return (Some (Closed (Some chosen))))).
Proof.
  split.
  - unfold account_number_modal, mbind, M_bind, _log.
    match goal with
    | |- context [account_number_loop keys accounts [] [] ?w0] =>
        destruct (account_number_loop_safe keys accounts [] [] w0)
          as (d & w' & -> & Hcalls & Hres); [done|done|]
    end.
    by exists d, w'.
  - intros ds rest Hne Hdigits Hlen ->.
    unfold account_number_modal, mbind, M_bind, _log.
    rewrite account_number_loop_typing by (done || (change (len (@nil N)) with 0; lia)).
    rewrite app_nil_l. cbn [account_number_loop].
    change (10 =? 27) with false. change ((10 =? curses.KEY_ENTER) || (10 =? 10) || (10 =? 13)) with true.
    cbn match. destruct ds as [|d ds'] eqn:Hds; [done|]. rewrite <- Hds in *.
    rewrite int_of_str_digits by (done || by rewrite Hds). split.
    + intros ->. done.
    + intros Hrange. destruct (Z.eqb_spec (int_of_digits ds) 0); [lia|].
      destruct (Z.leb_spec 1 (int_of_digits ds)); [|lia].
      destruct (Z.leb_spec (int_of_digits ds) (len accounts)); [|lia]. cbn [andb].
      destruct (index_in_range accounts (int_of_digits ds - 1)) as [chosen Hchosen]; [lia|].
      exists chosen. split; [done|]. by rewrite Hchosen.
Qed.

(** * The draft of a reply *)

Lemma prefilled_body_shape (body_lines : list str) :
  let prefill := _build_reply_prefilled_body body_lines in
  head prefill = Some []
  ∧ len prefill <= 9
  ∧ Forall (fun l => len l <= 162) prefill
  ∧ (prefill = [[]]
     ∨ ∃ quoted,
         prefill = [[]; []; lit "----- Original message snippet (max 5 lines) -----"]
                   ++ quoted
         ∧ 1 <= len quoted <= 6
         ∧ Forall (fun l => startswith l (lit ">") = true) quoted).
Proof.
  cbv zeta. unfold _build_reply_prefilled_body.
  set (cleaned := drop_while _ _).
  destruct (slice_to 5 cleaned) as [|first snippet] eqn:Hsnippet.
  { split_and!; [done|done|by repeat constructor|by left]. }
  rewrite <- Hsnippet.
  assert (1 <= len (slice_to 5 cleaned) <= 5) as Hlen.
  { split; [rewrite Hsnippet; unfold len; cbn [length]; lia|].
    apply len_slice_to_le. lia. }
  clear first snippet Hsnippet.
  set (quote := fun l : str => match l with
                               | [] => lit ">"
                               | _ :: _ => lit "> " ++ _truncate l 160
                               end).
  set (quoted := if 5 <? len cleaned
                 then (quote <$> slice_to 5 cleaned) ++ [lit "> ..."]
                 else quote <$> slice_to 5 cleaned).
  assert (1 <= len quoted <= 6) as Hquoted.
  { subst quoted. destruct (5 <? len cleaned); unfold len in *;
      rewrite ?length_app, ?length_fmap; cbn [length]; lia. }
  assert (Forall (fun l => len l <= 162 ∧ startswith l (lit ">") = true) quoted) as Hall.
  { assert (Forall (fun l => len l <= 162 ∧ startswith l (lit ">") = true)
                   (quote <$> slice_to 5 cleaned)) as Hq.
    { apply Forall_fmap, Forall_forall. intros l _. unfold quote. cbn [compose].
      destruct l as [|c l]; [split; [by vm_compute|done]|]. split; [|done].
      rewrite len_app. pose proof (truncate_bounded (c :: l) 160 ltac:(lia)).
      change (len (lit "> ")) with 2. lia. }
    subst quoted. destruct (5 <? len cleaned); [|done].
    apply Forall_app. split; [done|]. by repeat constructor. }
  split_and!.
  - done.
  - unfold len in *. rewrite length_app. cbn [length].
    clear Hall. subst quoted quote. cbv beta in *. range_lia.
  - apply Forall_app. split; [by repeat constructor|].
    eapply Forall_impl; [exact Hall|]. by intros l [? _].
  - right. exists quoted. split_and!; [done|apply Hquoted|apply Hquoted|].
    eapply Forall_impl; [exact Hall|]. by intros l [_ ?].
Qed.

Section ReplyDraftFacts.

Variable _build_reply_to : TuiMailApp -> gmap str str -> bool -> str.

(** X29. Replying to the message on screen always opens the compose page
    and spawns no process: the draft is a reply to that message, the
    focus is on the body, and the cursor is at the start of the body, on
    an empty first line.  The body is either one empty line or two empty
    lines, the banner and one to six quoted lines that start with [>];
    it has nine lines at most, none longer than 162 characters.  The
    cursors of the recipient and the subject are at the end of their
    fields; the message and the list are as they were, and the page to
    go back to is the page the reply was opened from. *)
Theorem reply_draft_opens_on_body
    (app : TuiMailApp) (reply_all : bool) (source_id : Z) (w : World) :
  current_message_id (message_view app) = Some source_id ->
  ∃ app' w',
    _open_reply_compose_page _build_reply_to app reply_all w = (Return app', w')
    ∧ calls w' = calls w
    ∧ mode app' = mode_compose
    ∧ prev_mode_before_compose app'
      = match mode app with
        | mode_compose => prev_mode_before_compose app
        | other => other
        end
    ∧ message_view app' = message_view app
    ∧ list_view app' = list_view app
    ∧ (let c := compose app' in
       compose_kind c = kind_reply
       ∧ compose_reply_source_id c = Some source_id
       ∧ compose_reply_all c = reply_all
       ∧ compose_focus c = 2
       ∧ compose_to_cursor c = len (compose_to c)
       ∧ compose_subject_cursor c = len (compose_subject c)
       ∧ compose_body_row c = 0 ∧ compose_body_col c = 0
       ∧ head (compose_body_lines c) = Some []
       ∧ len (compose_body_lines c) <= 9
       ∧ Forall (fun l => len l <= 162) (compose_body_lines c)
       ∧ (compose_body_lines c = [[]]
          ∨ ∃ quoted,
              compose_body_lines c
              = [[]; []; lit "----- Original message snippet (max 5 lines) -----"]
                ++ quoted
              ∧ 1 <= len quoted <= 6
              ∧ Forall (fun l => startswith l (lit ">") = true) quoted)).
Proof.
  intros Hopen. unfold _open_reply_compose_page. rewrite Hopen.
  destruct (_split_headers_and_body_from_message (message_lines (message_view app)))
    as [headers body_lines].
  pose proof (prefilled_body_shape body_lines) as (Hhead & Hlen & Hwide & Hshape).
  unfold _open_compose_page, mbind, M_bind, _log, mret, M_ret.
  eexists _, _. split; [reflexivity|].
  cbn [calls compose set_status set_compose set_mode mode prev_mode_before_compose
       message_view list_view compose_kind compose_reply_source_id compose_reply_all
       compose_focus compose_to_cursor compose_subject_cursor compose_to compose_subject
       compose_body_row compose_body_col compose_body_lines].
  destruct (_build_reply_prefilled_body body_lines) as [|first rest] eqn:Hbody; [done|].
  split_and!; try done; by destruct (mode app).
Qed.

End ReplyDraftFacts.

Lemma reply_draft_opens_on_body_witness :
  ∃ app' w',
    _open_reply_compose_page reply_to_sender
      (showing_message [lit "From: ann@example.org"; lit "Subject: Hello"; []; lit "Hi there"])
      true fresh_world
    = (Return app', w')
    ∧ calls w' = calls fresh_world
    ∧ mode app' = mode_compose
    ∧ prev_mode_before_compose app' = mode_message
    ∧ message_view app'
      = message_view (showing_message [lit "From: ann@example.org"; lit "Subject: Hello";
                                       []; lit "Hi there"])
    ∧ list_view app'
      = list_view (showing_message [lit "From: ann@example.org"; lit "Subject: Hello";
                                    []; lit "Hi there"])
    ∧ (let c := compose app' in
       compose_kind c = kind_reply
       ∧ compose_reply_source_id c = Some 7
       ∧ compose_reply_all c = true
       ∧ compose_focus c = 2
       ∧ compose_to_cursor c = len (compose_to c)
       ∧ compose_subject_cursor c = len (compose_subject c)
       ∧ compose_body_row c = 0 ∧ compose_body_col c = 0
       ∧ head (compose_body_lines c) = Some []
       ∧ len (compose_body_lines c) <= 9
       ∧ Forall (fun l => len l <= 162) (compose_body_lines c)
       ∧ (compose_body_lines c = [[]]
          ∨ ∃ quoted,
              compose_body_lines c
              = [[]; []; lit "----- Original message snippet (max 5 lines) -----"]
                ++ quoted
              ∧ 1 <= len quoted <= 6
              ∧ Forall (fun l => startswith l (lit ">") = true) quoted)).
Proof.
  apply (reply_draft_opens_on_body reply_to_sender
           (showing_message [lit "From: ann@example.org"; lit "Subject: Hello"; [];
                             lit "Hi there"])
           true 7 fresh_world).
  reflexivity.
Defined.

(** * Undoing an edit of the body *)

Section Middle.

Context {A : Type}.
Implicit Types pre post : list A.

Lemma index_middle pre post x i :
  i = len pre -> index (pre ++ x :: post) i = Some x.
Proof.
  intros ->. unfold index, len. rewrite length_app. cbn [length].
  destruct (Z.ltb_spec (Z.of_nat (length pre)) (- Z.of_nat (length pre + S (length post))));
    [lia|].
  destruct (Z.leb_spec (Z.of_nat (length pre + S (length post))) (Z.of_nat (length pre)));
    [lia|].
  cbn [orb]. destruct (Z.ltb_spec (Z.of_nat (length pre)) 0); [lia|].
  rewrite Nat2Z.id. by rewrite list_lookup_middle.
Qed.

Lemma setitem_middle pre post x v i :
  i = len pre -> setitem (pre ++ x :: post) i v = Some (pre ++ v :: post).
Proof.
  intros ->. unfold setitem, len. rewrite length_app. cbn [length].
  destruct (Z.ltb_spec (Z.of_nat (length pre)) (- Z.of_nat (length pre + S (length post))));
    [lia|].
  destruct (Z.leb_spec (Z.of_nat (length pre + S (length post))) (Z.of_nat (length pre)));
    [lia|].
  cbn [orb]. destruct (Z.ltb_spec (Z.of_nat (length pre)) 0); [lia|].
  rewrite Nat2Z.id. f_equal. rewrite insert_app_r_alt by lia.
  by rewrite Nat.sub_diag.
Qed.

Lemma delitem_middle pre post x i :
  i = len pre -> delitem (pre ++ x :: post) i = Some (pre ++ post).
Proof.
  intros ->. unfold delitem, len. rewrite length_app. cbn [length].
  destruct (Z.ltb_spec (Z.of_nat (length pre)) (- Z.of_nat (length pre + S (length post))));
    [lia|].
  destruct (Z.leb_spec (Z.of_nat (length pre + S (length post))) (Z.of_nat (length pre)));
    [lia|].
  cbn [orb]. destruct (Z.ltb_spec (Z.of_nat (length pre)) 0); [lia|].
  rewrite Nat2Z.id. f_equal. by rewrite delete_middle.
Qed.

Lemma insert_at_middle pre post v i :
  i = len pre -> insert_at (pre ++ post) i v = pre ++ v :: post.
Proof.
  intros ->. unfold insert_at, slice_bound, len. rewrite length_app.
  destruct (Z.ltb_spec (Z.of_nat (length pre)) 0); [lia|].
  rewrite Z.min_l by lia. rewrite Nat2Z.id.
  by rewrite take_app_length, drop_app_length.
Qed.

Lemma index_split (l : list A) (i : Z) (x : A) :
  0 <= i -> index l i = Some x ->
  ∃ pre post, l = pre ++ x :: post ∧ len pre = i.
Proof.
  intros Hi Hx. unfold index in Hx. destruct (_ || _); [done|].
  destruct (Z.ltb_spec i 0); [lia|].
  apply list_elem_of_split_length in Hx as (pre & post & -> & Hlen).
  exists pre, post. split; [done|]. unfold len. lia.
Qed.

End Middle.

Lemma set_compose_body_id (app : TuiMailApp) :
  set_compose_body (compose_body_lines (compose app)) (compose_body_row (compose app))
    (compose_body_col (compose app)) app = app.
Proof. destruct app as [? ? ? ? ? ? ? ? ? ? ? []]. done. Qed.

Lemma set_compose_body_twice (app : TuiMailApp) (l1 l2 : list str) (r1 c1 r2 c2 : Z) :
  set_compose_body l2 r2 c2 (set_compose_body l1 r1 c1 app) = set_compose_body l2 r2 c2 app.
Proof. done. Qed.

Lemma index_range {A} (l : list A) (i : Z) (x : A) :
  0 <= i -> index l i = Some x -> i < len l.
Proof.
  intros Hi Hx. unfold index in Hx.
  destruct (Z.ltb_spec i (- len l)); [done|].
  destruct (Z.leb_spec (len l) i); [done|lia].
Qed.

(** One key of [_edit_body], once the branch taken is known. *)
Lemma edit_body_step (app : TuiMailApp) (ch : Z) (line : str)
    (lines' : list str) (row' col' : Z) (line' : str) :
  body_cursor_valid app ->
  index (compose_body_lines (compose app)) (compose_body_row (compose app)) = Some line ->
  edit_body_key ch (compose_body_lines (compose app)) (compose_body_row (compose app))
    (compose_body_col (compose app)) line = Some (lines', row', col') ->
  0 <= row' -> index lines' row' = Some line' -> 0 <= col' <= len line' ->
  _edit_body app ch = Some (set_compose_body lines' row' col' app).
Proof.
  intros (Hne & Hrow0 & Hrow1 & line0 & Hline0 & Hcol) Hline Hkey Hrow' Hline' Hcol'.
  cbv zeta in *. rewrite Hline in Hline0. injection Hline0 as <-.
  pose proof (index_range _ _ _ Hrow' Hline') as Hrow'1.
  unfold _edit_body, _ensure_compose_body_valid.
  destruct (compose_body_lines (compose app)) as [|l0 ls] eqn:Hlines; [done|].
  cbv beta iota zeta. rewrite <- Hlines in *. unfold str in *.
  match goal with
  | |- context [Z.max 0 (Z.min ?a ?b)] => replace (Z.max 0 (Z.min a b)) with a by lia
  end.
  rewrite Hline. cbn [mbind option_bind].
  match goal with
  | |- context [Z.max 0 (Z.min ?a ?b)] => replace (Z.max 0 (Z.min a b)) with a by lia
  end.
  rewrite set_compose_body_id, Hline. cbn [mbind option_bind].
  match goal with
  | |- context [Z.max 0 (Z.min ?a ?b)] => replace (Z.max 0 (Z.min a b)) with a by lia
  end.
  rewrite Hkey. cbn [mbind option_bind].
  match goal with
  | |- context [Z.max 0 (Z.min ?a ?b)] => replace (Z.max 0 (Z.min a b)) with a by lia
  end.
  rewrite Hline'. cbn [mbind option_bind].
  match goal with
  | |- context [Z.max 0 (Z.min ?a ?b)] => replace (Z.max 0 (Z.min a b)) with a by lia
  end.
  done.
Qed.

Lemma edit_body_key_enter (lines : list str) (row col : Z) (line : str) :
  edit_body_key 10 lines row col line
  = (lines' ← setitem lines row (slice_to col line) ;
     Some (insert_at lines' (row + 1) (slice_from col line), row + 1, 0)).
Proof. done. Qed.

Lemma edit_body_key_backspace (lines : list str) (row col : Z) (line : str) :
  edit_body_key curses.KEY_BACKSPACE lines row col line
  = if 0 <? col then
      lines' ← setitem lines row (slice_to (col - 1) line ++ slice_from col line) ;
      Some (lines', row, col - 1)
    else if 0 <? row then
      prev ← index lines (row - 1) ;
      lines' ← setitem lines (row - 1) (prev ++ line) ;
      lines'' ← delitem lines' row ;
      Some (lines'', row - 1, len prev)
    else Some (lines, row, col).
Proof. done. Qed.

Lemma edit_body_key_printable (ch : Z) (lines : list str) (row col : Z) (line : str) :
  32 <= ch <= 126 ->
  edit_body_key ch lines row col line
  = (lines' ← setitem lines row (slice_to col line ++ [Z.to_N ch] ++ slice_from col line) ;
     Some (lines', row, col + 1)).
Proof.
  intros Hch. unfold edit_body_key.
  unfold curses.KEY_UP, curses.KEY_DOWN, curses.KEY_LEFT, curses.KEY_RIGHT,
    curses.KEY_HOME, curses.KEY_END, curses.KEY_BACKSPACE, curses.KEY_DC,
    curses.KEY_ENTER, curses.KEY_NPAGE, curses.KEY_PPAGE.
  repeat match goal with
         | |- context [ch =? ?k] => destruct (Z.eqb_spec ch k); [lia|]
         end.
  cbn [orb]. destruct (Z.leb_spec 32 ch); [|lia]. destruct (Z.leb_spec ch 126); [|lia].
  done.
Qed.

(** X30. In a draft whose cursor is inside the body, a line break or a
    printable character typed with [_edit_body] is undone by
    Backspace: the lines and the cursor are again what they were.
    Enter splits the line at the cursor and puts the cursor at the
    start of the new line; a character moves the cursor one column to
    the right. *)
Theorem edit_body_backspace_undoes (app : TuiMailApp) (ch : Z) :
  body_cursor_valid app ->
  (∃ broken,
     _edit_body app 10 = Some broken
     ∧ len (compose_body_lines (compose broken)) = len (compose_body_lines (compose app)) + 1
     ∧ compose_body_row (compose broken) = compose_body_row (compose app) + 1
     ∧ compose_body_col (compose broken) = 0
     ∧ _edit_body broken curses.KEY_BACKSPACE = Some app)
  ∧ (32 <= ch <= 126 ->
     ∃ typed,
       _edit_body app ch = Some typed
       ∧ len (compose_body_lines (compose typed)) = len (compose_body_lines (compose app))
       ∧ compose_body_row (compose typed) = compose_body_row (compose app)
       ∧ compose_body_col (compose typed) = compose_body_col (compose app) + 1
       ∧ _edit_body typed curses.KEY_BACKSPACE = Some app).
Proof.
  intros Hvalid. pose proof Hvalid as (Hne & Hrow0 & Hrow1 & line & Hline & Hcol).
  cbv zeta in *. unfold str in *.
  destruct (index_split _ _ _ Hrow0 Hline) as (pre & post & Hlines & Hpre).
  set (row := compose_body_row (compose app)) in *.
  set (col := compose_body_col (compose app)) in *.
  set (before := slice_to col line). set (after := slice_from col line).
  assert (before ++ after = line) as Hsplit by apply slice_to_from.
  assert (len before = col) as Hbefore by (by apply len_slice_to).
  pose proof (len_nonneg pre) as Hpre0.
  assert (∀ x y, len (pre ++ x :: y) = len pre + 1 + len y) as Hlen3.
  { intros x y. unfold len. rewrite length_app. cbn [length]. lia. }
  split.
  - set (lines1 := pre ++ before :: after :: post).
    assert (lines1 = (pre ++ [before]) ++ after :: post) as Hlines1.
    { subst lines1. by rewrite <- app_assoc. }
    assert (len (pre ++ [before]) = row + 1) as Hpre1.
    { rewrite len_app. change (len [before]) with 1. lia. }
    assert (edit_body_key 10 (compose_body_lines (compose app)) row col line
            = Some (lines1, row + 1, 0)) as Hkey.
    { rewrite edit_body_key_enter, Hlines. unfold str in *. fold before after.
      rewrite (setitem_middle pre post line before row) by done.
      cbn [mbind option_bind].
      rewrite (cons_middle before pre post), app_assoc.
      rewrite (insert_at_middle (pre ++ [before]) post after (row + 1)) by done.
      by rewrite <- app_assoc. }
    assert (index lines1 (row + 1) = Some after) as Hafter.
    { rewrite Hlines1. by apply index_middle. }
    pose proof (len_nonneg after) as Hafter0.
    exists (set_compose_body lines1 (row + 1) 0 app).
    split; [by apply (edit_body_step app 10 line lines1 (row + 1) 0 after); try lia|].
    cbn [compose set_compose_body set_compose compose_body_lines compose_body_row
         compose_body_col].
    split_and!; [|done|done|].
    { subst lines1. rewrite Hlines, !Hlen3. unfold len in *. cbn [length]. lia. }
    assert (body_cursor_valid (set_compose_body lines1 (row + 1) 0 app)) as Hvalid1.
    { unfold body_cursor_valid.
      cbn [compose set_compose_body set_compose compose_body_lines compose_body_row
           compose_body_col].
      split_and!; [by destruct pre|lia| |by exists after; split; [|lia]].
      subst lines1. rewrite Hlen3. unfold len in *. cbn [length]. lia. }
    rewrite (edit_body_step _ curses.KEY_BACKSPACE after
               (compose_body_lines (compose app)) row col line Hvalid1); try done.
    + by rewrite set_compose_body_twice, set_compose_body_id.
    + cbn [compose set_compose_body set_compose compose_body_lines compose_body_row
           compose_body_col].
      rewrite edit_body_key_backspace. cbn [Z.ltb Z.compare]. unfold str in *.
      fold before after.
      destruct (Z.ltb_spec 0 (row + 1)); [|lia].
      replace (row + 1 - 1) with row by lia.
      clear Hlines1 Hkey Hafter Hvalid1. subst lines1.
      rewrite (index_middle pre (after :: post) before row) by done.
      cbn [mbind option_bind].
      rewrite (setitem_middle pre (after :: post) before (before ++ after) row) by done.
      cbn [mbind option_bind].
      rewrite (cons_middle (before ++ after) pre), app_assoc.
      rewrite (delitem_middle (pre ++ [before ++ after]) post after (row + 1)).
      * cbn [mbind option_bind]. rewrite <- app_assoc, <- cons_middle.
        by rewrite Hsplit, Hlines, Hbefore.
      * rewrite len_app. change (len [before ++ after]) with 1. lia.
  - intros Hch. set (typed_line := before ++ [Z.to_N ch] ++ after).
    set (lines2 := pre ++ typed_line :: post).
    assert (len typed_line = len line + 1) as Htyped.
    { subst typed_line. rewrite !len_app, <- Hsplit, len_app.
      change (len [Z.to_N ch]) with 1. lia. }
    pose proof (len_nonneg line) as Hline0.
    assert (edit_body_key ch (compose_body_lines (compose app)) row col line
            = Some (lines2, row, col + 1)) as Hkey.
    { rewrite edit_body_key_printable, Hlines by done. unfold str in *.
      fold before after. fold typed_line.
      by rewrite (setitem_middle pre post line typed_line row). }
    assert (index lines2 row = Some typed_line) as Hindex.
    { by apply index_middle. }
    exists (set_compose_body lines2 row (col + 1) app).
    split; [by apply (edit_body_step app ch line lines2 row (col + 1) typed_line); try lia|].
    cbn [compose set_compose_body set_compose compose_body_lines compose_body_row
         compose_body_col].
    split_and!; [|done|done|].
    { subst lines2. by rewrite Hlines, !Hlen3. }
    assert (body_cursor_valid (set_compose_body lines2 row (col + 1) app)) as Hvalid2.
    { unfold body_cursor_valid.
      cbn [compose set_compose_body set_compose compose_body_lines compose_body_row
           compose_body_col].
      split_and!; [by destruct pre|lia| |by exists typed_line; split; [|lia]].
      subst lines2. rewrite Hlen3. pose proof (len_nonneg post). lia. }
    rewrite (edit_body_step _ curses.KEY_BACKSPACE typed_line
               (compose_body_lines (compose app)) row col line Hvalid2); try done.
    + by rewrite set_compose_body_twice, set_compose_body_id.
    + cbn [compose set_compose_body set_compose compose_body_lines compose_body_row
           compose_body_col].
      rewrite edit_body_key_backspace. unfold str in *.
      destruct (Z.ltb_spec 0 (col + 1)); [|lia].
      replace (col + 1 - 1) with col by lia.
      clear Hkey Hindex Hvalid2. subst lines2.
      assert (slice_to col typed_line = before) as ->.
      { subst typed_line. by apply slice_to_app. }
      assert (slice_from (col + 1) typed_line = after) as ->.
      { subst typed_line. rewrite app_assoc. apply slice_from_app.
        rewrite len_app. change (len [Z.to_N ch]) with 1. lia. }
      rewrite (setitem_middle pre post typed_line (before ++ after) row) by done.
      cbn [mbind option_bind]. by rewrite Hsplit, Hlines.
Qed.

Lemma edit_body_backspace_undoes_witness :
  let app := browsing_archive in
  (∃ broken,
     _edit_body app 10 = Some broken
     ∧ len (compose_body_lines (compose broken)) = len (compose_body_lines (compose app)) + 1
     ∧ compose_body_row (compose broken) = compose_body_row (compose app) + 1
     ∧ compose_body_col (compose broken) = 0
     ∧ _edit_body broken curses.KEY_BACKSPACE = Some app)
  ∧ (32 <= 97 <= 126 ->
     ∃ typed,
       _edit_body app 97 = Some typed
       ∧ len (compose_body_lines (compose typed)) = len (compose_body_lines (compose app))
       ∧ compose_body_row (compose typed) = compose_body_row (compose app)
       ∧ compose_body_col (compose typed) = compose_body_col (compose app) + 1
       ∧ _edit_body typed curses.KEY_BACKSPACE = Some app).
Proof.
  apply (edit_body_backspace_undoes browsing_archive 97).
  unfold body_cursor_valid. cbn.
  split_and!; [done|lia|reflexivity|]. exists []. split; [reflexivity|]. split; discriminate.
Defined.
